(** * Zariski-Van Kampen braid monodromy: a shallow embedding of ZVK.py

    The Python module computes the braid monodromy of a plane curve and a
    presentation of the fundamental group of its complement.  This file
    embeds its functions as Rocq functions and proves properties of them.

    Conventions of the embedding.
    - Numbers.  The source is duck-typed in its number type (the docstring of
      [braid_from_piecewise] feeds it exact numbers, [braid_in_segment] feeds
      it floating-point ones).  Here every real number is an exact rational
      [Qc]; a complex number is the pair of its real and imaginary part.
      Rounding is therefore not modelled.
    - Exceptions.  A function that can raise returns a [result]: [Ok v],
      [Raise e] for a Python exception, or [OutOfFuel] when a loop bound
      given to the model is exhausted (the source loop would still run).
    - Python lists are Rocq lists; [xs[i]] is [nth_error] and raises
      [IndexError] out of range.
    - Braids.  A braid is represented by its word: the list of signed
      generator indices that the code hands to Sage's [BraidGroup], which is
      modelled by its acceptance test.  The product of braids is the
      concatenation of their words; Sage's normal forms are not modelled.
    - [braid_in_segment] carries Sage's [@parallel] decorator.  It is
      embedded as the plain function, and its call on the list of segments in
      [fundamental_group] as a map over that list. *)

From Stdlib Require Import List ZArith QArith Qcanon Lia Lqa Bool Arith Permutation Sorted.
Import ListNotations.

Close Scope Q_scope.
Open Scope Qc_scope.

(** ** Exceptions and the error monad *)

Inductive exn : Type :=
| IndexError
| ValueError
| ZeroDivisionError
| RootsTooClose
| KernelFailure.

Inductive result (A : Type) : Type :=
| Ok (a : A)
| Raise (e : exn)
| OutOfFuel.

Arguments Ok {A} a.
Arguments Raise {A} e.
Arguments OutOfFuel {A}.

Definition bind {A B : Type} (m : result A) (f : A -> result B) : result B :=
  match m with
  | Ok a => f a
  | Raise e => Raise e
  | OutOfFuel => OutOfFuel
  end.

Notation "x <- m ;; k" := (bind m (fun x => k))
  (at level 61, m at next level, right associativity).
Notation "' p <- m ;; k" := (bind m (fun p => k))
  (at level 61, p pattern, m at next level, right associativity).

(** [xs[i]] *)
Definition index {A : Type} (xs : list A) (i : nat) : result A :=
  match nth_error xs i with
  | Some x => Ok x
  | None => Raise IndexError
  end.

(** [xs[-1]] *)
Definition index_last {A : Type} (xs : list A) : result A :=
  match xs with
  | [] => Raise IndexError
  | _ => index xs (length xs - 1)
  end.

Fixpoint mapM {A B : Type} (f : A -> result B) (xs : list A) : result (list B) :=
  match xs with
  | [] => Ok []
  | x :: r => y <- f x ;; ys <- mapM f r ;; Ok (y :: ys)
  end.

(** ** Comparisons

    Python compares numbers by value and lists and tuples lexicographically.
    [Order] is that interface: a three-way comparison per type. *)

Class Order (A : Type) : Type := ocompare : A -> A -> comparison.

#[export] Instance Order_Qc : Order Qc := Qccompare.
#[export] Instance Order_nat : Order nat := Nat.compare.
#[export] Instance Order_Z : Order Z := Z.compare.
#[export] Instance Order_prod {A B : Type} `{Order A} `{Order B} : Order (A * B) :=
  fun p q =>
    match ocompare (fst p) (fst q) with
    | Eq => ocompare (snd p) (snd q)
    | c => c
    end.

(** [x < y] *)
Definition ltb {A : Type} `{Order A} (x y : A) : bool :=
  match ocompare x y with Lt => true | _ => false end.

(** [x == y] *)
Definition eqb {A : Type} `{Order A} (x y : A) : bool :=
  match ocompare x y with Eq => true | _ => false end.

(** ** Numbers *)

Definition Qcltb (x y : Qc) : bool := ltb x y.

Definition Qceqb (x y : Qc) : bool := eqb x y.

(** Python 2's [cmp] *)
Definition cmp (x y : Qc) : Z :=
  match (x ?= y)%Qc with Lt => (-1)%Z | Eq => 0%Z | Gt => 1%Z end.

(** [x / y], which raises on a zero divisor *)
Definition div (x y : Qc) : result Qc :=
  if Qceqb y 0 then Raise ZeroDivisionError else Ok (x / y).

(** [min(xs)]: raises [ValueError] on the empty list *)
Definition Qcmin (x y : Qc) : Qc := if Qcltb y x then y else x.

Definition min_list (xs : list Qc) : result Qc :=
  match xs with
  | [] => Raise ValueError
  | x :: r => Ok (fold_left Qcmin r x)
  end.

(** A complex number [c], with [c.real()] and [c.imag()] *)
Record complex : Type := Cx { real : Qc; imag : Qc }.

Definition cadd (a b : complex) : complex := Cx (real a + real b) (imag a + imag b).
Definition csub (a b : complex) : complex := Cx (real a - real b) (imag a - imag b).
(** a complex number times, and divided by, a real one *)
Definition cscale (a : complex) (r : Qc) : complex := Cx (real a * r) (imag a * r).
Definition cdiv (a : complex) (r : Qc) : result complex :=
  if Qceqb r 0 then Raise ZeroDivisionError else Ok (Cx (real a / r) (imag a / r)).

(** The two-element list [[c.real(), c.imag()]] that the source stores for a
    point; Python compares such lists lexicographically. *)
Definition pt : Type := (Qc * Qc)%type.

Definition pt_of (c : complex) : pt := (real c, imag c).

Definition pt_compare (p q : pt) : comparison := ocompare p q.

Definition pt_ltb (p q : pt) : bool := ltb p q.

(** A strand: the list of its samples [(t, c)] *)
Definition sample : Type := (Qc * complex)%type.
Definition strand : Type := list sample.

(** ** Sorting

    [xs.sort()] is a stable sort by [<].  Insertion sort, inserting each
    element before the first one that is not smaller, is stable too; on the
    total orders used here the sorted list is unique anyway. *)

Section Sort.
Context {A : Type} `{Order A}.

Fixpoint insert (x : A) (l : list A) : list A :=
  match l with
  | [] => [x]
  | y :: r => if ltb y x then y :: insert x r else x :: y :: r
  end.

Fixpoint sort (l : list A) : list A :=
  match l with
  | [] => []
  | x :: r => insert x (sort r)
  end.

End Sort.

(** ** Permutations of [1..d], as Sage's [SymmetricGroup(d)]

    A permutation is the list of the images of [1, ..., d].  Sage multiplies
    permutations left to right: [(p*q)(x) = q(p(x))]. *)

Definition perm : Type := list nat.

(** [G(Permutation([]))] *)
Definition perm_id (d : nat) : perm := seq 1 d.

(** [P(x)] *)
Definition papply (P : perm) (x : nat) : nat := nth (x - 1) P x.

(** [G(Permutation([(a, b)]))] *)
Definition transposition (d a b : nat) : perm :=
  map (fun x => if x =? a then b else if x =? b then a else x)%nat (seq 1 d).

(** [p * q] *)
Definition pmul (p q : perm) : perm := map (papply q) p.

(** ** BraidExtractor: [braid_from_piecewise] *)

(** *** Merging the strands onto common times (source lines 67-85) *)

(** [[L[k][indices[k]][0] for k in range(len(L))]] *)
Fixpoint times_at (L : list strand) (indices : list nat) : result (list Qc) :=
  match L, indices with
  | [], _ => Ok []
  | Lk :: L', ik :: ind' =>
      s <- index Lk ik ;; r <- times_at L' ind' ;; Ok (fst s :: r)
  | _ :: _, [] => Raise IndexError
  end.

(** One pass of the body of [for j in range(len(L))] for strand [j]: the
    point appended to [totalpoints[j]] and the new [indices[j]].
    [indices[j]] is never 0 (it starts at 1 and only grows), so
    [indices[j] - 1] is never Python's [-1]. *)
Definition advance (i : Qc) (Lj : strand) (ij : nat) : result (pt * nat) :=
  s <- index Lj ij ;;
  if Qcltb i (fst s) then
    s0 <- index Lj (ij - 1) ;;
    let xaux := snd s0 in
    let yaux := snd s in
    let aaux := fst s0 in
    let baux := fst s in
    q <- cdiv (cscale (csub yaux xaux) (i - aaux)) (baux - aaux) ;;
    Ok (pt_of (cadd xaux q), ij)
  else
    Ok (pt_of (snd s), S ij).

(** The whole [for j] loop: [totalpoints] and [indices] after it. *)
Fixpoint for_body (i : Qc) (L : list strand) (totalpoints : list (list pt))
    (indices : list nat) : result (list (list pt) * list nat) :=
  match L, totalpoints, indices with
  | [], _, _ => Ok ([], [])
  | Lj :: L', tpj :: tp', ij :: ind' =>
      '(p, ij') <- advance i Lj ij ;;
      '(tp'', ind'') <- for_body i L' tp' ind' ;;
      Ok ((tpj ++ [p]) :: tp'', ij' :: ind'')
  | _, _, _ => Raise IndexError
  end.

(** [while i < 1: ...]; [fuel] bounds the number of iterations. *)
Fixpoint merge_loop (fuel : nat) (L : list strand) (i : Qc)
    (totalpoints : list (list pt)) (indices : list nat)
    : result (list (list pt)) :=
  if Qcltb i 1 then
    match fuel with
    | O => OutOfFuel
    | S fuel' =>
        '(tp', ind') <- for_body i L totalpoints indices ;;
        ts <- times_at L ind' ;;
        i' <- min_list ts ;;
        merge_loop fuel' L i' tp' ind'
    end
  else Ok totalpoints.

(** The last loop of the merge: append the last sample of every strand. *)
Fixpoint append_last (L : list strand) (totalpoints : list (list pt))
    : result (list (list pt)) :=
  match L, totalpoints with
  | [], _ => Ok []
  | Lj :: L', tpj :: tp' =>
      s <- index_last Lj ;;
      r <- append_last L' tp' ;;
      Ok ((tpj ++ [pt_of (snd s)]) :: r)
  | _ :: _, [] => Raise IndexError
  end.

(** Every pass of the [while] loop moves the index of at least one strand,
    so the number of samples bounds the number of passes. *)
Definition merge_fuel (L : list strand) : nat := length (concat L).

(** [totalpoints], as it stands at source line 86 *)
Definition merge (L : list strand) : result (list (list pt)) :=
  ts <- mapM (fun Lk => s <- index Lk 1 ;; Ok (fst s)) L ;;
  i <- min_list ts ;;
  tp0 <- mapM (fun a => s <- index a 0 ;; Ok [pt_of (snd s)]) L ;;
  let indices := map (fun _ => 1%nat) L in
  tp <- merge_loop (merge_fuel L) L i tp0 indices ;;
  append_last L tp.

(** *** Crossings of one slice (source lines 89-101) *)

(** A recorded crossing [[t, k, j, -s]] *)
Definition crossing : Type := (Qc * nat * nat * Z)%type.

Definition c_t (c : crossing) : Qc := let '(t, _, _, _) := c in t.
Definition c_k (c : crossing) : nat := let '(_, k, _, _) := c in k.
Definition c_j (c : crossing) : nat := let '(_, _, j, _) := c in j.
Definition c_sign (c : crossing) : Z := let '(_, _, _, s) := c in s.

(** The body of the inner loop [for k in range(j)]: what it appends to
    [cruces] for the pair [k < j]. *)
Definition crossing_at (l1 l2 : list pt) (j k : nat) : result (list crossing) :=
  l2j <- index l2 j ;;
  l2k <- index l2 k ;;
  if pt_ltb l2j l2k then
    l1j <- index l1 j ;;
    l1k <- index l1 k ;;
    t <- div (fst l1j - fst l1k) (fst l2k - fst l1k + fst l1j - fst l2j) ;;
    let s := cmp (snd l1k * (1 - t) + t * snd l2k)
                 (snd l1j * (1 - t) + t * snd l2j) in
    Ok [(t, k, j, (- s)%Z)]
  else Ok [].

(** [cruces] after the two nested [for] loops *)
Definition find_cruces (l1 l2 : list pt) : result (list crossing) :=
  r <- mapM (fun j =>
               r <- mapM (crossing_at l1 l2 j) (seq 0 j) ;; Ok (concat r))
            (seq 0 (length l2)) ;;
  Ok (concat r).

(** *** Resolving the crossings of one slice (source lines 102-115) *)

(** The tuple [(P(c[2]+1) - P(c[1]+1), c[1], c[2], c[3])] *)
Definition cross : Type := (Z * nat * nat * Z)%type.

Definition x_d (c : cross) : Z := let '(d, _, _, _) := c in d.
Definition x_k (c : cross) : nat := let '(_, k, _, _) := c in k.
Definition x_j (c : cross) : nat := let '(_, _, j, _) := c in j.
Definition x_sign (c : cross) : Z := let '(_, _, _, s) := c in s.

Definition pdiff (P : perm) (k j : nat) : Z :=
  (Z.of_nat (papply P (j + 1)) - Z.of_nat (papply P (k + 1)))%Z.

Definition key_crossing (P : perm) (c : crossing) : cross :=
  (pdiff P (c_k c) (c_j c), c_k c, c_j c, c_sign c).

Definition rekey (P : perm) (c : cross) : cross :=
  (pdiff P (x_k c) (x_j c), x_k c, x_j c, x_sign c).

(** The generator [c[3]*min(map(P, [c[1] + 1, c[2] + 1]))] *)
Definition generator (P : perm) (c : cross) : Z :=
  (x_sign c * Z.of_nat (Nat.min (papply P (x_k c + 1)) (papply P (x_j c + 1))))%Z.

(** [while crossesl: ...]: every pass pops one crossing. *)
Fixpoint resolve_same_t (fuel d : nat) (P : perm) (crossesl : list cross)
    (braid : list Z) : result (perm * list Z) :=
  match crossesl with
  | [] => Ok (P, braid)
  | _ :: _ =>
      match fuel with
      | O => OutOfFuel
      | S fuel' =>
          match sort crossesl with
          | [] => Raise IndexError
          | c :: rest =>
              let braid' := braid ++ [generator P c] in
              let P' := pmul (transposition d (x_k c + 1) (x_j c + 1)) P in
              resolve_same_t fuel' d P' (map (rekey P') rest) braid'
          end
      end
  end.

(** [while cruces: ...]: every pass removes the crossings of one time. *)
Fixpoint resolve (fuel d : nat) (P : perm) (cruces : list crossing)
    (braid : list Z) : result (list Z) :=
  match cruces with
  | [] => Ok braid
  | c0 :: _ =>
      match fuel with
      | O => OutOfFuel
      | S fuel' =>
          let crucesl := filter (fun c => Qceqb (c_t c) (c_t c0)) cruces in
          let crossesl := map (key_crossing P) crucesl in
          let cruces' := skipn (length crucesl) cruces in
          '(P', braid') <- resolve_same_t (length crossesl) d P crossesl braid ;;
          resolve fuel' d P' cruces' braid'
      end
  end.

(** The body of [for i in range(len(totalpoints[0]) - 1)], from the two
    columns [l1], [l2] of [totalpoints] to the longer [braid]. *)
Definition slice (d : nat) (l1 l2 : list pt) (braid : list Z) : result (list Z) :=
  M <- mapM (fun s => a <- index l1 s ;; b <- index l2 s ;; Ok (a, b))
            (seq 0 (length l1)) ;;
  let M := sort M in
  let l1 := map fst M in
  let l2 := map snd M in
  cruces <- find_cruces l1 l2 ;;
  if (0 <? length cruces)%nat then
    resolve (length cruces) d (perm_id d) (sort cruces) braid
  else Ok braid.

(** [[totalpoints[j][i] for j in range(len(L))]] *)
Definition column (totalpoints : list (list pt)) (i : nat) : result (list pt) :=
  mapM (fun tpj => index tpj i) totalpoints.

Fixpoint slices (d : nat) (totalpoints : list (list pt)) (range : list nat)
    (braid : list Z) : result (list Z) :=
  match range with
  | [] => Ok braid
  | i :: range' =>
      l1 <- column totalpoints i ;;
      l2 <- column totalpoints (i + 1) ;;
      braid' <- slice d l1 l2 braid ;;
      slices d totalpoints range' braid'
  end.

(** The list [braid] at source line 116 *)
Definition braid_word (strands : list strand) : result (list Z) :=
  totalpoints <- merge strands ;;
  tp0 <- index totalpoints 0 ;;
  slices (length totalpoints) totalpoints (seq 0 (length tp0 - 1)) [].

(** [BraidGroup(d)(word)]: Sage accepts a list of nonzero integers of
    absolute value at most [d - 1] and raises [ValueError] otherwise. *)
Definition valid_generator (d : nat) (g : Z) : bool :=
  negb (g =? 0)%Z && (Z.abs g <=? Z.of_nat d - 1)%Z.

Definition BraidGroup (d : nat) (word : list Z) : result (list Z) :=
  if forallb (valid_generator d) word then Ok word else Raise ValueError.

Definition braid_from_piecewise (strands : list strand) : result (list Z) :=
  braid <- braid_word strands ;;
  BraidGroup (length strands) braid.

(** The example of the docstring. *)
Definition qc (n : Z) (d : positive) : Qc := Q2Qc (n # d).
Definition cx (rn : Z) (rd : positive) (im_n : Z) (im_d : positive) : complex :=
  Cx (qc rn rd) (qc im_n im_d).

Definition docstring_paths : list strand :=
  [ [ (qc 0 1, cx 0 1 1 1); (qc 1 5, cx (-1) 1 (-1) 2);
      (qc 4 5, cx (-1) 1 0 1); (qc 1 1, cx 0 1 (-1) 1) ];
    [ (qc 0 1, cx (-1) 1 0 1); (qc 1 2, cx 0 1 (-1) 1); (qc 1 1, cx 1 1 0 1) ];
    [ (qc 0 1, cx 1 1 0 1); (qc 1 2, cx 1 1 1 1); (qc 1 1, cx 0 1 1 1) ] ].


(** ** The rest of the pipeline

    The collaborators that are not part of ZVK.py are parameters of the
    section: the polynomial arithmetic, the exact root isolation, scipy's
    [Voronoi], the continuation kernels [contpath] and [contpath_mp], the
    action of a braid on a free group and the simplification of a
    presentation.  Exact algebraic numbers ([QQbar]) are modelled, like the
    floating-point ones, as complex numbers with rational coordinates. *)

#[export] Instance Order_complex : Order complex :=
  fun a b => ocompare (pt_of a) (pt_of b).

(** [x in xs] *)
Definition mem {A : Type} `{Order A} (x : A) (xs : list A) : bool :=
  existsb (eqb x) xs.

(** [list(set(xs))], up to the order in which a set is listed *)
Fixpoint dedup {A : Type} `{Order A} (xs : list A) : list A :=
  match xs with
  | [] => []
  | x :: r => if mem x r then dedup r else x :: dedup r
  end.

(** [xs.index(x)] *)
Fixpoint position {A : Type} `{Order A} (x : A) (xs : list A) : result nat :=
  match xs with
  | [] => Raise ValueError
  | y :: r => if eqb y x then Ok O else n <- position x r ;; Ok (S n)
  end.

(** [xs[z]] for a Python integer [z]: a negative index counts from the end. *)
Definition index_py {A : Type} (xs : list A) (z : Z) : result A :=
  if (z <? 0)%Z then
    if (- z <=? Z.of_nat (length xs))%Z
    then index xs (length xs - Z.to_nat (- z))
    else Raise IndexError
  else index xs (Z.to_nat z).

(** What the code reads of scipy's [Voronoi(configuration)]: the vertices of
    the diagram and, for every ridge, the indices of its vertices, [-1]
    standing for a vertex at infinity. *)
Record voronoi : Type := {
  vertices : list pt;
  ridge_vertices : list (list Z)
}.

(** A group presentation: the number of generators [x0 .. x(n-1)] and the
    relators, words of signed generator indices (Sage's Tietze lists). *)
Record presentation : Type := {
  ngens : nat;
  relators : list (list Z)
}.

Definition Qcabs (x : Qc) : Qc := if Qcltb x 0 then - x else x.

Definition Qcmax (x y : Qc) : Qc := if Qcltb x y then y else x.

(** [xs.max()]: raises [ValueError] on an empty array *)
Definition max_list (xs : list Qc) : result Qc :=
  match xs with
  | [] => Raise ValueError
  | x :: r => Ok (fold_left Qcmax r x)
  end.

(** [c.norm()]: the square of the modulus *)
Definition norm (c : complex) : Qc := real c * real c + imag c * imag c.

(** [sign(a)] *)
Definition sign (a : Z) : Z := Z.sgn a.

(** [b.inverse()] of a braid word *)
Definition braid_inverse (b : list Z) : list Z := rev (map Z.opp b).

Section Pipeline.

Variable poly : Type.
(** [f.factor().radical().prod()] *)
Variable radical : poly -> poly.
(** [g.degree(y)] and [g.total_degree()] *)
Variable degree_y : poly -> nat.
Variable total_degree : poly -> nat.
(** [g.coefficient(y**d) in F] *)
Variable leading_coefficient_constant : poly -> nat -> bool.
(** [g.subs({x: x + y})] *)
Variable shear : poly -> poly.
(** [discrim(g)]: the roots of the discriminant *)
Variable discrim : poly -> list complex.
(** the roots in [y] of [f(x0, y)], without multiplicities *)
Variable roots : poly -> complex -> list complex.
Variable Voronoi : list pt -> result voronoi.
(** [deg] and [coefs] of [followstrand], computed at precision [prec] *)
Variable interval_coefficients : poly -> complex -> complex -> nat -> nat * list Qc.
Variable contpath : nat -> list Qc -> Qc -> Qc -> result (list (Qc * Qc * Qc)).
Variable contpath_mp : nat -> list Qc -> Qc -> Qc -> nat -> result (list (Qc * Qc * Qc)).
(** [x * b]: the action of the braid [b] on the free group element [x] *)
Variable braid_action : nat -> list Z -> list Z -> list Z.
(** [G.simplified()] *)
Variable simplified_presentation : presentation -> presentation.

(** *** PathNetworkBuilder: [segments] *)

Definition added_points (discpoints : list pt) : result Qc :=
  m <- max_list (flat_map (fun p => [Qcabs (fst p); Qcabs (snd p)]) discpoints) ;;
  Ok (Q2Qc 3 * m + 1).

Definition configuration (discpoints : list pt) (a : Qc) : list pt :=
  discpoints ++ [(a, 0); (- a, 0); (0, a); (0, - a)].

(** The body of [for rv in V.ridge_vertices]: what it appends to [res]. *)
Definition ridge_segment (V : voronoi) (rv : list Z)
    : result (list (complex * complex)) :=
  if existsb (Z.eqb (-1)) rv then Ok []
  else
    rv0 <- index rv 0 ;;
    v0 <- index_py (vertices V) rv0 ;;
    rv1 <- index rv 1 ;;
    v1 <- index_py (vertices V) rv1 ;;
    Ok [(Cx (fst v0) (snd v0), Cx (fst v1) (snd v1))].

Definition segments (points : list complex) : result (list (complex * complex)) :=
  let discpoints := map pt_of points in
  a <- added_points discpoints ;;
  V <- Voronoi (configuration discpoints a) ;;
  r <- mapM (ridge_segment V) (ridge_vertices V) ;;
  Ok (concat r).

(** *** RootContinuationTracker: [followstrand]

    [fuel] bounds the depth of the recursion, which the source does not. *)

Definition kernel (deg : nat) (coefs : list Qc) (yr yi : Qc) (prec : nat)
    : result (list (Qc * Qc * Qc)) :=
  if (prec =? 53)%nat then contpath deg coefs yr yi
  else contpath_mp deg coefs yr yi prec.

Fixpoint followstrand (fuel : nat) (f : poly) (x0 x1 y0a : complex) (prec : nat)
    : result (list (Qc * Qc * Qc)) :=
  match fuel with
  | O => OutOfFuel
  | S fuel' =>
      let '(deg, coefs) := interval_coefficients f x0 x1 prec in
      let yr := real y0a in
      let yi := imag y0a in
      match kernel deg coefs yr yi prec with
      | Ok points => Ok points
      | Raise _ => followstrand fuel' f x0 x1 y0a (2 * prec)
      | OutOfFuel => OutOfFuel
      end
  end.

(** *** SegmentBraidComputer: [braid_in_segment] *)

(** [sorted(distances)[0][1]] *)
Definition nearest (ys : list complex) (yap : complex) : result complex :=
  let distances := map (fun y => (norm (csub yap y), y)) ys in
  d0 <- index (sort distances) 0 ;;
  Ok (snd d0).

(** The loop [for y0ap in y0aps], with [used] and the strands built so far;
    [mk y yap] is the two-sample strand between a root and its approximation. *)
Fixpoint match_roots (mk : complex -> complex -> strand) (ys : list complex)
    (yaps : list complex) (used : list complex) (acc : list strand)
    : result (list strand) :=
  match yaps with
  | [] => Ok acc
  | yap :: rest =>
      y <- nearest ys yap ;;
      if mem y used then Raise RootsTooClose
      else match_roots mk ys rest (used ++ [y]) (acc ++ [mk y yap])
  end.

Definition initial_strand (y0 y0ap : complex) : strand := [(0, y0); (1, y0ap)].
Definition final_strand (y1 y1ap : complex) : strand := [(0, y1ap); (1, y1)].

Definition complex_strand (b : list (Qc * Qc * Qc)) : strand :=
  map (fun a => let '(t, yr, yi) := a in (t, Cx yr yi)) b.

Definition braid_in_segment (fuel : nat) (f : poly) (x0 x1 : complex)
    : result (list Z) :=
  let y0s := roots f x0 in
  strands <- mapM (fun a => followstrand fuel f x0 x1 a 53) y0s ;;
  let complexstrands := map complex_strand strands in
  centralbraid <- braid_from_piecewise complexstrands ;;
  y0aps <- mapM (fun c => s <- index c 0 ;; Ok (snd s)) complexstrands ;;
  initialstrands <- match_roots initial_strand y0s y0aps [] [] ;;
  initialbraid <- braid_from_piecewise initialstrands ;;
  let y1s := roots f x1 in
  y1aps <- mapM (fun c => s <- index_last c ;; Ok (snd s)) complexstrands ;;
  finalstrands <- match_roots final_strand y1s y1aps [] [] ;;
  finallbraid <- braid_from_piecewise finalstrands ;;
  Ok (initialbraid ++ centralbraid ++ finallbraid).

(** *** PresentationAssembler: [fundamental_group] *)

(** [while not g.coefficient(y**d) in F or (projective and ...)] *)
Fixpoint shift_coordinates (fuel : nat) (projective : bool) (g : poly) : result poly :=
  let d := degree_y g in
  if negb (leading_coefficient_constant g d)
     || (projective && (d <? total_degree g)%nat)
  then
    match fuel with
    | O => OutOfFuel
    | S fuel' => shift_coordinates fuel' projective (shear g)
    end
  else Ok g.

(** The relator [w1/w2] of sheet [k] for a segment from vertex [i] to [j] *)
Definition relator (d i j : nat) (b : list Z) (k : nat) : list Z :=
  let el1 := braid_action d [Z.of_nat k + 1]%Z (braid_inverse b) in
  let el2 := (Z.of_nat k + 1)%Z in
  let w1 := map (fun a => (sign a * Z.of_nat d * Z.of_nat i + a)%Z) el1 in
  let w2 := (Z.of_nat d * Z.of_nat j + el2)%Z in
  w1 ++ [(- w2)%Z].

(** The body of [for braidcomputed in braidscomputed] *)
Definition segment_relators (d : nat) (verts : list complex)
    (seg : complex * complex) (b : list Z) : result (list (list Z)) :=
  i <- position (fst seg) verts ;;
  j <- position (snd seg) verts ;;
  Ok (map (relator d i j b) (seq 0 d)).

Definition fundamental_group (fuel : nat) (f : poly) (simplified projective : bool)
    : result presentation :=
  g <- shift_coordinates fuel projective (radical f) ;;
  let d := degree_y g in
  let disc := discrim g in
  segs <- segments disc ;;
  let verts := dedup (flat_map (fun s => [fst s; snd s]) segs) in
  let F := (d * length verts)%nat in
  let rels := if projective then [map (fun i => Z.of_nat i + 1)%Z (seq 0 d)] else [] in
  braidscomputed <-
    mapM (fun seg => b <- braid_in_segment fuel g (fst seg) (snd seg) ;; Ok (seg, b))
         segs ;;
  new <- mapM (fun sb => segment_relators d verts (fst sb) (snd sb)) braidscomputed ;;
  let G := {| ngens := F; relators := rels ++ concat new |} in
  if simplified then Ok (simplified_presentation G) else Ok G.

End Pipeline.

(** * The vocabulary of the statements

    The definitions that the properties below are stated with: the
    relations of the specification, the invariants of the loops, and the
    sample inputs on which the statements are exercised. *)

(** ** Comparisons *)

(** [x <= y], as "not [y < x]" *)
Definition le {A : Type} `{Order A} (x y : A) : Prop := ltb y x = false.

(** ** RootContinuationTracker *)

Section TrackerVocabulary.
Context (poly : Type)
  (interval_coefficients : poly -> complex -> complex -> nat -> nat * list Qc)
  (contpath : nat -> list Qc -> Qc -> Qc -> result (list (Qc * Qc * Qc)))
  (contpath_mp : nat -> list Qc -> Qc -> Qc -> nat -> result (list (Qc * Qc * Qc))).

(** The kernel call of [followstrand] at precision [prec]: the [try] block. *)
Definition kernel_call (f : poly) (x0 x1 y0a : complex) (prec : nat)
    : result (list (Qc * Qc * Qc)) :=
  kernel contpath contpath_mp
         (fst (interval_coefficients f x0 x1 prec))
         (snd (interval_coefficients f x0 x1 prec))
         (real y0a) (imag y0a) prec.

End TrackerVocabulary.

(** A kernel that fails below 212 bits of precision and then follows a
    constant root. *)
Definition sample_contpath (deg : nat) (coefs : list Qc) (yr yi : Qc)
    : result (list (Qc * Qc * Qc)) := Raise KernelFailure.

Definition sample_contpath_mp (deg : nat) (coefs : list Qc) (yr yi : Qc) (prec : nat)
    : result (list (Qc * Qc * Qc)) :=
  if (prec <? 212)%nat then Raise ZeroDivisionError
  else Ok [(0, yr, yi); (1, yr, yi)].

(** ** PathNetworkBuilder *)

(** The bounded ridges of a diagram: those with no vertex at infinity. *)
Definition bounded (rv : list Z) : bool := negb (existsb (Z.eqb (-1)) rv).

(** The segment between the two vertices of a ridge. *)
Definition ridge_endpoints (V : voronoi) (rv : list Z) : result (complex * complex) :=
  rv0 <- index rv 0 ;;
  v0 <- index_py (vertices V) rv0 ;;
  rv1 <- index rv 1 ;;
  v1 <- index_py (vertices V) rv1 ;;
  Ok (Cx (fst v0) (snd v0), Cx (fst v1) (snd v1)).

(** The bounded edges of a diagram, in the order of its ridges. *)
Definition bounded_edges (V : voronoi) : result (list (complex * complex)) :=
  mapM (ridge_endpoints V) (filter bounded (ridge_vertices V)).

(** [m] is the largest absolute value of a coordinate of the points. *)
Definition max_abs_coordinate (m : Qc) (points : list complex) : Prop :=
  (forall p, In p points -> Qcabs (real p) <= m /\ Qcabs (imag p) <= m)
  /\ exists p, In p points /\ (m = Qcabs (real p) \/ m = Qcabs (imag p)).

(** The Voronoi diagram of the origin and the four points [(1,0)],
    [(-1,0)], [(0,1)], [(0,-1)]: the cell of the origin is a square, and a
    ray leaves from each of its corners. *)
Definition square_diagram : voronoi :=
  {| vertices := [ (qc 1 2, qc 1 2); (qc (-1) 2, qc 1 2);
                   (qc (-1) 2, qc (-1) 2); (qc 1 2, qc (-1) 2) ];
     ridge_vertices := [ [-1; 0]; [0; 1]; [-1; 1]; [1; 2];
                         [-1; 2]; [2; 3]; [-1; 3]; [3; 0] ]%Z |}.

Definition sample_Voronoi (configuration : list pt) : result voronoi :=
  Ok square_diagram.

(** ** PresentationAssembler *)

(** The vertices of a network: the endpoints of its segments. *)
Definition network_vertex (segs : list (complex * complex)) (v : complex) : Prop :=
  exists s, In s segs /\ (v = fst s \/ v = snd s).

(** A miniature of the pipeline: the curve [y * (y - x) = 0], two lines
    that meet over the branch point [x = 0].  The fibre over [x0] is
    [{0, x0}]; the tracker follows the root [0], which does not move, and the
    root [x0], which moves on a straight line to [x1]. *)
Definition line_roots (f : unit) (x0 : complex) : list complex := [Cx 0 0; x0].

Definition line_coefficients (f : unit) (x0 x1 : complex) (prec : nat)
    : nat * list Qc :=
  (2%nat, [real x0; imag x0; real x1; imag x1]).

Definition line_contpath (deg : nat) (coefs : list Qc) (yr yi : Qc)
    : result (list (Qc * Qc * Qc)) :=
  if Qceqb yr 0 && Qceqb yi 0 then Ok [(0, 0, 0); (1, 0, 0)]
  else Ok [(0, nth 0 coefs 0, nth 1 coefs 0); (1, nth 2 coefs 0, nth 3 coefs 0)].

Definition line_contpath_mp (deg : nat) (coefs : list Qc) (yr yi : Qc) (prec : nat)
    : result (list (Qc * Qc * Qc)) :=
  line_contpath deg coefs yr yi.

(** Artin's action of a braid on a word of the free group:
    [x_i * s_i = x_i x_(i+1) x_i^-1] and [x_(i+1) * s_i = x_i]. *)
Definition generator_image (s a : Z) : list Z :=
  let i := Z.abs s in
  if (0 <? s)%Z then
    if (a =? i)%Z then [i; i + 1; - i]%Z
    else if (a =? i + 1)%Z then [i] else [a]
  else
    if (a =? i)%Z then [i + 1]%Z
    else if (a =? i + 1)%Z then [- (i + 1); i; i + 1]%Z else [a].

Definition letter_image (s a : Z) : list Z :=
  if (0 <? a)%Z then generator_image s a
  else braid_inverse (generator_image s (- a)).

Definition push (a : Z) (w : list Z) : list Z :=
  match w with
  | b :: r => if (a + b =? 0)%Z then r else a :: w
  | [] => [a]
  end.

(** Free reduction of a word *)
Definition reduce (w : list Z) : list Z := fold_right push [] w.

Definition artin_action (d : nat) (x b : list Z) : list Z :=
  fold_left (fun w s => reduce (flat_map (letter_image s) w)) b x.

Definition line_fundamental_group (fuel : nat) (simplified projective : bool)
    : result presentation :=
  fundamental_group unit (fun f => f) (fun _ => 2%nat) (fun _ => 2%nat)
    (fun _ _ => true) (fun f => f) (fun _ => [Cx 0 0]) line_roots sample_Voronoi
    line_coefficients line_contpath line_contpath_mp artin_action (fun G => G)
    fuel tt simplified projective.

Definition line_presentation : presentation :=
  {| ngens := 8;
     relators := [ [8; -1]; [-8; 7; 8; -2]; [1; -3]; [2; -4];
                   [4; -5]; [-4; 3; 4; -6]; [5; -7]; [6; -8] ]%Z |}.

Close Scope Qc_scope.

(** ** Permutations *)

(** [P] is a permutation of [1..d]. *)
Definition is_perm (d : nat) (P : perm) : Prop := Permutation P (seq 1 d).

(** The position [P(x + 1)] of strand [x], strands being numbered from 0. *)
Definition pos (P : perm) (x : nat) : nat := papply P (x + 1).

Definition swap (k j x : nat) : nat :=
  if (x =? k)%nat then j else if (x =? j)%nat then k else x.

Open Scope Qc_scope.

(** ** The crossings of a slice *)

(** The parameter at which the real parts of two strands meet, and the sign
    of the crossing, as [crossing_at] computes them from the points of two
    strands [k < j] in the two slices. *)
Definition crossing_den (l1k l1j l2k l2j : pt) : Qc :=
  fst l2k - fst l1k + fst l1j - fst l2j.

Definition crossing_time (l1k l1j l2k l2j : pt) : Qc :=
  (fst l1j - fst l1k) / crossing_den l1k l1j l2k l2j.

Definition crossing_sign (l1k l1j l2k l2j : pt) (t : Qc) : Z :=
  (- cmp (snd l1k * (1 - t) + t * snd l2k) (snd l1j * (1 - t) + t * snd l2j))%Z.

(** [c] is the record of a crossing of the columns [l1], [l2]. *)
Definition is_crossing (l1 l2 : list pt) (c : crossing) : Prop :=
  (c_k c < c_j c)%nat /\
  exists l1k l1j l2k l2j,
    nth_error l1 (c_k c) = Some l1k /\ nth_error l1 (c_j c) = Some l1j /\
    nth_error l2 (c_k c) = Some l2k /\ nth_error l2 (c_j c) = Some l2j /\
    pt_ltb l2j l2k = true /\
    crossing_den l1k l1j l2k l2j <> 0 /\
    c_t c = crossing_time l1k l1j l2k l2j /\
    c_sign c = crossing_sign l1k l1j l2k l2j (c_t c).

(** ** The geometry of a slice *)

Definition point_at (l : list pt) (x : nat) : pt := nth x l (0, 0).

Definition re_at (l1 l2 : list pt) (x : nat) (t : Qc) : Qc :=
  fst (point_at l1 x) * (1 - t) + t * fst (point_at l2 x).

Definition im_at (l1 l2 : list pt) (x : nat) (t : Qc) : Qc :=
  snd (point_at l1 x) * (1 - t) + t * snd (point_at l2 x).

Definition slice_den (l1 l2 : list pt) (k j : nat) : Qc :=
  crossing_den (point_at l1 k) (point_at l1 j) (point_at l2 k) (point_at l2 j).

(** ** The order of processing, in the words of the specification *)

Definition distance (P : perm) (c : crossing) : Z := Z.abs (pdiff P (c_k c) (c_j c)).

Definition signed_generator (P : perm) (c : crossing) : Z :=
  (c_sign c * Z.of_nat (Nat.min (papply P (c_k c + 1)) (papply P (c_j c + 1))))%Z.

Definition transpose (d : nat) (P : perm) (c : crossing) : perm :=
  pmul (transposition d (c_k c + 1) (c_j c + 1)) P.

Inductive greedy (d : nat) : perm -> list crossing -> list Z -> perm -> Prop :=
| greedy_done (P : perm) : greedy d P [] [] P
| greedy_pick (P : perm) (pending : list crossing) (c : crossing)
    (rest : list crossing) (w : list Z) (P' : perm) :
    Permutation pending (c :: rest) ->
    (forall c', In c' pending -> (distance P c <= distance P c')%Z) ->
    greedy d (transpose d P c) rest w P' ->
    greedy d P pending (signed_generator P c :: w) P'.

Inductive process (d : nat) : perm -> list crossing -> list Z -> Prop :=
| process_done (P : perm) : process d P [] []
| process_group (P : perm) (cruces : list crossing) (t : Qc)
    (group later : list crossing) (w1 : list Z) (P' : perm) (w2 : list Z) :
    group <> [] ->
    Permutation cruces (group ++ later) ->
    (forall c, In c group -> c_t c = t) ->
    (forall c, In c later -> t < c_t c) ->
    greedy d P group w1 P' ->
    process d P' later w2 ->
    process d P cruces (w1 ++ w2).

(** An emitted generator: a sign of a crossing times a position [1..d-1]. *)
Definition emitted (d : nat) (G : list crossing) (g : Z) : Prop :=
  exists c p, In c G /\ (1 <= p < d)%nat /\ g = (c_sign c * Z.of_nat p)%Z.

(** ** The accumulated permutation follows the strands *)

Definition pair_done (done : list crossing) (k j : nat) : Prop :=
  exists c, In c done /\ c_k c = k /\ c_j c = j.

Section SliceInvariants.
Variable M : list (pt * pt).
Variable cruces : list crossing.

Local Abbreviation d := (length M).

Record state_ok (tau : Qc) (P : perm) (done : list crossing) : Prop := {
  ok_perm : is_perm d P;
  ok_done : forall c, In c done -> In c cruces /\ c_t c <= tau;
  ok_rest : forall c, In c cruces -> ~ In c done -> tau <= c_t c;
  ok_inv : forall k j, (k < j)%nat -> (j < d)%nat ->
             ((pos P j < pos P k)%nat <-> pair_done done k j)
}.

(** The crossings of the group being processed that are still pending. *)
Definition pending_ok (tau : Qc) (done G : list crossing) : Prop :=
  (forall c, In c G -> In c cruces /\ c_t c = tau /\ ~ In c done)
  /\ (forall c, In c cruces -> c_t c = tau -> ~ In c done -> In c G).

(** What holds between two groups: [done] are the crossings processed so
    far, [remaining] the ones still in [cruces]. *)
Definition outer_ok (P : perm) (done remaining : list crossing) : Prop :=
  is_perm d P
  /\ (forall c, In c done -> In c cruces)
  /\ (forall c, In c cruces -> In c done \/ In c remaining)
  /\ (forall c, In c remaining -> In c cruces /\ ~ In c done)
  /\ (forall c c', In c done -> In c' remaining -> c_t c < c_t c')
  /\ (forall k j, (k < j)%nat -> (j < d)%nat ->
        ((pos P j < pos P k)%nat <-> pair_done done k j)).

End SliceInvariants.

(** ** One slice *)

(** The sorted pairs [M] of a slice. *)
Definition sorted_pairs (l1 l2 : list pt) : list (pt * pt) := sort (combine l1 l2).

(** [cruces] of a slice, before it is sorted. *)
Definition slice_cruces (l1 l2 : list pt) : result (list crossing) :=
  find_cruces (map fst (sorted_pairs l1 l2)) (map snd (sorted_pairs l1 l2)).

(** ** The table of merged points *)

(** Every strand has [n] points in [totalpoints]. *)
Definition rectangular (totalpoints : list (list pt)) (n : nat) : Prop :=
  Forall (fun r => length r = n) totalpoints.

(** ** All slices *)

(** The crossings of slice [i] are processed as specified and give [w]. *)
Definition slice_processed (d : nat) (tp : list (list pt)) (i : nat) (w : list Z)
    : Prop :=
  exists l1 l2 cruces,
    column tp i = Ok l1 /\ column tp (i + 1) = Ok l2
    /\ slice_cruces l1 l2 = Ok cruces
    /\ process d (perm_id d) cruces w
    /\ Forall (emitted d cruces) w.

(** ** BraidExtractor: signs and generators *)

(** Two strands that run through each other: they meet at [t = 1/2] in the
    point [1/2]. *)
Definition colliding_strands : list strand :=
  [ [ (0, Cx 0 0); (1, Cx 1 0) ]; [ (0, Cx 1 0); (1, Cx 0 0) ] ].

(** No two strands are at the same point at the time of a crossing recorded
    for them.  [k] and [j] are positions in the slice's sorted order. *)
Definition no_coincidence (tp : list (list pt)) : Prop :=
  forall i l1 l2 cruces c,
    column tp i = Ok l1 -> column tp (i + 1) = Ok l2 ->
    slice_cruces l1 l2 = Ok cruces -> In c cruces ->
    let A := map fst (sorted_pairs l1 l2) in
    let B := map snd (sorted_pairs l1 l2) in
    (re_at A B (c_k c) (c_t c), im_at A B (c_k c) (c_t c))
    <> (re_at A B (c_j c) (c_t c), im_at A B (c_j c) (c_t c)).

(** A signed generator of the braid group on [d] strands. *)
Definition braid_generator (d : nat) (g : Z) : Prop :=
  g <> 0%Z /\ (1 <= Z.abs g <= Z.of_nat d - 1)%Z.

(** ** Parallel strands *)

(** The strands keep their relative order from every column of
    [totalpoints] to the next one. *)
Definition parallel (tp : list (list pt)) : Prop :=
  forall i l1 l2, column tp i = Ok l1 -> column tp (i + 1) = Ok l2 ->
  forall a b, (a < length l1)%nat -> (b < length l1)%nat ->
    ocompare (point_at l1 a) (point_at l1 b) = ocompare (point_at l2 a) (point_at l2 b).

(** Two strands that cross once, at different heights. *)
Definition crossing_strands : list strand :=
  [ [ (0, Cx 0 0); (1, Cx 1 0) ]; [ (0, Cx 1 1); (1, Cx 0 1) ] ].

(** Two strands side by side, sampled at different times. *)
Definition parallel_strands : list strand :=
  [ [ (0, Cx 0 0); (qc 1 2, Cx 0 1); (1, Cx 0 0) ];
    [ (0, Cx 1 0); (1, Cx 1 1) ] ].

(** ** The merge onto common times *)

Definition time_at (s : strand) (q : nat) : Qc := fst (nth q s (0, Cx 0 0)).

Definition wf_strand (s : strand) : Prop :=
  (2 <= length s)%nat
  /\ (forall p q, (p < q)%nat -> (q < length s)%nat -> time_at s p < time_at s q)
  /\ time_at s (length s - 1) = 1.

(** [a / r] for a complex [a] and a real [r <> 0] *)
Definition cquot (a : complex) (r : Qc) : complex := Cx (real a / r) (imag a / r).

(** The point [interpola] between two consecutive samples *)
Definition interpolate (s0 s1 : sample) (t : Qc) : pt :=
  pt_of (cadd (snd s0)
              (cquot (cscale (csub (snd s1) (snd s0)) (t - fst s0)) (fst s1 - fst s0))).

(** The position of a strand at time [t]: the sample taken at [t] if there
    is one, the interpolation between the neighbouring samples otherwise. *)
Fixpoint strand_at (s : strand) (t : Qc) : pt :=
  match s with
  | [] => (0, 0)
  | s0 :: r =>
      match r with
      | [] => pt_of (snd s0)
      | s1 :: _ =>
          if Qcltb t (fst s1) then interpolate s0 s1 t
          else if Qceqb t (fst s1) then pt_of (snd s1)
          else strand_at r t
      end
  end.

(** [indices[j] = idx] when the loop is at time [i]: the samples before
    [idx] are in the past, the one at [idx] is not. *)
Definition cursor (s : strand) (idx : nat) (i : Qc) : Prop :=
  (1 <= idx)%nat /\ (idx < length s)%nat
  /\ (forall q, (1 <= q)%nat -> (q < idx)%nat -> time_at s q < i)
  /\ i <= time_at s idx.

(** [indices[j]] after the pass at time [i] *)
Definition step_index (i : Qc) (s : strand) (idx : nat) : nat :=
  if Qcltb i (time_at s idx) then idx else S idx.

(** The times of the samples after the first one of each strand. *)
Definition all_times (L : list strand) : list Qc :=
  flat_map (fun s => map fst (tl s)) L.

(** The first sample time after [t]. *)
Definition next_time (L : list strand) (t : Qc) : result Qc :=
  min_list (filter (fun u => Qcltb t u) (all_times L)).

(** The common times below 1, from [i] on. *)
Fixpoint common_loop (fuel : nat) (L : list strand) (i : Qc) : result (list Qc) :=
  if Qcltb i 1 then
    match fuel with
    | O => OutOfFuel
    | S fuel' =>
        i' <- next_time L i ;;
        r <- common_loop fuel' L i' ;;
        Ok (i :: r)
    end
  else Ok [].

Definition common_times (L : list strand) : result (list Qc) :=
  i <- min_list (all_times L) ;;
  common_loop (merge_fuel L) L i.

Definition first_point (s : strand) : pt := pt_of (snd (hd (0, Cx 0 0) s)).

Definition last_point (s : strand) : pt := pt_of (snd (last s (0, Cx 0 0))).

(** The row of [totalpoints] of a strand, for the common times [T]. *)
Definition merged_row (T : list Qc) (s : strand) : list pt :=
  [first_point s] ++ map (strand_at s) T ++ [last_point s].

(** The sample times from [i] on, still to be visited. *)
Definition pending_times (L : list strand) (i : Qc) : list Qc :=
  filter (fun u => negb (Qcltb u i)) (all_times L).

(** ** Re-sampling a strand *)

(** The sample put at time [c] on the segment between two samples. *)
Definition interpolated_sample (s0 s1 : sample) (c : Qc) : sample :=
  (c, cadd (snd s0)
           (cquot (cscale (csub (snd s1) (snd s0)) (c - fst s0)) (fst s1 - fst s0))).

(** [s] with one more sample, at time [c], between its samples [p - 1] and
    [p]. *)
Definition refine_strand (s : strand) (p : nat) (c : Qc) : strand :=
  firstn p s
  ++ [interpolated_sample (nth (p - 1) s (0, Cx 0 0)) (nth p s (0, Cx 0 0)) c]
  ++ skipn p s.

(** The family [L] with strand [j] re-sampled. *)
Definition refine (L : list strand) (j p : nat) (c : Qc) : list strand :=
  firstn j L ++ [refine_strand (nth j L []) p c] ++ skipn (S j) L.

(** A decision procedure for the shape of a strand. *)
Fixpoint increasingb (ts : list Qc) : bool :=
  match ts with
  | [] => true
  | a :: r =>
      match r with
      | [] => true
      | b :: _ => Qcltb a b && increasingb r
      end
  end.

Definition wf_strandb (s : strand) : bool :=
  (2 <=? length s)%nat && increasingb (map fst s)
  && Qceqb (time_at s (length s - 1)) 1.

(** [resampled L L']: the family [L'] is [L] with samples added, one at a
    time, each of them by linear interpolation between two consecutive
    samples of a strand, at a time at which a strand of [L] has a sample
    after its first one. *)
Inductive resampled (L : list strand) : list strand -> Prop :=
| resampled_none : resampled L L
| resampled_insert (L' : list strand) (j p : nat) (c : Qc) :
    resampled L L' ->
    (j < length L')%nat ->
    (1 <= p)%nat -> (p < length (nth j L' []))%nat ->
    time_at (nth j L' []) (p - 1) < c -> c < time_at (nth j L' []) p ->
    In c (all_times L) ->
    resampled L (refine L' j p c).

(** Four strands with two samples each: the first two cross at time 1/2,
    and so do the last two. *)
Definition two_crossings : list strand :=
  [ [ (qc 0 1, cx 0 1 0 1); (qc 1 1, cx 1 1 0 1) ];
    [ (qc 0 1, cx 1 1 1 1); (qc 1 1, cx 0 1 1 1) ];
    [ (qc 0 1, cx 2 1 1 1); (qc 1 1, cx 3 1 1 1) ];
    [ (qc 0 1, cx 3 1 0 1); (qc 1 1, cx 2 1 0 1) ] ].

(** ** Strands that never meet *)

(** The point at parameter [t] of the segment from [fst p] to [snd p]. *)
Definition along (p : pt * pt) (t : Qc) : pt :=
  (fst (fst p) * (1 - t) + t * fst (snd p),
   snd (fst p) * (1 - t) + t * snd (snd p)).

Definition never_meet (p q : pt * pt) : Prop :=
  forall t, 0 <= t -> t <= 1 -> along p t <> along q t.

Definition separated (tp : list (list pt)) : Prop :=
  forall i l1 l2, column tp i = Ok l1 -> column tp (i + 1) = Ok l2 ->
    ForallOrdPairs never_meet (combine l1 l2).

(** ** SegmentBraidComputer: matching the strands with the exact roots *)

(** Two strands, at the places [a < b] of [yaps], whose approximations have
    the same nearest exact root among [ys]. *)
Definition shares_nearest_root (ys yaps : list complex) : Prop :=
  exists a b pa pb y,
    (a < b)%nat /\ nth_error yaps a = Some pa /\ nth_error yaps b = Some pb
    /\ nearest ys pa = Ok y /\ nearest ys pb = Ok y.

(** The nearest root of an approximation is already in [used]. *)
Definition claims_used_root (ys used yaps : list complex) : Prop :=
  exists a pa y, nth_error yaps a = Some pa /\ nearest ys pa = Ok y /\ In y used.

(** The nearest root, when there is one. *)
Definition nearest_root (ys : list complex) (p : complex) : complex :=
  match nearest ys p with Ok y => y | _ => Cx 0 0 end.

(** ** Families of strands with two samples *)

Definition two_samples (s : strand) : Prop := exists a b, s = [(0, a); (1, b)].

(** ** SegmentBraidComputer: "roots too close" *)

(** The approximations of the roots at the two ends of the strands that the
    tracker returned: [y0aps] and [y1aps]. *)
Definition start_points (strands : list (list (Qc * Qc * Qc))) : list complex :=
  map (fun b => snd (hd (0, Cx 0 0) (complex_strand b))) strands.

Definition end_points (strands : list (list (Qc * Qc * Qc))) : list complex :=
  map (fun b => snd (last (complex_strand b) (0, Cx 0 0))) strands.

(** A tracker that loses its root: whatever root it is asked to follow, it
    reports the strand of the root [0]. *)
Definition stuck_contpath (deg : nat) (coefs : list Qc) (yr yi : Qc)
    : result (list (Qc * Qc * Qc)) :=
  Ok [(0, 0, 0); (1, 0, 0)].

Definition stuck_contpath_mp (deg : nat) (coefs : list Qc) (yr yi : Qc) (prec : nat)
    : result (list (Qc * Qc * Qc)) :=
  stuck_contpath deg coefs yr yi.

(** ** The exceptions of [braid_from_piecewise] *)

(** Two strands of a slice that run one above the other and swap: they have
    the same real part at both ends of the slice, and the order of their
    imaginary parts at the start is reversed at the end.  [p] and [q] are
    the pairs (point at the start, point at the end) of the two strands. *)
Definition vertical_swap (l1 l2 : list pt) : Prop :=
  exists p q, In p (combine l1 l2) /\ In q (combine l1 l2)
    /\ fst (fst p) = fst (fst q) /\ fst (snd p) = fst (snd q)
    /\ snd (fst p) < snd (fst q) /\ snd (snd q) < snd (snd p).

(** Two strands of a slice that swap their places in the order of the
    points and go through the same point at the same time. *)
Definition crossing_collision (l1 l2 : list pt) : Prop :=
  exists p q, In p (combine l1 l2) /\ In q (combine l1 l2)
    /\ le p q /\ pt_ltb (snd q) (snd p) = true
    /\ exists t, 0 <= t /\ t <= 1 /\ along p t = along q t.

(** The pair [k < j] of sorted positions on which the computation of the
    crossing time divides by zero. *)
Definition zero_divisor (l1 l2 : list pt) (k j : nat) : Prop :=
  (k < j)%nat /\ (j < length l2)%nat
  /\ pt_ltb (point_at l2 j) (point_at l2 k) = true
  /\ slice_den l1 l2 k j = 0.

(** Some slice of the table [tp] has the property [R] of its two columns. *)
Definition some_slice (R : list pt -> list pt -> Prop) (tp : list (list pt)) : Prop :=
  exists i l1 l2, column tp i = Ok l1 /\ column tp (i + 1) = Ok l2 /\ R l1 l2.

(** Two strands that swap along the imaginary axis, at real part 0. *)
Definition vertical_strands : list strand :=
  [ [ (0, Cx 0 0); (1, Cx 0 1) ]; [ (0, Cx 0 1); (1, Cx 0 0) ] ].

(** ** Moving the strands in the plane *)

(** The strand [s] moved by the complex number [c]: every sample [(t, y)]
    becomes [(t, y + c)]. *)
Definition translate (c : complex) (s : strand) : strand :=
  map (fun a => (fst a, cadd (snd a) c)) s.

Definition shift_pt (c : complex) (p : pt) : pt := (fst p + real c, snd p + imag c).

Definition shift_pair (c : complex) (m : pt * pt) : pt * pt :=
  (shift_pt c (fst m), shift_pt c (snd m)).

(** [fmap] of the error monad *)
Definition rmap {A B : Type} (h : A -> B) (m : result A) : result B :=
  match m with
  | Ok a => Ok (h a)
  | Raise e => Raise e
  | OutOfFuel => OutOfFuel
  end.

(** ** PresentationAssembler: the coordinate shifts and the relators *)

(** The condition of the loop [while not g.coefficient(y**d) in F or
    (projective and g.total_degree() > d)] *)
Definition needs_shift {poly : Type} (degree_y total_degree : poly -> nat)
    (leading_coefficient_constant : poly -> nat -> bool)
    (projective : bool) (g : poly) : bool :=
  negb (leading_coefficient_constant g (degree_y g))
  || (projective && (degree_y g <? total_degree g)%nat).

(** A word in the generators [x0 .. x(n-1)] and their inverses, as a
    Tietze list: nonzero integers of absolute value at most [n]. *)
Definition tietze_word (n : nat) (w : list Z) : Prop :=
  Forall (fun a => a <> 0%Z /\ (Z.abs a <= Z.of_nat n)%Z) w.

(** An action that leaves every word as it is. *)
Definition trivial_action (d : nat) (x b : list Z) : list Z := x.

(** The network of segments around the branch point of the two lines. *)
Definition square_network : list (complex * complex) :=
  [ (cx 1 2 1 2, cx (-1) 2 1 2); (cx (-1) 2 1 2, cx (-1) 2 (-1) 2);
    (cx (-1) 2 (-1) 2, cx 1 2 (-1) 2); (cx 1 2 (-1) 2, cx 1 2 1 2) ].

(** ** Strands that stop before the time 1 *)

(** A strand with at least two samples, at increasing times. *)
Definition increasing_strand (s : strand) : Prop :=
  (2 <= length s)%nat
  /\ forall p q, (p < q)%nat -> (q < length s)%nat -> time_at s p < time_at s q.

(** The time of the last sample is below 1. *)
Definition stops_early (s : strand) : Prop := time_at s (length s - 1) < 1.

(** The point that the pass at time [i] appends for a strand. *)
Definition appended_point (i : Qc) (s : strand) (idx : nat) : pt :=
  match advance i s idx with Ok (p, _) => p | _ => (0, 0) end.

(** The second strand has no sample after the time 1/2. *)
Definition short_lived_strands : list strand :=
  [ [ (0, Cx 0 0); (1, Cx 0 0) ]; [ (0, Cx 1 0); (qc 1 2, Cx 1 1) ] ].

(** ** The permutation of a braid word *)

(** The letter [g = +-i] exchanges the strands at the positions [i] and
    [i + 1]; [P] gives the position of every strand. *)
Definition letter_perm (g : Z) (P : perm) : perm :=
  map (swap (Z.abs_nat g) (S (Z.abs_nat g))) P.

(** The positions of the strands after the braid word [w]. *)
Definition word_perm (w : list Z) (P : perm) : perm :=
  fold_left (fun Q g => letter_perm g Q) w P.

(** The place of the strand [x] among the points of a column: the number
    of points of the column below its own. *)
Definition rank (col : list pt) (x : nat) : nat :=
  length (filter (fun q => pt_ltb q (point_at col x)) col).

(** The position to which the braid word [w] takes the position [v]. *)
Definition word_apply (w : list Z) (v : nat) : nat :=
  fold_left (fun u g => swap (Z.abs_nat g) (S (Z.abs_nat g)) u) w v.

(** At every common time the strands are at different points. *)
Definition distinct_columns (tp : list (list pt)) : Prop :=
  forall i l, column tp i = Ok l -> NoDup l.

(** The merged table of the example of the docstring: three strands at
    the common times 0, 1/5, 1/2, 4/5 and 1. *)
Definition docstring_table : list (list pt) := Eval vm_compute in
  match merge docstring_paths with Ok tp => tp | _ => [] end.

(** * Properties *)

(** ** The error monad *)
Lemma bind_Ok {A B : Type} (m : result A) (f : A -> result B) (b : B) :
  bind m f = Ok b -> exists a, m = Ok a /\ f a = Ok b.
Proof.
  destruct m as [a| |]; simpl; intros H; try discriminate.
  exists a; split; [reflexivity | exact H].
Qed.

Ltac inv_bind H :=
  let a := fresh "v" in
  let H1 := fresh "E" in
  apply bind_Ok in H; destruct H as [a [H1 H]].

Ltac inv_ok :=
  repeat match goal with
  | H : Ok _ = Ok _ |- _ => injection H as H; try subst
  | H : Raise _ = Ok _ |- _ => discriminate H
  | H : OutOfFuel = Ok _ |- _ => discriminate H
  end.

Lemma index_Ok {A : Type} (xs : list A) (i : nat) (x : A) :
  index xs i = Ok x <-> nth_error xs i = Some x.
Proof.
  unfold index; destruct (nth_error xs i); split; intros H;
    try discriminate; injection H as ->; reflexivity.
Qed.

Lemma index_lt {A : Type} (xs : list A) (i : nat) :
  (i < length xs)%nat -> exists x, index xs i = Ok x.
Proof.
  intros H. unfold index. destruct (nth_error xs i) eqn:E; eauto.
  apply nth_error_None in E. lia.
Qed.

Lemma index_nth {A : Type} (xs : list A) (i : nat) (dflt : A) :
  (i < length xs)%nat -> index xs i = Ok (nth i xs dflt).
Proof.
  intros H. apply index_Ok. apply nth_error_nth'. exact H.
Qed.

Lemma index_last_Ok {A : Type} (xs : list A) (dflt : A) :
  xs <> [] -> index_last xs = Ok (last xs dflt).
Proof.
  intros Hne. destruct xs as [|x r]; [congruence|].
  unfold index_last. rewrite (index_nth _ _ dflt) by (cbn [length]; lia).
  f_equal. cbn [length]. replace (S (length r) - 1)%nat with (length r) by lia.
  clear Hne. revert x. induction r as [|y r IH]; intros x; [reflexivity|].
  change (nth (length r) (y :: r) dflt = last (y :: r) dflt). apply IH.
Qed.

Lemma mapM_Ok {A B : Type} (f : A -> result B) (xs : list A) (ys : list B) :
  mapM f xs = Ok ys -> Forall2 (fun x y => f x = Ok y) xs ys.
Proof.
  revert ys; induction xs as [|x r IH]; simpl; intros ys H.
  - inv_ok. constructor.
  - inv_bind H. inv_bind H. inv_ok. constructor; auto.
Qed.

Lemma mapM_total {A B : Type} (f : A -> result B) (xs : list A) :
  Forall (fun x => exists y, f x = Ok y) xs -> exists ys, mapM f xs = Ok ys.
Proof.
  induction 1 as [|x r [y Hy] _ [ys IH]]; simpl; eauto.
  rewrite Hy, IH; simpl; eauto.
Qed.

Lemma mapM_map {A B : Type} (f : A -> result B) (g : A -> B) (xs : list A) :
  Forall (fun x => f x = Ok (g x)) xs -> mapM f xs = Ok (map g xs).
Proof.
  induction 1 as [|x r Hx _ IH]; simpl; auto.
  rewrite Hx, IH; reflexivity.
Qed.

Lemma Forall2_In_l {A B : Type} {R : A -> B -> Prop} {xs : list A} {ys : list B}
    {x : A} :
  Forall2 R xs ys -> In x xs -> exists y, In y ys /\ R x y.
Proof.
  induction 1 as [|a b xs ys Hab _ IH]; simpl; [intros []|].
  intros [<-|Hx]; [exists b; auto|].
  destruct (IH Hx) as [y [Hy Hr]]. exists y; auto.
Qed.

Lemma mapM_length {A B : Type} (f : A -> result B) (xs : list A) (ys : list B) :
  mapM f xs = Ok ys -> length ys = length xs.
Proof.
  intros H. apply mapM_Ok in H. symmetry. eapply Forall2_length; eauto.
Qed.

(** ** Laws of the comparisons *)
Class OrderLaws (A : Type) `{Order A} : Prop := {
  ocompare_eq : forall x y : A, ocompare x y = Eq <-> x = y;
  ocompare_antisym : forall x y : A, ocompare y x = CompOpp (ocompare x y);
  ocompare_trans : forall x y z : A,
      ocompare x y = Lt -> ocompare y z = Lt -> ocompare x z = Lt
}.

#[export] Instance OrderLaws_Qc : OrderLaws Qc.
Proof.
  split; unfold ocompare, Order_Qc.
  - intros x y. symmetry. apply Qceq_alt.
  - intros x y. unfold Qccompare. symmetry. apply Qcompare_antisym.
  - intros x y z. rewrite <- !Qclt_alt. apply Qclt_trans.
Qed.

#[export] Instance OrderLaws_nat : OrderLaws nat.
Proof.
  split; unfold ocompare, Order_nat.
  - apply Nat.compare_eq_iff.
  - intros x y. apply Nat.compare_antisym.
  - intros x y z. rewrite !Nat.compare_lt_iff. lia.
Qed.

#[export] Instance OrderLaws_Z : OrderLaws Z.
Proof.
  split; unfold ocompare, Order_Z.
  - apply Z.compare_eq_iff.
  - intros x y. apply Z.compare_antisym.
  - intros x y z. rewrite !Z.compare_lt_iff. lia.
Qed.

#[export] Instance OrderLaws_prod {A B : Type} `{OrderLaws A} `{OrderLaws B} :
  OrderLaws (A * B).
Proof.
  split; unfold ocompare, Order_prod.
  - intros [a b] [c d]; simpl. destruct (ocompare a c) eqn:E.
    + apply ocompare_eq in E. subst. rewrite ocompare_eq.
      split; congruence.
    + split; [discriminate|]. intros C. injection C as -> ->.
      assert (X : ocompare c c = Eq) by (apply ocompare_eq; reflexivity).
      congruence.
    + split; [discriminate|]. intros C. injection C as -> ->.
      assert (X : ocompare c c = Eq) by (apply ocompare_eq; reflexivity).
      congruence.
  - intros [a b] [c d]; simpl.
    rewrite (ocompare_antisym a c), (ocompare_antisym b d).
    destruct (ocompare a c); reflexivity.
  - intros [a b] [c d] [e f]; simpl.
    destruct (ocompare a c) eqn:E1; try discriminate;
      destruct (ocompare c e) eqn:E2; try discriminate; intros Hbd Hdf.
    + apply ocompare_eq in E1, E2. subst.
      assert (X : ocompare e e = Eq) by (apply ocompare_eq; reflexivity).
      rewrite X. eapply ocompare_trans; eauto.
    + apply ocompare_eq in E1. subst. rewrite E2. reflexivity.
    + apply ocompare_eq in E2. subst. rewrite E1. reflexivity.
    + rewrite (ocompare_trans _ _ _ E1 E2). reflexivity.
Qed.

#[export] Instance OrderLaws_complex : OrderLaws complex.
Proof.
  split; unfold ocompare, Order_complex.
  - intros [a b] [c d]. rewrite ocompare_eq. unfold pt_of; simpl.
    split; congruence.
  - intros x y. apply ocompare_antisym.
  - intros x y z. apply ocompare_trans.
Qed.

Section OrderFacts.

Context {A : Type} `{OrderLaws A}.

Lemma ocompare_refl (x : A) : ocompare x x = Eq.
Proof. apply ocompare_eq; reflexivity. Qed.

Lemma ltb_irrefl (x : A) : ltb x x = false.
Proof. unfold ltb. rewrite ocompare_refl. reflexivity. Qed.

Lemma ltb_asym (x y : A) : ltb x y = true -> ltb y x = false.
Proof.
  unfold ltb. rewrite (ocompare_antisym x y).
  destruct (ocompare x y); simpl; congruence.
Qed.

Lemma ltb_trans (x y z : A) : ltb x y = true -> ltb y z = true -> ltb x z = true.
Proof.
  unfold ltb. destruct (ocompare x y) eqn:E1; try discriminate.
  destruct (ocompare y z) eqn:E2; try discriminate.
  rewrite (ocompare_trans _ _ _ E1 E2). reflexivity.
Qed.

Lemma ltb_total (x y : A) : ltb x y = false -> ltb y x = false -> x = y.
Proof.
  unfold ltb. rewrite (ocompare_antisym x y).
  destruct (ocompare x y) eqn:E; simpl; try discriminate.
  intros _ _. apply ocompare_eq. exact E.
Qed.

Lemma eqb_eq (x y : A) : eqb x y = true <-> x = y.
Proof.
  unfold eqb. rewrite <- ocompare_eq. destruct (ocompare x y); split; congruence.
Qed.

Lemma eqb_refl (x : A) : eqb x x = true.
Proof. apply eqb_eq; reflexivity. Qed.

Lemma le_refl (x : A) : le x x.
Proof. apply ltb_irrefl. Qed.

Lemma le_trans (x y z : A) : le x y -> le y z -> le x z.
Proof.
  unfold le. intros H1 H2.
  destruct (ltb z x) eqn:E; auto.
  destruct (ltb x y) eqn:E3.
  - rewrite (ltb_trans _ _ _ E E3) in H2. discriminate.
  - rewrite (ltb_total _ _ E3 H1) in E. congruence.
Qed.

Lemma le_antisym (x y : A) : le x y -> le y x -> x = y.
Proof. unfold le. intros H1 H2. apply ltb_total; assumption. Qed.

Lemma lt_le (x y : A) : ltb x y = true -> le x y.
Proof. apply ltb_asym. Qed.

Lemma le_lt_trans (x y z : A) : le x y -> ltb y z = true -> ltb x z = true.
Proof.
  unfold le. intros H1 H2. destruct (ltb x y) eqn:E.
  - eapply ltb_trans; eauto.
  - rewrite (ltb_total _ _ E H1). exact H2.
Qed.

Lemma lt_le_trans (x y z : A) : ltb x y = true -> le y z -> ltb x z = true.
Proof.
  unfold le. intros H1 H2. destruct (ltb y z) eqn:E.
  - eapply ltb_trans; eauto.
  - rewrite <- (ltb_total _ _ E H2). exact H1.
Qed.

(** *** Insertion sort *)
Lemma insert_perm (x : A) (l : list A) : Permutation (insert x l) (x :: l).
Proof.
  induction l as [|y r IH]; simpl; auto.
  destruct (ltb y x); auto.
  rewrite IH. apply perm_swap.
Qed.

Lemma sort_perm (l : list A) : Permutation (sort l) l.
Proof.
  induction l as [|x r IH]; simpl; auto.
  rewrite insert_perm. auto.
Qed.

Lemma sort_length (l : list A) : length (sort l) = length l.
Proof. apply Permutation_length, sort_perm. Qed.

Lemma insert_sorted (x : A) (l : list A) :
  StronglySorted le l -> StronglySorted le (insert x l).
Proof.
  induction 1 as [|y r Hr IH Hy]; simpl.
  - repeat constructor.
  - destruct (ltb y x) eqn:E.
    + constructor; auto.
      rewrite Forall_forall. intros z Hz.
      apply (Permutation_in _ (insert_perm x r)) in Hz.
      destruct Hz as [<-|Hz]; [apply lt_le; exact E|].
      rewrite Forall_forall in Hy. auto.
    + constructor; [constructor; auto|].
      constructor; [exact E|].
      rewrite Forall_forall in *. intros z Hz.
      eapply le_trans; [exact E | auto].
Qed.

Lemma sort_sorted (l : list A) : StronglySorted le (sort l).
Proof.
  induction l as [|x r IH]; simpl; [constructor | apply insert_sorted; exact IH].
Qed.

Lemma sorted_unique (l l' : list A) :
  StronglySorted le l -> StronglySorted le l' -> Permutation l l' -> l = l'.
Proof.
  intros Hl; revert l'. induction Hl as [|x r Hr IH Hx]; intros l' Hl' HP.
  - apply Permutation_nil in HP. congruence.
  - destruct Hl' as [|y r' Hr' Hy].
    + symmetry in HP. apply Permutation_nil in HP. discriminate.
    + assert (x = y).
      { apply le_antisym.
        - assert (I : In y (x :: r)) by (eapply Permutation_in; [symmetry; exact HP | left; reflexivity]).
          destruct I as [->|I]; [apply le_refl|].
          rewrite Forall_forall in Hx. auto.
        - assert (I : In x (y :: r')) by (eapply Permutation_in; [exact HP | left; reflexivity]).
          destruct I as [->|I]; [apply le_refl|].
          rewrite Forall_forall in Hy. auto. }
      subst y. f_equal. apply IH; auto.
      eapply Permutation_cons_inv; eauto.
Qed.

Lemma sort_sorted_id (l : list A) : StronglySorted le l -> sort l = l.
Proof.
  intros Hl. apply sorted_unique; auto using sort_sorted, sort_perm.
Qed.

End OrderFacts.

(** ** Numbers *)
Lemma Qceqb_eq (x y : Qc) : Qceqb x y = true <-> x = y.
Proof. apply eqb_eq. Qed.

Lemma Qceqb_refl (x : Qc) : Qceqb x x = true.
Proof. apply eqb_refl. Qed.

Lemma Qceqb_neq (x y : Qc) : Qceqb x y = false <-> x <> y.
Proof.
  split; intros H.
  - intros C. apply Qceqb_eq in C. congruence.
  - destruct (Qceqb x y) eqn:E; auto. apply Qceqb_eq in E. contradiction.
Qed.

Lemma Qcltb_lt (x y : Qc) : Qcltb x y = true <-> x < y.
Proof.
  unfold Qcltb, ltb, ocompare, Order_Qc. rewrite Qclt_alt.
  destruct (x ?= y); split; congruence.
Qed.

Lemma Qcltb_ge (x y : Qc) : Qcltb x y = false <-> y <= x.
Proof.
  split; intros H.
  - apply Qcnot_lt_le. intros C. apply Qcltb_lt in C. congruence.
  - destruct (Qcltb x y) eqn:E; auto. apply Qcltb_lt in E.
    exfalso. exact (Qcle_not_lt _ _ H E).
Qed.

(** Arithmetic on [Qc] is arithmetic on the underlying fractions; [qc2q]
    turns a goal on [Qc] into one on [Q], where [lra] and [nra] work. *)
Lemma this_plus (x y : Qc) : (this (x + y) == this x + this y)%Q.
Proof. unfold Qcplus, Q2Qc; cbn [this]. apply Qred_correct. Qed.

Lemma this_mult (x y : Qc) : (this (x * y) == this x * this y)%Q.
Proof. unfold Qcmult, Q2Qc; cbn [this]. apply Qred_correct. Qed.

Lemma this_opp (x : Qc) : (this (- x) == - this x)%Q.
Proof. unfold Qcopp, Q2Qc; cbn [this]. apply Qred_correct. Qed.

Lemma this_minus (x y : Qc) : (this (x - y) == this x - this y)%Q.
Proof. unfold Qcminus. rewrite this_plus, this_opp. reflexivity. Qed.

Lemma this_inv (x : Qc) : (this (/ x) == / this x)%Q.
Proof. unfold Qcinv, Q2Qc; cbn [this]. apply Qred_correct. Qed.

Lemma this_div (x y : Qc) : (this (x / y) == this x / this y)%Q.
Proof. unfold Qcdiv. rewrite this_mult, this_inv. reflexivity. Qed.

Lemma Qc_eq_this (x y : Qc) : x = y <-> (this x == this y)%Q.
Proof. split; [intros ->; reflexivity | apply Qc_is_canon]. Qed.

Lemma Qc_neq_this (x y : Qc) : x <> y <-> ~ (this x == this y)%Q.
Proof. rewrite Qc_eq_this. tauto. Qed.

Ltac qc2q :=
  repeat match goal with
  | H : @eq Qc _ _ |- _ => apply Qc_eq_this in H
  | H : ~ @eq Qc _ _ |- _ => apply Qc_neq_this in H
  | |- @eq Qc _ _ => apply Qc_eq_this
  | |- ~ @eq Qc _ _ => apply Qc_neq_this
  end;
  unfold Qcle, Qclt in *;
  repeat (first [ rewrite this_plus in * | rewrite this_mult in *
                | rewrite this_minus in * | rewrite this_opp in *
                | rewrite this_div in * | rewrite this_inv in * ]);
  change (this 0) with 0%Q in *; change (this 1) with 1%Q in *.

(** A result that evaluates to a given rational. *)
Lemma Ok_Qc_eq (r : result Qc) (x : Qc) :
  match r with Ok y => Qceqb y x | _ => false end = true -> r = Ok x.
Proof.
  destruct r as [y| |]; try discriminate.
  intros H. apply Qceqb_eq in H. congruence.
Qed.

(** ** RootContinuationTracker *)
Section FollowstrandFacts.

Context (poly : Type)
  (interval_coefficients : poly -> complex -> complex -> nat -> nat * list Qc)
  (contpath : nat -> list Qc -> Qc -> Qc -> result (list (Qc * Qc * Qc)))
  (contpath_mp : nat -> list Qc -> Qc -> Qc -> nat -> result (list (Qc * Qc * Qc))).

Local Abbreviation the_followstrand :=
  (followstrand poly interval_coefficients contpath contpath_mp).

Local Abbreviation the_kernel_call :=
  (kernel_call poly interval_coefficients contpath contpath_mp).

Lemma followstrand_step (fuel : nat) (f : poly) (x0 x1 y0a : complex) (prec : nat) :
  the_followstrand (S fuel) f x0 x1 y0a prec =
  match the_kernel_call f x0 x1 y0a prec with
  | Ok points => Ok points
  | Raise _ => the_followstrand fuel f x0 x1 y0a (2 * prec)
  | OutOfFuel => OutOfFuel
  end.
Proof.
  unfold kernel_call. simpl.
  destruct (interval_coefficients f x0 x1 prec) as [deg coefs]. reflexivity.
Qed.

Lemma followstrand_never_raises (fuel : nat) (f : poly) (x0 x1 y0a : complex)
    (prec : nat) (e : exn) :
  the_followstrand fuel f x0 x1 y0a prec <> Raise e.
Proof.
  revert prec. induction fuel as [|fuel IH]; intros prec.
  - simpl. discriminate.
  - rewrite followstrand_step.
    destruct (the_kernel_call f x0 x1 y0a prec); try discriminate. apply IH.
Qed.

Lemma followstrand_retries (n : nat) :
  forall (fuel : nat) (f : poly) (x0 x1 y0a : complex) (prec : nat),
  (forall i, (i < n)%nat -> exists e, the_kernel_call f x0 x1 y0a (2 ^ i * prec) = Raise e) ->
  the_followstrand (n + fuel) f x0 x1 y0a prec =
  the_followstrand fuel f x0 x1 y0a (2 ^ n * prec).
Proof.
  induction n as [|n IH]; intros fuel f x0 x1 y0a prec Hfail.
  - simpl. f_equal. lia.
  - replace (S n + fuel)%nat with (S (n + fuel)) by lia.
    rewrite followstrand_step.
    destruct (Hfail O ltac:(lia)) as [e He].
    replace (2 ^ 0 * prec)%nat with prec in He by (simpl; lia).
    rewrite He. rewrite IH.
    + f_equal. rewrite Nat.pow_succ_r'. lia.
    + intros i Hi. destruct (Hfail (S i) ltac:(lia)) as [e' He'].
      exists e'. rewrite <- He'. f_equal. rewrite Nat.pow_succ_r'. lia.
Qed.

(** C4.  If the kernel fails at the precisions [prec], [2 prec], ...,
    [2^(n-1) prec] -- whatever the exceptions are, and however large [n] is --
    then [followstrand] has restarted [n] times and runs as if called afresh
    with precision [2^n prec]: it returns the kernel's points if the kernel
    succeeds there.  No call of [followstrand] ends in an exception. *)
Theorem followstrand_doubles_precision_on_failure
    (n fuel : nat) (f : poly) (x0 x1 y0a : complex) (prec : nat)
    (Hfail : forall i, (i < n)%nat ->
               exists e, the_kernel_call f x0 x1 y0a (2 ^ i * prec) = Raise e) :
  the_followstrand (n + fuel) f x0 x1 y0a prec
    = the_followstrand fuel f x0 x1 y0a (2 ^ n * prec)
  /\ (forall points, the_kernel_call f x0 x1 y0a (2 ^ n * prec) = Ok points ->
        the_followstrand (n + S fuel) f x0 x1 y0a prec = Ok points)
  /\ (forall fuel' prec' e, the_followstrand fuel' f x0 x1 y0a prec' <> Raise e).
Proof.
  split; [|split].
  - apply followstrand_retries. exact Hfail.
  - intros points Hok. rewrite followstrand_retries by exact Hfail.
    rewrite followstrand_step, Hok. reflexivity.
  - intros. apply followstrand_never_raises.
Qed.

End FollowstrandFacts.

Lemma followstrand_doubles_precision_on_failure_witness :
  followstrand unit (fun _ _ _ _ => (1%nat, [])) sample_contpath sample_contpath_mp
               (2 + 1) tt (Cx 0 0) (Cx 1 0) (Cx 1 1) 53
  = Ok [(0, 1, 1); (1, 1, 1)].
Proof.
  refine (proj1 (proj2 (followstrand_doubles_precision_on_failure
            unit (fun _ _ _ _ => (1%nat, [])) sample_contpath sample_contpath_mp
            2 0 tt (Cx 0 0) (Cx 1 0) (Cx 1 1) 53 _)) _ _).
  - intros i Hi.
    destruct i as [|[|i]]; [exists KernelFailure | exists ZeroDivisionError | lia];
      reflexivity.
  - reflexivity.
Defined.

(** ** PathNetworkBuilder *)

Lemma Qcmax_l (x y : Qc) : x <= Qcmax x y.
Proof.
  unfold Qcmax, Qcltb, ltb, ocompare, Order_Qc.
  destruct (x ?= y) eqn:E; try apply Qcle_refl.
  apply Qclt_le_weak, Qclt_alt, E.
Qed.

Lemma Qcmax_r (x y : Qc) : y <= Qcmax x y.
Proof.
  unfold Qcmax, Qcltb, ltb, ocompare, Order_Qc.
  destruct (x ?= y) eqn:E; try apply Qcle_refl.
  - apply Qceq_alt in E. subst. apply Qcle_refl.
  - apply Qclt_le_weak. apply Qcgt_alt in E. exact E.
Qed.

Lemma Qcmax_cases (x y : Qc) : Qcmax x y = x \/ Qcmax x y = y.
Proof. unfold Qcmax. destruct (Qcltb x y); auto. Qed.

Lemma fold_Qcmax_ge (xs : list Qc) (x : Qc) :
  x <= fold_left Qcmax xs x /\ forall y, In y xs -> y <= fold_left Qcmax xs x.
Proof.
  revert x. induction xs as [|z r IH]; intros x; simpl.
  - split; [apply Qcle_refl | intros y []].
  - destruct (IH (Qcmax x z)) as [H1 H2]. split.
    + eapply Qcle_trans; [apply Qcmax_l | exact H1].
    + intros y [<-|Hy]; [|auto].
      eapply Qcle_trans; [apply Qcmax_r | exact H1].
Qed.

Lemma fold_Qcmax_in (xs : list Qc) (x : Qc) :
  fold_left Qcmax xs x = x \/ In (fold_left Qcmax xs x) xs.
Proof.
  revert x. induction xs as [|z r IH]; intros x; simpl; auto.
  destruct (IH (Qcmax x z)) as [H|H]; [|auto].
  rewrite H. destruct (Qcmax_cases x z) as [->| ->]; auto.
Qed.

Lemma max_list_spec (xs : list Qc) (m : Qc) :
  max_list xs = Ok m -> In m xs /\ forall y, In y xs -> y <= m.
Proof.
  destruct xs as [|x r]; simpl; intros H; inv_ok.
  destruct (fold_Qcmax_ge r x) as [H1 H2]. split.
  - destruct (fold_Qcmax_in r x) as [->|H3]; auto.
  - intros y [<-|Hy]; auto.
Qed.

Lemma added_points_spec (points : list complex) (a : Qc) :
  added_points (map pt_of points) = Ok a ->
  exists m, max_abs_coordinate m points /\ a = Q2Qc 3 * m + 1.
Proof.
  unfold added_points. intros H. inv_bind H. inv_ok.
  exists v. split; [|reflexivity].
  apply max_list_spec in E. destruct E as [Hin Hmax]. split.
  - intros p Hp. split; apply Hmax; apply in_flat_map; exists (pt_of p);
      (split; [apply in_map; exact Hp | simpl; auto]).
  - apply in_flat_map in Hin. destruct Hin as [q [Hq Hv]].
    apply in_map_iff in Hq. destruct Hq as [p [<- Hp]].
    exists p. split; [exact Hp|]. simpl in Hv. intuition.
Qed.

Lemma added_points_nonempty (points : list complex) :
  points <> [] -> exists a, added_points (map pt_of points) = Ok a.
Proof.
  destruct points as [|p r]; [congruence|]. intros _.
  unfold added_points. simpl. eauto.
Qed.

Lemma ridges_bounded_edges (V : voronoi) (rvs : list (list Z)) :
  (r <- mapM (ridge_segment V) rvs ;; Ok (concat r))
  = mapM (ridge_endpoints V) (filter bounded rvs).
Proof.
  induction rvs as [|rv rvs IH]; simpl; [reflexivity|].
  unfold ridge_segment at 1, bounded at 1.
  destruct (existsb (Z.eqb (-1)) rv); simpl.
  - rewrite <- IH. destruct (mapM (ridge_segment V) rvs); reflexivity.
  - unfold ridge_endpoints at 1.
    destruct (index rv 0) as [rv0| |]; simpl; try reflexivity.
    destruct (index_py (vertices V) rv0) as [v0| |]; simpl; try reflexivity.
    destruct (index rv 1) as [rv1| |]; simpl; try reflexivity.
    destruct (index_py (vertices V) rv1) as [v1| |]; simpl; try reflexivity.
    rewrite <- IH. destruct (mapM (ridge_segment V) rvs); reflexivity.
Qed.

Section SegmentsFacts.

Context (Voronoi : list pt -> result voronoi).

Lemma segments_unfold (points : list complex) :
  segments Voronoi points =
  (a <- added_points (map pt_of points) ;;
   V <- Voronoi (configuration (map pt_of points) a) ;;
   bounded_edges V).
Proof.
  unfold segments, bounded_edges.
  destruct (added_points (map pt_of points)) as [a| |]; simpl; try reflexivity.
  destruct (Voronoi _) as [V| |]; simpl; try reflexivity.
  apply ridges_bounded_edges.
Qed.

(** C6, as amended.  For a non-empty list of branch points, [segments]
    returns the bounded edges of the Voronoi diagram of the branch points
    padded with the four points [(a,0)], [(-a,0)], [(0,a)], [(0,-a)], where
    [a = 3 m + 1] and [m] is the largest absolute value of a real or
    imaginary part of a branch point; the ridges with a vertex at infinity
    are left out. *)
Theorem segments_bounded_voronoi_edges (points : list complex) :
  points <> [] ->
  exists m a,
    max_abs_coordinate m points
    /\ a = Q2Qc 3 * m + 1
    /\ (forall q, In q [(a, 0); (- a, 0); (0, a); (0, - a)] ->
          fst q * fst q + snd q * snd q = a * a)
    /\ segments Voronoi points =
       (V <- Voronoi (map pt_of points ++ [(a, 0); (- a, 0); (0, a); (0, - a)]) ;;
        bounded_edges V).
Proof.
  intros Hne. destruct (added_points_nonempty points Hne) as [a Ha].
  destruct (added_points_spec points a Ha) as [m [Hm Hform]].
  exists m, a. split; [exact Hm|]. split; [exact Hform|]. split.
  - intros q Hq. simpl in Hq.
    destruct Hq as [<-|[<-|[<-|[<-|[]]]]]; simpl; ring.
  - rewrite segments_unfold, Ha. reflexivity.
Qed.

(** C9, as amended.  On the empty list [segments] raises [ValueError] (the
    maximum of an empty array); on a single branch point it returns, as on
    any other list, the bounded Voronoi edges of the point and the four
    auxiliary points. *)
Theorem segments_degenerate :
  segments Voronoi [] = Raise ValueError
  /\ forall p : complex,
       let a := Q2Qc 3 * Qcmax (Qcabs (real p)) (Qcabs (imag p)) + 1 in
       segments Voronoi [p] =
       (V <- Voronoi [pt_of p; (a, 0); (- a, 0); (0, a); (0, - a)] ;;
        bounded_edges V).
Proof.
  split; [reflexivity|].
  intros p a. rewrite segments_unfold. reflexivity.
Qed.

End SegmentsFacts.

Lemma segments_bounded_voronoi_edges_witness :
  exists m a,
    max_abs_coordinate m [Cx 0 0]
    /\ a = Q2Qc 3 * m + 1
    /\ (forall q, In q [(a, 0); (- a, 0); (0, a); (0, - a)] ->
          fst q * fst q + snd q * snd q = a * a)
    /\ segments sample_Voronoi [Cx 0 0] =
       (V <- sample_Voronoi (map pt_of [Cx 0 0] ++ [(a, 0); (- a, 0); (0, a); (0, - a)]) ;;
        bounded_edges V).
Proof.
  apply (segments_bounded_voronoi_edges sample_Voronoi [Cx 0 0]).
  discriminate.
Defined.

(** C6 fails as stated: for the single branch point [10 + 10 i] the four
    auxiliary points lie at distance 31 from the origin, which is less than
    three times the modulus of the branch point ([31^2 < 9 * 200]). *)
Lemma segments_auxiliary_points_within_3_moduli :
  added_points (map pt_of [cx 10 1 10 1]) = Ok (qc 31 1)
  /\ qc 31 1 * qc 31 1 < Q2Qc 9 * norm (cx 10 1 10 1).
Proof.
  split.
  - apply Ok_Qc_eq. vm_compute. reflexivity.
  - vm_compute. reflexivity.
Qed.

(** C9 fails as stated: on the empty set of branch points [segments] does
    not return a network, it raises. *)
Lemma segments_empty_raises :
  segments sample_Voronoi [] = Raise ValueError.
Proof. reflexivity. Qed.

(** ** PresentationAssembler *)
Section DedupFacts.

Context {A : Type} `{OrderLaws A}.

Lemma mem_In (x : A) (xs : list A) : mem x xs = true <-> In x xs.
Proof.
  unfold mem. rewrite existsb_exists. split.
  - intros [y [Hy E]]. apply eqb_eq in E. subst. exact Hy.
  - intros Hx. exists x. split; [exact Hx | apply eqb_refl].
Qed.

Lemma dedup_In (x : A) (xs : list A) : In x (dedup xs) <-> In x xs.
Proof.
  induction xs as [|y r IH]; simpl; [tauto|].
  destruct (mem y r) eqn:E.
  - apply mem_In in E. rewrite IH. split; [auto|].
    intros [<-|Hx]; auto.
  - simpl. rewrite IH. tauto.
Qed.

Lemma dedup_NoDup (xs : list A) : NoDup (dedup xs).
Proof.
  induction xs as [|y r IH]; simpl; [constructor|].
  destruct (mem y r) eqn:E; [exact IH|].
  constructor; [|exact IH].
  rewrite dedup_In. intros C. apply mem_In in C. congruence.
Qed.

End DedupFacts.

Section FundamentalGroupFacts.

Context (poly : Type)
  (radical : poly -> poly)
  (degree_y total_degree : poly -> nat)
  (leading_coefficient_constant : poly -> nat -> bool)
  (shear : poly -> poly)
  (discrim : poly -> list complex)
  (roots : poly -> complex -> list complex)
  (Voronoi : list pt -> result voronoi)
  (interval_coefficients : poly -> complex -> complex -> nat -> nat * list Qc)
  (contpath : nat -> list Qc -> Qc -> Qc -> result (list (Qc * Qc * Qc)))
  (contpath_mp : nat -> list Qc -> Qc -> Qc -> nat -> result (list (Qc * Qc * Qc)))
  (braid_action : nat -> list Z -> list Z -> list Z)
  (simplified_presentation : presentation -> presentation).

Local Abbreviation the_fundamental_group :=
  (fundamental_group poly radical degree_y total_degree
     leading_coefficient_constant shear discrim roots Voronoi
     interval_coefficients contpath contpath_mp braid_action
     simplified_presentation).

Local Abbreviation the_shift_coordinates :=
  (shift_coordinates poly degree_y total_degree leading_coefficient_constant shear).


End FundamentalGroupFacts.


(** ** Permutations *)
Close Scope Qc_scope.

Lemma is_perm_length (d : nat) (P : perm) : is_perm d P -> length P = d.
Proof.
  intros H. apply Permutation_length in H. rewrite length_seq in H. exact H.
Qed.

Lemma perm_id_is_perm (d : nat) : is_perm d (perm_id d).
Proof. apply Permutation_refl. Qed.

Lemma pos_perm_id (d x : nat) : (x < d)%nat -> pos (perm_id d) x = S x.
Proof.
  intros H. unfold pos, papply, perm_id.
  replace (x + 1 - 1)%nat with x by lia. rewrite seq_nth by exact H. lia.
Qed.

Lemma pos_In (d : nat) (P : perm) (x : nat) :
  is_perm d P -> (x < d)%nat -> In (pos P x) P.
Proof.
  intros HP Hx. unfold pos, papply. apply nth_In.
  rewrite (is_perm_length d P HP). lia.
Qed.

Lemma pos_range (d : nat) (P : perm) (x : nat) :
  is_perm d P -> (x < d)%nat -> (1 <= pos P x <= d)%nat.
Proof.
  intros HP Hx. pose proof (pos_In d P x HP Hx) as I.
  apply (Permutation_in _ HP) in I. apply in_seq in I. lia.
Qed.

Lemma pos_inj (d : nat) (P : perm) (x y : nat) :
  is_perm d P -> (x < d)%nat -> (y < d)%nat -> pos P x = pos P y -> x = y.
Proof.
  intros HP Hx Hy E. unfold pos, papply in E.
  assert (ND : NoDup P).
  { eapply Permutation_NoDup; [symmetry; exact HP | apply seq_NoDup]. }
  pose proof (is_perm_length d P HP) as L.
  rewrite (nth_indep P (x + 1) 0%nat) in E by lia.
  rewrite (nth_indep P (y + 1) 0%nat) in E by lia.
  apply (proj1 (NoDup_nth P 0%nat) ND) in E; lia.
Qed.

Lemma pos_surj (d : nat) (P : perm) (v : nat) :
  is_perm d P -> (1 <= v <= d)%nat -> exists x, (x < d)%nat /\ pos P x = v.
Proof.
  intros HP Hv.
  assert (I : In v P).
  { eapply Permutation_in; [symmetry; exact HP | apply in_seq; lia]. }
  apply (In_nth _ _ 0%nat) in I. destruct I as [n [Hn E]].
  rewrite (is_perm_length d P HP) in Hn.
  exists n. split; [exact Hn|].
  unfold pos, papply. replace (n + 1 - 1)%nat with n by lia.
  rewrite (nth_indep P (n + 1) 0%nat); [exact E|].
  rewrite (is_perm_length d P HP). exact Hn.
Qed.

Lemma nth_map_lt {A B : Type} (f : A -> B) (l : list A) (n : nat) (da : A) (db : B) :
  (n < length l)%nat -> nth n (map f l) db = f (nth n l da).
Proof.
  intros Hn. rewrite (nth_indep _ db (f da)) by (rewrite length_map; exact Hn).
  apply map_nth.
Qed.

Lemma transposition_nth (d k j x : nat) :
  (x < d)%nat ->
  nth x (transposition d (k + 1) (j + 1)) 0%nat = S (swap k j x).
Proof.
  intros Hx. unfold transposition.
  rewrite (nth_map_lt _ _ _ 0%nat) by (rewrite length_seq; exact Hx).
  rewrite seq_nth by exact Hx. unfold swap.
  destruct (Nat.eqb_spec (1 + x) (k + 1)), (Nat.eqb_spec x k); try lia.
  destruct (Nat.eqb_spec (1 + x) (j + 1)), (Nat.eqb_spec x j); lia.
Qed.

Lemma swap_lt (d k j x : nat) :
  (k < d)%nat -> (j < d)%nat -> (x < d)%nat -> (swap k j x < d)%nat.
Proof.
  intros. unfold swap.
  destruct (x =? k)%nat; [assumption|]. destruct (x =? j)%nat; assumption.
Qed.

Lemma swap_involutive (k j x : nat) : swap k j (swap k j x) = x.
Proof.
  unfold swap.
  destruct (Nat.eqb_spec x k); [subst|].
  - destruct (Nat.eqb_spec j k); [congruence|]. rewrite Nat.eqb_refl. reflexivity.
  - destruct (Nat.eqb_spec x j); [subst|].
    + rewrite Nat.eqb_refl. reflexivity.
    + destruct (Nat.eqb_spec x k); [contradiction|].
      destruct (Nat.eqb_spec x j); [contradiction|]. reflexivity.
Qed.

Lemma pos_pmul_transposition (d : nat) (P : perm) (k j x : nat) :
  (x < d)%nat ->
  pos (pmul (transposition d (k + 1) (j + 1)) P) x = pos P (swap k j x).
Proof.
  intros Hx. unfold pos at 1, papply at 1, pmul.
  replace (x + 1 - 1)%nat with x by lia.
  rewrite (nth_map_lt _ _ _ 0%nat).
  2:{ unfold transposition. rewrite length_map, length_seq. exact Hx. }
  rewrite transposition_nth by exact Hx.
  unfold pos. f_equal. lia.
Qed.

Lemma transposition_is_perm (d k j : nat) :
  (k < d)%nat -> (j < d)%nat -> is_perm d (transposition d (k + 1) (j + 1)).
Proof.
  intros Hk Hj. unfold is_perm.
  assert (E : transposition d (k + 1) (j + 1) = map (fun x => S (swap k j x)) (seq 0 d)).
  { apply (nth_ext _ _ 0%nat 0%nat).
    - unfold transposition. rewrite !length_map, !length_seq. reflexivity.
    - intros n Hn. unfold transposition in Hn.
      rewrite length_map, length_seq in Hn.
      rewrite transposition_nth by exact Hn.
      rewrite (nth_map_lt _ _ _ 0%nat) by (rewrite length_seq; exact Hn).
      rewrite seq_nth by exact Hn. reflexivity. }
  rewrite E. apply NoDup_Permutation.
  - apply Finite.Injective_map_NoDup_in; [|apply seq_NoDup].
    intros x y _ _ Hxy. injection Hxy as Hxy.
    rewrite <- (swap_involutive k j x), <- (swap_involutive k j y). congruence.
  - apply seq_NoDup.
  - intros v. rewrite in_map_iff, in_seq. split.
    + intros [x [<- Hx]]. apply in_seq in Hx.
      pose proof (swap_lt d k j x Hk Hj ltac:(lia)). lia.
    + intros Hv. exists (swap k j (v - 1)). split.
      * rewrite swap_involutive. lia.
      * apply in_seq. pose proof (swap_lt d k j (v - 1) Hk Hj ltac:(lia)). lia.
Qed.

Lemma map_papply_seq (d : nat) (P : perm) :
  length P = d -> map (papply P) (seq 1 d) = P.
Proof.
  intros L. apply (nth_ext _ _ 0%nat 0%nat).
  - rewrite length_map, length_seq. auto.
  - intros n Hn. rewrite length_map, length_seq in Hn.
    rewrite (nth_map_lt _ _ _ 0%nat) by (rewrite length_seq; exact Hn).
    rewrite seq_nth by exact Hn. unfold papply.
    replace (1 + n - 1)%nat with n by lia. apply nth_indep. lia.
Qed.

Lemma pmul_is_perm (d : nat) (p q : perm) :
  is_perm d p -> is_perm d q -> is_perm d (pmul p q).
Proof.
  intros Hp Hq. unfold is_perm, pmul.
  rewrite (Permutation_map (papply q) Hp).
  rewrite map_papply_seq by (apply is_perm_length; exact Hq). exact Hq.
Qed.

Open Scope Qc_scope.

(** ** The crossings of a slice *)

Lemma crossing_eta (c : crossing) : c = (c_t c, c_k c, c_j c, c_sign c).
Proof. destruct c as [[[t k] j] s]. reflexivity. Qed.

Lemma mapM_concat_In {A B : Type} (f : A -> result (list B)) (xs : list A)
    (ys : list (list B)) (c : B) :
  mapM f xs = Ok ys ->
  (In c (concat ys) <-> exists x r, In x xs /\ f x = Ok r /\ In c r).
Proof.
  intros H. apply mapM_Ok in H. induction H as [|x r xs ys Hx _ IH]; simpl.
  - split; [intros [] | intros [x [r [[] _]]]].
  - rewrite in_app_iff, IH. split.
    + intros [Hc|[x' [r' [Hin [Hf Hc]]]]].
      * exists x, r. auto.
      * exists x', r'. auto.
    + intros [x' [r' [[<-|Hin] [Hf Hc]]]].
      * left. congruence.
      * right. exists x', r'. auto.
Qed.

Lemma div_Ok (x y q : Qc) : div x y = Ok q <-> y <> 0 /\ q = x / y.
Proof.
  unfold div. destruct (Qceqb y 0) eqn:E.
  - apply Qceqb_eq in E. split; [discriminate | tauto].
  - apply Qceqb_neq in E. split.
    + intros H. inv_ok. auto.
    + intros [_ ->]. reflexivity.
Qed.

Lemma crossing_at_In (l1 l2 : list pt) (j k : nat) (r : list crossing) (c : crossing) :
  crossing_at l1 l2 j k = Ok r -> (k < j)%nat ->
  (In c r <-> c_k c = k /\ c_j c = j /\ is_crossing l1 l2 c).
Proof.
  unfold crossing_at. intros H Hkj.
  inv_bind H. inv_bind H. rename v into l2j, v0 into l2k.
  apply index_Ok in E, E0.
  destruct (pt_ltb l2j l2k) eqn:Hlt.
  - inv_bind H. inv_bind H. inv_bind H. inv_ok.
    rename v into l1j, v0 into l1k, v1 into t.
    apply index_Ok in E1, E2. apply div_Ok in E3. destruct E3 as [Hden Ht].
    simpl. split.
    + intros [<-|[]]. simpl. split; [reflexivity|]. split; [reflexivity|].
      split; [exact Hkj|]. exists l1k, l1j, l2k, l2j. simpl.
      repeat (split; [assumption|]). auto.
    + intros [Hk [Hj [_ [a [b [a' [b' X]]]]]]]. left.
      destruct X as [X1 [X2 [X3 [X4 [_ [_ [X5 X6]]]]]]].
      rewrite Hk, Hj in *.
      assert (a = l1k) by congruence. assert (b = l1j) by congruence.
      assert (a' = l2k) by congruence. assert (b' = l2j) by congruence.
      subst a b a' b'. rewrite (crossing_eta c), Hk, Hj, X6, X5.
      unfold crossing_sign, crossing_time, crossing_den. subst t. reflexivity.
  - inv_ok. simpl. split; [intros []|].
    intros [Hk [Hj [_ [a [b [a' [b' X]]]]]]].
    destruct X as [_ [_ [X3 [X4 [X5 _]]]]].
    rewrite Hk, Hj in *. congruence.
Qed.

Lemma find_cruces_In (l1 l2 : list pt) (cruces : list crossing) (c : crossing) :
  find_cruces l1 l2 = Ok cruces ->
  (In c cruces <-> (c_j c < length l2)%nat /\ is_crossing l1 l2 c).
Proof.
  unfold find_cruces. intros H. inv_bind H. inv_ok.
  rewrite (mapM_concat_In _ _ _ c E). split.
  - intros [j [r [Hj [Hr Hc]]]]. apply in_seq in Hj.
    inv_bind Hr. inv_ok.
    apply (mapM_concat_In _ _ _ c E0) in Hc.
    destruct Hc as [k [r' [Hk [Hr' Hc]]]]. apply in_seq in Hk.
    apply (crossing_at_In _ _ _ _ _ c Hr') in Hc; [|lia].
    destruct Hc as [_ [-> Hc]]. split; [lia | exact Hc].
  - intros [Hj Hc].
    pose proof (mapM_Ok _ _ _ E) as F.
    assert (I : In (c_j c) (seq 0 (length l2))) by (apply in_seq; lia).
    destruct (Forall2_In_l F I) as [r [_ Hr]].
    exists (c_j c), r. split; [exact I|]. split; [exact Hr|].
    inv_bind Hr. inv_ok.
    apply (mapM_concat_In _ _ _ c E0).
    pose proof (mapM_Ok _ _ _ E0) as F'.
    assert (I' : In (c_k c) (seq 0 (c_j c))) by (apply in_seq; destruct Hc; lia).
    destruct (Forall2_In_l F' I') as [r' [_ Hr']].
    exists (c_k c), r'. split; [exact I'|]. split; [exact Hr'|].
    apply (crossing_at_In _ _ _ _ _ c Hr'); [destruct Hc; lia|].
    auto.
Qed.

Lemma StronglySorted_nth {A : Type} (R : A -> A -> Prop) (l : list A) (dflt : A) :
  StronglySorted R l ->
  forall i j, (i < j)%nat -> (j < length l)%nat -> R (nth i l dflt) (nth j l dflt).
Proof.
  induction 1 as [|x r Hr IH Hx]; intros i j Hij Hj; simpl in Hj; [lia|].
  destruct j as [|j]; [lia|]. destruct i as [|i]; simpl.
  - rewrite Forall_forall in Hx. apply Hx, nth_In. lia.
  - apply IH; lia.
Qed.

Lemma mapM_concat_NoDup {A B : Type} (f : A -> result (list B)) (key : B -> A)
    (xs : list A) (ys : list (list B)) :
  NoDup xs -> mapM f xs = Ok ys ->
  (forall x r, In x xs -> f x = Ok r -> NoDup r /\ forall c, In c r -> key c = x) ->
  NoDup (concat ys).
Proof.
  intros ND H Hf. apply mapM_Ok in H.
  induction H as [|x r xs ys Hx F IH]; simpl; [constructor|].
  apply NoDup_cons_iff in ND. destruct ND as [Hnin ND].
  destruct (Hf x r (or_introl eq_refl) Hx) as [NDr Hkey].
  apply NoDup_app; [exact NDr | |].
  - apply IH; [exact ND|]. intros x' r' Hin. apply Hf. right. exact Hin.
  - intros c Hc Hc'. apply in_concat in Hc'. destruct Hc' as [r' [Hr' Hc']].
    destruct (Forall2_In_l (Forall2_flip F) Hr') as [x' [Hx' Hfx']].
    destruct (Hf x' r' (or_intror Hx') Hfx') as [_ Hkey'].
    rewrite <- (Hkey c Hc), (Hkey' c Hc') in Hnin. contradiction.
Qed.

Lemma find_cruces_NoDup (l1 l2 : list pt) (cruces : list crossing) :
  find_cruces l1 l2 = Ok cruces -> NoDup cruces.
Proof.
  unfold find_cruces. intros H. inv_bind H. inv_ok.
  apply (mapM_concat_NoDup _ c_j _ _ (seq_NoDup _ _) E).
  intros j r Hj Hr. apply in_seq in Hj. inv_bind Hr. inv_ok. split.
  - apply (mapM_concat_NoDup _ c_k _ _ (seq_NoDup _ _) E0).
    intros k r' Hk Hr'. apply in_seq in Hk. split.
    + unfold crossing_at in Hr'.
      inv_bind Hr'. inv_bind Hr'.
      match type of Hr' with (if ?b then _ else _) = _ => destruct b end.
      * inv_bind Hr'. inv_bind Hr'. inv_bind Hr'. inv_ok.
        repeat constructor. intros [].
      * inv_ok. constructor.
    + intros c Hc. apply (crossing_at_In _ _ _ _ _ c Hr') in Hc; [|lia].
      tauto.
  - intros c Hc. apply (mapM_concat_In _ _ _ c E0) in Hc.
    destruct Hc as [k [r' [Hk [Hr' Hc]]]]. apply in_seq in Hk.
    apply (crossing_at_In _ _ _ _ _ c Hr') in Hc; [|lia]. tauto.
Qed.

Lemma crossing_unique (l1 l2 : list pt) (c c' : crossing) :
  is_crossing l1 l2 c -> is_crossing l1 l2 c' ->
  c_k c = c_k c' -> c_j c = c_j c' -> c = c'.
Proof.
  intros [_ [a [b [a' [b' X]]]]] [_ [e [f [e' [f' Y]]]]] Hk Hj.
  destruct X as [X1 [X2 [X3 [X4 [_ [_ [X5 X6]]]]]]].
  destruct Y as [Y1 [Y2 [Y3 [Y4 [_ [_ [Y5 Y6]]]]]]].
  rewrite Hk, Hj in *.
  assert (a = e) by congruence. assert (b = f) by congruence.
  assert (a' = e') by congruence. assert (b' = f') by congruence. subst.
  rewrite (crossing_eta c), (crossing_eta c'), Hk, Hj.
  assert (Ht : c_t c = c_t c') by congruence.
  rewrite X6, Y6, Ht. reflexivity.
Qed.

(** ** The geometry of a slice

    Between two consecutive columns [l1], [l2] of [totalpoints] every strand
    moves on a straight line.  [re_at l1 l2 x t] and [im_at l1 l2 x t] are
    the coordinates of strand [x] at the parameter [t] of the slice. *)

Lemma nth_error_point_at (l : list pt) (x : nat) (p : pt) :
  nth_error l x = Some p -> point_at l x = p /\ (x < length l)%nat.
Proof.
  intros H. split.
  - unfold point_at. apply nth_error_nth. exact H.
  - apply nth_error_Some. congruence.
Qed.

Lemma pt_le_fst (p q : pt) : le p q -> fst p <= fst q.
Proof.
  unfold le, ltb. unfold ocompare at 1. unfold Order_prod. intros H.
  apply Qcnot_lt_le. intros C.
  assert (X : ocompare (fst q) (fst p) = Lt) by (apply Qclt_alt; exact C).
  rewrite X in H. discriminate.
Qed.

Lemma pt_lt_fst (p q : pt) : ltb p q = true -> fst p <= fst q.
Proof. intros H. apply pt_le_fst, lt_le, H. Qed.

Lemma pair_le_fst {A B : Type} `{OrderLaws A} `{OrderLaws B} (x y : A * B) :
  le x y -> le (fst x) (fst y).
Proof.
  unfold le, ltb. unfold ocompare at 1. unfold Order_prod.
  destruct (ocompare (fst y) (fst x)); congruence.
Qed.

Lemma find_cruces_at (l1 l2 : list pt) (cruces : list crossing) (k j : nat) :
  find_cruces l1 l2 = Ok cruces -> (k < j)%nat -> (j < length l2)%nat ->
  exists r, crossing_at l1 l2 j k = Ok r.
Proof.
  unfold find_cruces. intros H Hkj Hj. inv_bind H. inv_ok.
  pose proof (mapM_Ok _ _ _ E) as F.
  assert (I : In j (seq 0 (length l2))) by (apply in_seq; lia).
  destruct (Forall2_In_l F I) as [r [_ Hr]]. inv_bind Hr.
  pose proof (mapM_Ok _ _ _ E0) as F'.
  assert (I' : In k (seq 0 j)) by (apply in_seq; lia).
  destruct (Forall2_In_l F' I') as [r' [_ Hr']]. eauto.
Qed.

(** *** The order of processing, in the words of the specification

    [greedy d P pending w P'] resolves the crossings that share one time:
    pick a pending crossing whose two strands are at minimal distance under
    the accumulated permutation [P], emit its signed generator, transpose the
    pair in [P], and go on with the remaining ones.  [process d P cruces w]
    handles the times in increasing order. *)

Lemma sort_head {A : Type} `{OrderLaws A} (l : list A) (x : A) (r : list A) :
  sort l = x :: r -> Permutation l (x :: r) /\ forall y, In y r -> le x y.
Proof.
  intros E. split.
  - rewrite <- E. symmetry. apply sort_perm.
  - pose proof (sort_sorted l) as S0. rewrite E in S0.
    apply StronglySorted_inv in S0. destruct S0 as [_ F].
    rewrite Forall_forall in F. exact F.
Qed.

Lemma cross_le_d (a b : cross) : le a b -> (x_d a <= x_d b)%Z.
Proof.
  intros L. do 3 apply pair_le_fst in L.
  destruct a as [[[da ka] ja] sa], b as [[[db kb] jb] sb]. simpl in *.
  unfold le, ltb, ocompare, Order_Z in L.
  destruct (Z.compare_spec db da); try discriminate; lia.
Qed.

Lemma crossing_le_t (a b : crossing) : le a b -> c_t a <= c_t b.
Proof.
  intros L. do 3 apply pair_le_fst in L.
  destruct a as [[[ta ka] ja] sa], b as [[[tb kb] jb] sb]. simpl in *.
  apply Qcltb_ge. exact L.
Qed.

Lemma filter_none {A : Type} (f : A -> bool) (l : list A) :
  (forall x, In x l -> f x = false) -> filter f l = [].
Proof.
  induction l as [|a r IH]; simpl; intros H; [reflexivity|].
  rewrite (H a (or_introl eq_refl)). apply IH. intros x Hx. apply H. right. exact Hx.
Qed.

Lemma StronglySorted_app_r {A : Type} (R : A -> A -> Prop) (l l' : list A) :
  StronglySorted R (l ++ l') -> StronglySorted R l'.
Proof.
  induction l as [|a r IH]; simpl; intros H; [exact H|].
  apply StronglySorted_inv in H. apply IH. apply H.
Qed.

(** In a sorted list of crossings, the ones that share the time of the
    first are a prefix, and the later ones have a greater time. *)
Lemma sorted_group_split (l : list crossing) (t0 : Qc) :
  StronglySorted le l -> (forall c, In c l -> t0 <= c_t c) ->
  l = filter (fun c => Qceqb (c_t c) t0) l
      ++ skipn (length (filter (fun c => Qceqb (c_t c) t0) l)) l
  /\ (forall c, In c (filter (fun c => Qceqb (c_t c) t0) l) -> c_t c = t0)
  /\ (forall c, In c (skipn (length (filter (fun c => Qceqb (c_t c) t0) l)) l) ->
        t0 < c_t c).
Proof.
  intros HS Hge. split; [|split].
  - induction HS as [|a r Hr IH Ha]; [reflexivity|]. simpl.
    destruct (Qceqb (c_t a) t0) eqn:E.
    + simpl. f_equal. apply IH. intros c Hc. apply Hge. right. exact Hc.
    + rewrite filter_none; [reflexivity|].
      intros x Hx. apply Qceqb_neq. intros X.
      rewrite Forall_forall in Ha. pose proof (crossing_le_t _ _ (Ha x Hx)) as L.
      apply Qceqb_neq in E. pose proof (Hge a (or_introl eq_refl)) as L0.
      apply E. apply Qcle_antisym; [rewrite <- X; exact L | exact L0].
  - intros c Hc. apply filter_In in Hc. destruct Hc as [_ Hc].
    apply Qceqb_eq. exact Hc.
  - induction HS as [|a r Hr IH Ha]; [intros c []|]. simpl.
    destruct (Qceqb (c_t a) t0) eqn:E.
    + simpl. apply IH. intros c Hc. apply Hge. right. exact Hc.
    + assert (La : t0 < c_t a).
      { apply Qceqb_neq in E. pose proof (Hge a (or_introl eq_refl)) as L0.
        destruct (Qcle_lt_or_eq _ _ L0) as [L|L]; [exact L | congruence]. }
      rewrite filter_none.
      * simpl. intros c [<-|Hc]; [exact La|].
        rewrite Forall_forall in Ha.
        eapply Qclt_le_trans; [exact La | apply crossing_le_t, Ha, Hc].
      * intros x Hx. apply Qceqb_neq. intros X.
        rewrite Forall_forall in Ha. pose proof (crossing_le_t _ _ (Ha x Hx)) as L.
        rewrite X in L. exact (Qclt_not_le _ _ La L).
Qed.

Lemma rekey_key (P P' : perm) (c : crossing) :
  rekey P' (key_crossing P c) = key_crossing P' c.
Proof. destruct c as [[[t k] j] s]. reflexivity. Qed.

Lemma generator_key (P : perm) (c : crossing) :
  generator P (key_crossing P c) = signed_generator P c.
Proof. destruct c as [[[t k] j] s]. reflexivity. Qed.

Section SliceFacts.

Variable M : list (pt * pt).

Hypothesis M_sorted : StronglySorted le M.

Variable cruces : list crossing.

Hypothesis Hcruces : find_cruces (map fst M) (map snd M) = Ok cruces.

Local Abbreviation l1 := (map fst M).

Local Abbreviation l2 := (map snd M).

Local Abbreviation d := (length M).

Lemma cruces_facts (c : crossing) :
  In c cruces ->
  (c_k c < c_j c)%nat /\ (c_j c < d)%nat
  /\ pt_ltb (point_at l2 (c_j c)) (point_at l2 (c_k c)) = true
  /\ slice_den l1 l2 (c_k c) (c_j c) <> 0
  /\ c_t c = (fst (point_at l1 (c_j c)) - fst (point_at l1 (c_k c)))
             / slice_den l1 l2 (c_k c) (c_j c)
  /\ c_sign c = (- cmp (im_at l1 l2 (c_k c) (c_t c)) (im_at l1 l2 (c_j c) (c_t c)))%Z.
Proof.
  intros Hc. apply (find_cruces_In _ _ _ c Hcruces) in Hc.
  destruct Hc as [Hj [Hkj [a [b [a' [b' X]]]]]].
  destruct X as [X1 [X2 [X3 [X4 [X5 [X6 [X7 X8]]]]]]].
  apply nth_error_point_at in X1, X2, X3, X4.
  destruct X1 as [<- _], X2 as [<- _], X3 as [<- _], X4 as [<- _].
  rewrite length_map in Hj.
  repeat (split; [assumption|]). exact X8.
Qed.

Lemma cruces_complete (k j : nat) :
  (k < j)%nat -> (j < d)%nat ->
  pt_ltb (point_at l2 j) (point_at l2 k) = true ->
  exists c, In c cruces /\ c_k c = k /\ c_j c = j.
Proof.
  intros Hkj Hj Hlt.
  destruct (find_cruces_at _ _ _ k j Hcruces Hkj) as [r Hr];
    [rewrite length_map; exact Hj|].
  pose proof Hr as Hr0. unfold crossing_at in Hr.
  inv_bind Hr. inv_bind Hr. apply index_Ok in E, E0.
  apply nth_error_point_at in E, E0. destruct E as [<- _], E0 as [<- _].
  rewrite Hlt in Hr. inv_bind Hr. inv_bind Hr. inv_bind Hr. inv_ok.
  exists (v1, k, j, (- cmp (snd v0 * (1 - v1) + v1 * snd (point_at l2 k))
                           (snd v * (1 - v1) + v1 * snd (point_at l2 j)))%Z).
  split; [|split; reflexivity].
  apply (find_cruces_In _ _ _ _ Hcruces). split; [rewrite length_map; exact Hj|].
  apply (crossing_at_In _ _ _ _ _ _ Hr0 Hkj). left. reflexivity.
Qed.

Lemma cruces_unique (c c' : crossing) :
  In c cruces -> In c' cruces -> c_k c = c_k c' -> c_j c = c_j c' -> c = c'.
Proof.
  intros Hc Hc'.
  apply (find_cruces_In _ _ _ _ Hcruces) in Hc, Hc'.
  apply (crossing_unique l1 l2); tauto.
Qed.

Lemma sorted_l1 (k j : nat) :
  (k < j)%nat -> (j < d)%nat -> le (point_at l1 k) (point_at l1 j).
Proof.
  intros Hkj Hj.
  pose proof (StronglySorted_nth _ M ((0, 0), (0, 0)) M_sorted k j Hkj Hj) as H.
  apply pair_le_fst in H. unfold point_at.
  change (0, 0) with (fst ((0, 0), (0, 0)) : pt).
  rewrite !map_nth. exact H.
Qed.

Lemma den_pos (c : crossing) :
  In c cruces -> 0 < slice_den l1 l2 (c_k c) (c_j c).
Proof.
  intros Hc. destruct (cruces_facts c Hc) as [Hkj [Hj [Hlt [Hden _]]]].
  pose proof (pt_le_fst _ _ (sorted_l1 _ _ Hkj Hj)) as Ha.
  pose proof (pt_lt_fst _ _ Hlt) as Hb.
  unfold slice_den, crossing_den in *. qc2q. lra.
Qed.

Lemma re_diff (c : crossing) (tau : Qc) :
  In c cruces ->
  re_at l1 l2 (c_k c) tau - re_at l1 l2 (c_j c) tau
  = slice_den l1 l2 (c_k c) (c_j c) * (tau - c_t c).
Proof.
  intros Hc. destruct (cruces_facts c Hc) as [_ [_ [_ [Hden [Ht _]]]]].
  rewrite Ht. unfold re_at, slice_den, crossing_den in *. field. exact Hden.
Qed.

Lemma time_range (c : crossing) : In c cruces -> 0 <= c_t c /\ c_t c <= 1.
Proof.
  intros Hc. pose proof (den_pos c Hc) as Hpos.
  destruct (cruces_facts c Hc) as [Hkj [Hj [Hlt [Hden [Ht _]]]]].
  pose proof (pt_le_fst _ _ (sorted_l1 _ _ Hkj Hj)) as Ha.
  pose proof (pt_lt_fst _ _ Hlt) as Hb.
  assert (E : c_t c * slice_den l1 l2 (c_k c) (c_j c)
              = fst (point_at l1 (c_j c)) - fst (point_at l1 (c_k c))).
  { rewrite Ht. field. exact Hden. }
  unfold slice_den, crossing_den in *.
  generalize dependent (c_t c). intros t _ E.
  qc2q. split; nra.
Qed.

Lemma re_meet (c : crossing) (tau : Qc) :
  In c cruces ->
  re_at l1 l2 (c_k c) tau = re_at l1 l2 (c_j c) tau -> c_t c = tau.
Proof.
  intros Hc E. pose proof (re_diff c tau Hc) as D.
  destruct (cruces_facts c Hc) as [_ [_ [_ [Hden _]]]].
  rewrite E in D.
  assert (Z0 : slice_den l1 l2 (c_k c) (c_j c) * (tau - c_t c) = 0).
  { rewrite <- D. ring. }
  apply Qcmult_integral in Z0. destruct Z0 as [Z0|Z0]; [contradiction|].
  qc2q. lra.
Qed.

(** *** The accumulated permutation follows the strands

    While the crossings of a slice are resolved, [done] holds the ones
    already processed and [tau] is the time of the group being processed. *)

Lemma pair_done_crossing (tau : Qc) (P : perm) (done : list crossing) (k j : nat) :
  state_ok M cruces tau P done -> pair_done done k j ->
  pt_ltb (point_at l2 j) (point_at l2 k) = true.
Proof.
  intros ST [c [Hc [<- <-]]]. destruct (ok_done _ _ _ _ _ ST c Hc) as [Hin _].
  apply (cruces_facts c Hin).
Qed.

(** The strands stand in the order of their real parts. *)
Lemma order_re (tau : Qc) (P : perm) (done : list crossing) (x y : nat) :
  state_ok M cruces tau P done -> 0 <= tau -> tau <= 1 ->
  (x < d)%nat -> (y < d)%nat -> (pos P x < pos P y)%nat ->
  re_at l1 l2 x tau <= re_at l1 l2 y tau.
Proof.
  intros ST T0 T1 Hx Hy Hxy.
  destruct (Nat.lt_trichotomy x y) as [L|[E|L]].
  - destruct (pt_ltb (point_at l2 y) (point_at l2 x)) eqn:Hlt.
    + destruct (cruces_complete x y L Hy Hlt) as [c [Hc [Hk Hj]]].
      assert (ND : ~ In c done).
      { intros I. assert (PD : pair_done done x y) by (exists c; auto).
        apply (ok_inv _ _ _ _ _ ST x y L Hy) in PD. lia. }
      pose proof (ok_rest _ _ _ _ _ ST c Hc ND) as Ht.
      pose proof (re_diff c tau Hc) as D. pose proof (den_pos c Hc) as Hpos.
      rewrite Hk, Hj in *.
      generalize dependent (slice_den l1 l2 x y). intros den D Hpos.
      generalize dependent (re_at l1 l2 x tau).
      generalize dependent (re_at l1 l2 y tau). intros ry rx D.
      qc2q. nra.
    + pose proof (pt_le_fst _ _ (sorted_l1 _ _ L Hy)) as Ha.
      pose proof (pt_le_fst _ _ Hlt) as Hb.
      unfold re_at. qc2q. nra.
  - subst. lia.
  - assert (PD : pair_done done y x) by (apply (ok_inv _ _ _ _ _ ST y x L Hx); exact Hxy).
    destruct PD as [c [Hc [Hk Hj]]].
    destruct (ok_done _ _ _ _ _ ST c Hc) as [Hin Ht].
    pose proof (re_diff c tau Hin) as D. pose proof (den_pos c Hin) as Hpos.
    rewrite Hk, Hj in *.
    generalize dependent (slice_den l1 l2 y x). intros den D Hpos.
    generalize dependent (re_at l1 l2 x tau).
    generalize dependent (re_at l1 l2 y tau). intros ry rx D.
    qc2q. nra.
Qed.

Lemma pending_pos (tau : Qc) (P : perm) (done G : list crossing) (c : crossing) :
  state_ok M cruces tau P done -> pending_ok cruces tau done G -> In c G ->
  (pos P (c_k c) < pos P (c_j c))%nat.
Proof.
  intros ST [HG _] Hc. destruct (HG c Hc) as [Hin [_ ND]].
  destruct (cruces_facts c Hin) as [Hkj [Hj _]].
  assert (N : ~ (pos P (c_j c) < pos P (c_k c))%nat).
  { intros I. apply (ok_inv _ _ _ _ _ ST _ _ Hkj Hj) in I.
    destruct I as [c' [Hc' [Ek Ej]]]. apply ND.
    destruct (ok_done _ _ _ _ _ ST c' Hc') as [Hin' _].
    rewrite <- (cruces_unique c' c Hin' Hin Ek Ej). exact Hc'. }
  assert (pos P (c_k c) <> pos P (c_j c)).
  { intros E. apply (pos_inj d P) in E; [lia | apply ST | lia | lia]. }
  lia.
Qed.

Lemma pdiff_pos (P : perm) (k j : nat) :
  pdiff P k j = (Z.of_nat (pos P j) - Z.of_nat (pos P k))%Z.
Proof. reflexivity. Qed.

(** The crux: a pending crossing whose position difference is minimal joins
    two strands that are adjacent under the accumulated permutation. *)
Lemma minimal_is_adjacent (tau : Qc) (P : perm) (done G : list crossing)
    (c : crossing) :
  state_ok M cruces tau P done -> pending_ok cruces tau done G -> In c G ->
  (forall c', In c' G -> (pdiff P (c_k c) (c_j c) <= pdiff P (c_k c') (c_j c'))%Z) ->
  pos P (c_j c) = S (pos P (c_k c)).
Proof.
  intros ST HG Hc Hmin.
  pose proof (pending_pos _ _ _ _ _ ST HG Hc) as Hpos.
  destruct HG as [HG HGc]. destruct (HG c Hc) as [Hin [Ht ND]].
  destruct (cruces_facts c Hin) as [Hkj [Hj [Hlt _]]].
  destruct (Nat.eq_dec (pos P (c_j c)) (S (pos P (c_k c)))) as [E|N]; [exact E|].
  exfalso.
  pose proof (pos_range d P (c_j c) (ok_perm _ _ _ _ _ ST) Hj) as Rj.
  destruct (pos_surj d P (S (pos P (c_k c))) (ok_perm _ _ _ _ _ ST) ltac:(lia))
    as [m [Hm Em]].
  destruct (time_range c Hin) as [T0 T1]. rewrite Ht in T0, T1.
  assert (Hk : (c_k c < d)%nat) by lia.
  pose proof (order_re tau P done (c_k c) m ST T0 T1 Hk Hm ltac:(lia)) as R1.
  pose proof (order_re tau P done m (c_j c) ST T0 T1 Hm Hj ltac:(lia)) as R2.
  pose proof (re_diff c tau Hin) as D. rewrite Ht in D.
  assert (Ekj : re_at l1 l2 (c_k c) tau = re_at l1 l2 (c_j c) tau).
  { generalize dependent (slice_den l1 l2 (c_k c) (c_j c)). intros den D.
    clear R1 R2. qc2q. lra. }
  assert (Ekm : re_at l1 l2 (c_k c) tau = re_at l1 l2 m tau).
  { apply Qcle_antisym; [exact R1 | rewrite Ekj; exact R2]. }
  assert (Emj : re_at l1 l2 m tau = re_at l1 l2 (c_j c) tau) by congruence.
  assert (mk : m <> c_k c) by (intros ->; lia).
  assert (mj : m <> c_j c) by (intros ->; lia).
  (* a pending crossing between [m] and one of the two strands would be nearer *)
  assert (A : (c_k c < m)%nat -> le (point_at l2 (c_k c)) (point_at l2 m)).
  { intros L. unfold le.
    destruct (ltb (point_at l2 m) (point_at l2 (c_k c))) eqn:X; [|reflexivity].
    exfalso. destruct (cruces_complete _ _ L Hm X) as [c1 [Hc1 [Ek1 Ej1]]].
    assert (ND1 : ~ In c1 done).
    { intros I. assert (PD : pair_done done (c_k c) m) by (exists c1; auto).
      apply (ok_inv _ _ _ _ _ ST _ _ L Hm) in PD. lia. }
    assert (T : c_t c1 = tau).
    { apply (re_meet c1 tau Hc1). rewrite Ek1, Ej1. exact Ekm. }
    specialize (Hmin c1 (HGc c1 Hc1 T ND1)).
    rewrite Ek1, Ej1, !pdiff_pos in Hmin. lia. }
  assert (C : (m < c_j c)%nat -> le (point_at l2 m) (point_at l2 (c_j c))).
  { intros L. unfold le.
    destruct (ltb (point_at l2 (c_j c)) (point_at l2 m)) eqn:X; [|reflexivity].
    exfalso. destruct (cruces_complete _ _ L Hj X) as [c1 [Hc1 [Ek1 Ej1]]].
    assert (ND1 : ~ In c1 done).
    { intros I. assert (PD : pair_done done m (c_j c)) by (exists c1; auto).
      apply (ok_inv _ _ _ _ _ ST _ _ L Hj) in PD. lia. }
    assert (T : c_t c1 = tau).
    { apply (re_meet c1 tau Hc1). rewrite Ek1, Ej1. exact Emj. }
    specialize (Hmin c1 (HGc c1 Hc1 T ND1)).
    rewrite Ek1, Ej1, !pdiff_pos in Hmin. lia. }
  assert (B : (m < c_k c)%nat -> ltb (point_at l2 (c_k c)) (point_at l2 m) = true).
  { intros L. apply (pair_done_crossing tau P done); [exact ST|].
    apply (ok_inv _ _ _ _ _ ST _ _ L Hk). lia. }
  assert (D' : (c_j c < m)%nat -> ltb (point_at l2 m) (point_at l2 (c_j c)) = true).
  { intros L. apply (pair_done_crossing tau P done); [exact ST|].
    apply (ok_inv _ _ _ _ _ ST _ _ L Hm). lia. }
  change (ltb (point_at l2 (c_j c)) (point_at l2 (c_k c)) = true) in Hlt.
  destruct (Nat.lt_trichotomy m (c_k c)) as [L1|[L1|L1]]; [|contradiction|].
  - (* m < k < j *)
    specialize (B L1). specialize (C ltac:(lia)).
    pose proof (ltb_trans _ _ _ Hlt B) as X. unfold le in C. congruence.
  - destruct (Nat.lt_trichotomy m (c_j c)) as [L2|[L2|L2]]; [|contradiction|].
    + (* k < m < j *)
      specialize (A L1). specialize (C L2).
      pose proof (le_trans _ _ _ A C) as X. unfold le in X. congruence.
    + (* k < j < m *)
      specialize (A L1). specialize (D' L2).
      pose proof (ltb_trans _ _ _ D' Hlt) as X. unfold le in A. congruence.
Qed.

Lemma step_ok (tau : Qc) (P : perm) (done G : list crossing) (c : crossing) :
  state_ok M cruces tau P done -> pending_ok cruces tau done G -> In c G ->
  pos P (c_j c) = S (pos P (c_k c)) ->
  state_ok M cruces tau (transpose d P c) (c :: done).
Proof.
  intros ST [HG HGc] Hc Hadj. destruct (HG c Hc) as [Hin [Ht ND]].
  destruct (cruces_facts c Hin) as [Hkj [Hj _]].
  assert (Hk : (c_k c < d)%nat) by lia.
  pose proof (ok_perm _ _ _ _ _ ST) as HP.
  split.
  - apply pmul_is_perm; [apply transposition_is_perm; assumption | exact HP].
  - intros c' [<-|Hc']; [split; [exact Hin | rewrite Ht; apply Qcle_refl]|].
    apply (ok_done _ _ _ _ _ ST). exact Hc'.
  - intros c' Hc' N. apply (ok_rest _ _ _ _ _ ST); [exact Hc'|].
    intros I. apply N. right. exact I.
  - intros x y Hxy Hy. assert (Hx : (x < d)%nat) by lia.
    unfold transpose. rewrite !pos_pmul_transposition by assumption.
    assert (PD : pair_done (c :: done) x y <->
                 (c_k c = x /\ c_j c = y) \/ pair_done done x y).
    { unfold pair_done. split.
      - intros [c' [[<-|I] E]]; [left; exact E | right; exists c'; auto].
      - intros [E|[c' [I E]]]; [exists c; simpl; auto | exists c'; simpl; auto]. }
    rewrite PD. clear PD.
    pose proof (ok_inv _ _ _ _ _ ST x y Hxy Hy) as Ixy.
    assert (inj : forall a b, (a < d)%nat -> (b < d)%nat -> a <> b ->
                              pos P a <> pos P b).
    { intros a b Ha Hb Hab E. apply Hab. exact (pos_inj d P a b HP Ha Hb E). }
    assert (kj_not_done : ~ pair_done done (c_k c) (c_j c)).
    { intros PD. apply (ok_inv _ _ _ _ _ ST _ _ Hkj Hj) in PD. lia. }
    unfold swap.
    destruct (Nat.eqb_spec x (c_k c)) as [Exk|Nxk];
      destruct (Nat.eqb_spec y (c_k c)) as [Eyk|Nyk];
      destruct (Nat.eqb_spec x (c_j c)) as [Exj|Nxj];
      destruct (Nat.eqb_spec y (c_j c)) as [Eyj|Nyj];
      try lia; subst.
    + pose proof (inj y (c_j c) Hy Hj Nyj). pose proof (inj y (c_k c) Hy Hk Nyk).
      split; [intros I; right; apply Ixy; lia|].
      intros [[_ E]|I]; [congruence | apply Ixy in I; lia].
    + pose proof (inj x (c_j c) Hx Hj Nxj). pose proof (inj x (c_k c) Hx Hk Nxk).
      split; [intros I; right; apply Ixy; lia|].
      intros [[E _]|I]; [congruence | apply Ixy in I; lia].
    + pose proof (inj y (c_j c) Hy Hj Nyj). pose proof (inj y (c_k c) Hy Hk Nyk).
      split; [intros I; right; apply Ixy; lia|].
      intros [[E _]|I]; [congruence | apply Ixy in I; lia].
    + pose proof (inj x (c_j c) Hx Hj Nxj). pose proof (inj x (c_k c) Hx Hk Nxk).
      split; [intros I; right; apply Ixy; lia|].
      intros [[E _]|I]; [congruence | apply Ixy in I; lia].
    + split; [intros I; right; apply Ixy; lia|].
      intros [[E _]|I]; [congruence | apply Ixy in I; lia].
Qed.

Lemma pending_step (tau : Qc) (done G G' : list crossing) (c : crossing) :
  pending_ok cruces tau done G -> NoDup G -> Permutation G (c :: G') ->
  pending_ok cruces tau (c :: done) G' /\ NoDup G' /\ In c G.
Proof.
  intros [HG HGc] ND HP.
  pose proof (Permutation_NoDup HP ND) as ND'.
  apply NoDup_cons_iff in ND'. destruct ND' as [Hnin ND'].
  assert (Hc : In c G) by (eapply Permutation_in; [symmetry; exact HP | left; reflexivity]).
  split; [|split; assumption]. split.
  - intros c' Hc'.
    assert (I : In c' G) by (eapply Permutation_in; [symmetry; exact HP | right; exact Hc']).
    destruct (HG c' I) as [H1 [H2 H3]]. split; [exact H1|]. split; [exact H2|].
    intros [<-|X]; [contradiction | exact (H3 X)].
  - intros c' Hin Ht N.
    assert (I : In c' G).
    { apply HGc; [exact Hin | exact Ht |]. intros X. apply N. right. exact X. }
    apply (Permutation_in _ HP) in I. destruct I as [<-|I]; [|exact I].
    exfalso. apply N. left. reflexivity.
Qed.

(** The inner loop resolves a group as the specification says, and every
    crossing it picks joins two adjacent strands. *)
Lemma resolve_same_t_spec (n : nat) :
  forall (G : list crossing) (tau : Qc) (P : perm) (done : list crossing)
         (braid : list Z),
  length G = n -> NoDup G -> state_ok M cruces tau P done -> pending_ok cruces tau done G ->
  exists P' w done',
    resolve_same_t n d P (map (key_crossing P) G) braid = Ok (P', braid ++ w)
    /\ greedy d P G w P'
    /\ state_ok M cruces tau P' done'
    /\ (forall c, In c done' <-> In c G \/ In c done)
    /\ Forall (emitted d G) w.
Proof.
  induction n as [|n IH]; intros G tau P done braid Hlen ND ST HG.
  - destruct G; [|discriminate]. exists P, [], done. simpl.
    rewrite app_nil_r. split; [reflexivity|]. split; [constructor|].
    split; [exact ST|]. split; [tauto | constructor].
  - destruct G as [|g0 G0]; [discriminate|].
    cbn [resolve_same_t map].
    destruct (sort (key_crossing P g0 :: map (key_crossing P) G0)) as [|c' rest] eqn:Es.
    { apply (f_equal (@length _)) in Es. rewrite sort_length in Es. discriminate. }
    change (key_crossing P g0 :: map (key_crossing P) G0)
      with (map (key_crossing P) (g0 :: G0)) in Es.
    destruct (sort_head _ _ _ Es) as [HPm Hmin].
    symmetry in HPm. apply Permutation_map_inv in HPm.
    destruct HPm as [G1 [EG1 HP1]].
    destruct G1 as [|c G']; [discriminate|]. simpl in EG1.
    injection EG1 as -> ->.
    destruct (pending_step tau done _ G' c HG ND HP1) as [HG' [ND' Hc]].
    assert (Hminp : forall c'', In c'' (g0 :: G0) ->
              (pdiff P (c_k c) (c_j c) <= pdiff P (c_k c'') (c_j c''))%Z).
    { intros c'' I. apply (Permutation_in _ HP1) in I. destruct I as [<-|I]; [lia|].
      assert (L : le (key_crossing P c) (key_crossing P c'')).
      { apply Hmin. apply in_map. exact I. }
      apply cross_le_d in L.
      destruct c as [[[t k] j] s0], c'' as [[[t' k'] j'] s']. exact L. }
    pose proof (minimal_is_adjacent tau P done _ c ST HG Hc Hminp) as Hadj.
    pose proof (step_ok tau P done _ c ST HG Hc Hadj) as ST'.
    assert (Hlen' : length G' = n).
    { apply Permutation_length in HP1. simpl in HP1, Hlen. lia. }
    destruct (IH G' tau (transpose d P c) (c :: done)
                 (braid ++ [generator P (key_crossing P c)]) Hlen' ND' ST' HG')
      as [P' [w [done' [Hres [Hgr [ST'' [Hdone' Hem]]]]]]].
    exists P', (signed_generator P c :: w), done'.
    assert (Ekc : x_k (key_crossing P c) = c_k c /\ x_j (key_crossing P c) = c_j c)
      by (destruct c as [[[t k] j] s0]; split; reflexivity).
    destruct Ekc as [-> ->]. fold (transpose d P c).
    rewrite map_map. rewrite (map_ext _ _ (rekey_key P (transpose d P c))).
    rewrite Hres, generator_key, <- app_assoc. simpl.
    split; [reflexivity|].
    destruct HG as [HGin _]. destruct (HGin c Hc) as [Hin _].
    destruct (cruces_facts c Hin) as [Hkj [Hj _]].
    pose proof (pos_range d P (c_k c) (ok_perm _ _ _ _ _ ST) ltac:(lia)) as Rk.
    pose proof (pos_range d P (c_j c) (ok_perm _ _ _ _ _ ST) Hj) as Rj.
    split; [|split; [exact ST''|split]].
    + apply (greedy_pick d P (g0 :: G0) c G' w P' HP1); [|exact Hgr].
      intros c'' I. specialize (Hminp c'' I). unfold distance.
      rewrite !pdiff_pos in *. lia.
    + intros x. rewrite Hdone'. split.
      * intros [I|I].
        -- left. apply (@Permutation_in _ (c :: G') (g0 :: G0) x (Permutation_sym HP1)).
           right. exact I.
        -- destruct I as [<-|I]; [left; exact Hc | right; exact I].
      * intros [I|I]; [|right; right; exact I].
        apply (Permutation_in _ HP1) in I.
        destruct I as [<-|I]; [right; left; reflexivity | left; exact I].
    + constructor.
      * exists c, (pos P (c_k c)). split; [exact Hc|]. split; [lia|].
        unfold signed_generator. fold (pos P (c_k c)) (pos P (c_j c)).
        rewrite Hadj. f_equal. f_equal. lia.
      * eapply Forall_impl; [|exact Hem].
        intros g [c1 [p [I X]]]. exists c1, p. split; [|exact X].
        apply (@Permutation_in _ (c :: G') (g0 :: G0) c1 (Permutation_sym HP1)).
        right. exact I.
Qed.

(** The outer loop handles the times in increasing order. *)
Lemma resolve_spec (n : nat) :
  forall (remaining : list crossing) (P : perm) (done : list crossing)
         (braid : list Z),
  (length remaining <= n)%nat -> StronglySorted le remaining -> NoDup remaining ->
  outer_ok M cruces P done remaining ->
  exists w,
    resolve n d P remaining braid = Ok (braid ++ w)
    /\ process d P remaining w
    /\ Forall (emitted d remaining) w.
Proof.
  induction n as [|n IH]; intros remaining P done braid Hlen HS ND HO.
  - destruct remaining; [|simpl in Hlen; lia]. exists []. simpl.
    rewrite app_nil_r. repeat split; constructor.
  - destruct remaining as [|c0 r].
    { exists []. simpl. rewrite app_nil_r. repeat split; constructor. }
    cbn [resolve].
    set (G := filter (fun c => Qceqb (c_t c) (c_t c0)) (c0 :: r)).
    set (later := skipn (length G) (c0 :: r)).
    destruct HO as [HP [Hd [Hall [Hrem [Hlt Hinv]]]]].
    assert (Hhead : forall c, In c (c0 :: r) -> c_t c0 <= c_t c).
    { intros c [<-|Hc]; [apply Qcle_refl|].
      apply StronglySorted_inv in HS. destruct HS as [_ F].
      rewrite Forall_forall in F. apply crossing_le_t, F, Hc. }
    destruct (sorted_group_split (c0 :: r) (c_t c0) HS Hhead) as [Esplit [HGt Hlater]].
    fold G in Esplit, HGt, Hlater. fold later in Esplit, Hlater.
    assert (Hc0 : In c0 G).
    { apply filter_In. split; [left; reflexivity | apply Qceqb_refl]. }
    assert (HGsub : forall c, In c G -> In c (c0 :: r)).
    { intros c Hc. rewrite Esplit. apply in_or_app. left. exact Hc. }
    assert (HLsub : forall c, In c later -> In c (c0 :: r)).
    { intros c Hc. rewrite Esplit. apply in_or_app. right. exact Hc. }
    assert (ST : state_ok M cruces (c_t c0) P done).
    { split; [exact HP | | | exact Hinv].
      - intros c Hc. split; [apply Hd; exact Hc|].
        apply Qclt_le_weak. apply (Hlt c c0 Hc). left. reflexivity.
      - intros c Hc N. destruct (Hall c Hc) as [I|I]; [contradiction|].
        apply Hhead. exact I. }
    assert (PO : pending_ok cruces (c_t c0) done G).
    { split.
      - intros c Hc. destruct (Hrem c (HGsub c Hc)) as [H1 H2].
        split; [exact H1|]. split; [apply HGt; exact Hc | exact H2].
      - intros c Hc Ht N. destruct (Hall c Hc) as [I|I]; [contradiction|].
        rewrite Esplit in I. apply in_app_or in I. destruct I as [I|I]; [exact I|].
        apply Hlater in I. rewrite Ht in I. exfalso.
        exact (Qclt_not_eq _ _ I eq_refl). }
    assert (NDG : NoDup G) by (apply NoDup_filter; exact ND).
    rewrite length_map.
    destruct (resolve_same_t_spec (length G) G (c_t c0) P done braid
                eq_refl NDG ST PO)
      as [P' [w1 [done' [Hres [Hgr [ST' [Hdone' Hem1]]]]]]].
    rewrite Hres. cbn [bind].
    assert (Hlen' : (length later <= n)%nat).
    { apply (f_equal (@length _)) in Esplit. rewrite length_app in Esplit.
      simpl in Esplit, Hlen. destruct G; [destruct Hc0|]. simpl in Esplit. lia. }
    assert (HS' : StronglySorted le later).
    { apply (StronglySorted_app_r _ G). rewrite <- Esplit. exact HS. }
    assert (ND' : NoDup later).
    { apply (NoDup_app_remove_l G). rewrite <- Esplit. exact ND. }
    assert (NDsplit : NoDup (G ++ later)) by (rewrite <- Esplit; exact ND).
    assert (HO' : outer_ok M cruces P' done' later).
    { split; [apply ST'|]. split; [|split; [|split; [|split]]].
      - intros c Hc. apply Hdone' in Hc. destruct Hc as [Hc|Hc]; [|auto].
        apply Hrem, HGsub, Hc.
      - intros c Hc. destruct (Hall c Hc) as [I|I].
        + left. apply Hdone'. right. exact I.
        + rewrite Esplit in I. apply in_app_or in I. destruct I as [I|I]; [|auto].
          left. apply Hdone'. left. exact I.
      - intros c Hc. split; [apply Hrem, HLsub, Hc|].
        intros I. apply Hdone' in I. destruct I as [I|I].
        + pose proof (Hlater c Hc) as L. rewrite (HGt c I) in L.
          exact (Qclt_not_eq _ _ L eq_refl).
        + destruct (Hrem c (HLsub c Hc)) as [_ N]. contradiction.
      - intros c c' Hc Hc'. apply Hdone' in Hc. destruct Hc as [Hc|Hc].
        + rewrite (HGt c Hc). apply Hlater. exact Hc'.
        + eapply Qclt_trans; [apply (Hlt c c0 Hc); left; reflexivity|].
          apply Hlater. exact Hc'.
      - apply ST'. }
    destruct (IH later P' done' (braid ++ w1) Hlen' HS' ND' HO')
      as [w2 [Hres2 [Hpr2 Hem2]]].
    exists (w1 ++ w2). fold G. fold later. rewrite Hres2, app_assoc.
    split; [reflexivity|]. split.
    + apply (process_group d P (c0 :: r) (c_t c0) G later w1 P' w2).
      * intros X. rewrite X in Hc0. destruct Hc0.
      * rewrite <- Esplit. apply Permutation_refl.
      * exact HGt.
      * exact Hlater.
      * exact Hgr.
      * exact Hpr2.
    + apply Forall_app. split.
      * eapply Forall_impl; [|exact Hem1].
        intros g [c [p [I X]]]. exists c, p. split; [apply HGsub; exact I | exact X].
      * eapply Forall_impl; [|exact Hem2].
        intros g [c [p [I X]]]. exists c, p. split; [apply HLsub; exact I | exact X].
Qed.

End SliceFacts.

(** *** One slice *)
Lemma zip_columns (l1 l2 : list pt) :
  length l1 = length l2 ->
  mapM (fun s => a <- index l1 s ;; b <- index l2 s ;; Ok (a, b)) (seq 0 (length l1))
  = Ok (combine l1 l2).
Proof.
  intros Hlen.
  rewrite (mapM_map _ (fun s => (nth s l1 (0, 0), nth s l2 (0, 0)))).
  - f_equal. apply (nth_ext _ _ ((0, 0), (0, 0)) ((0, 0), (0, 0))).
    + rewrite length_map, length_seq, length_combine. lia.
    + intros n Hn. rewrite length_map, length_seq in Hn.
      rewrite (nth_map_lt _ _ _ 0%nat) by (rewrite length_seq; exact Hn).
      rewrite seq_nth by exact Hn. rewrite combine_nth by exact Hlen. reflexivity.
  - apply Forall_forall. intros s Hs. apply in_seq in Hs.
    rewrite (index_nth l1 s (0, 0)) by lia.
    rewrite (index_nth l2 s (0, 0)) by lia. reflexivity.
Qed.

Lemma sorted_pairs_length (l1 l2 : list pt) :
  length l1 = length l2 -> length (sorted_pairs l1 l2) = length l1.
Proof.
  intros H. unfold sorted_pairs. rewrite sort_length, length_combine. lia.
Qed.

Lemma slice_unfold (d : nat) (l1 l2 : list pt) (braid : list Z) :
  length l1 = length l2 ->
  slice d l1 l2 braid =
  (cruces <- slice_cruces l1 l2 ;;
   if (0 <? length cruces)%nat
   then resolve (length cruces) d (perm_id d) (sort cruces) braid
   else Ok braid).
Proof.
  intros H. unfold slice. rewrite (zip_columns l1 l2 H). reflexivity.
Qed.

Lemma slice_spec (d : nat) (l1 l2 : list pt) (braid : list Z) (cruces : list crossing) :
  length l1 = d -> length l2 = d ->
  slice_cruces l1 l2 = Ok cruces ->
  exists w,
    slice d l1 l2 braid = Ok (braid ++ w)
    /\ process d (perm_id d) (sort cruces) w
    /\ Forall (emitted d cruces) w.
Proof.
  intros H1 H2 Hc. rewrite slice_unfold by congruence. rewrite Hc. cbn [bind].
  destruct (0 <? length cruces)%nat eqn:E.
  - pose proof (sorted_pairs_length l1 l2 ltac:(congruence)) as HM. rewrite H1 in HM.
    assert (HO : outer_ok (sorted_pairs l1 l2) cruces (perm_id d) [] (sort cruces)).
    { rewrite <- HM at 1. unfold outer_ok. rewrite HM.
      split; [apply perm_id_is_perm|]. split; [intros c []|].
      split; [intros c I; right; apply (Permutation_in _ (Permutation_sym (sort_perm cruces))); exact I|].
      split; [intros c I; split; [apply (Permutation_in _ (sort_perm cruces)); exact I | intros []]|].
      split; [intros c c' []|].
      intros k j Hkj Hj. rewrite !pos_perm_id by lia.
      split; [lia | intros [c [[] _]]]. }
    destruct (resolve_spec (sorted_pairs l1 l2) (sort_sorted _) cruces Hc
                (length cruces) (sort cruces) (perm_id d) [] braid
                ltac:(rewrite sort_length; lia) (sort_sorted _)
                (Permutation_NoDup (Permutation_sym (sort_perm cruces))
                   (find_cruces_NoDup _ _ _ Hc)) HO)
      as [w [Hres [Hpr Hem]]].
    rewrite HM in Hres, Hpr, Hem. exists w. split; [exact Hres|]. split; [exact Hpr|].
    eapply Forall_impl; [|exact Hem].
    intros g [c [p [I X]]]. exists c, p. split; [|exact X].
    apply (Permutation_in _ (sort_perm cruces)). exact I.
  - exists []. rewrite app_nil_r. split; [reflexivity|].
    destruct cruces; [|discriminate]. split; constructor.
Qed.

Lemma slice_inv (d : nat) (l1 l2 : list pt) (braid braid' : list Z) :
  length l1 = d -> length l2 = d ->
  slice d l1 l2 braid = Ok braid' ->
  exists cruces w,
    slice_cruces l1 l2 = Ok cruces
    /\ braid' = braid ++ w
    /\ process d (perm_id d) (sort cruces) w
    /\ Forall (emitted d cruces) w.
Proof.
  intros H1 H2 H. pose proof H as H0.
  rewrite slice_unfold in H by congruence. inv_bind H.
  destruct (slice_spec d l1 l2 braid v H1 H2 E) as [w [Hres [Hpr Hem]]].
  exists v, w. split; [exact E|]. split; [congruence | auto].
Qed.

(** ** The table of merged points *)

Lemma for_body_shape (i : Qc) (L : list strand) :
  forall (tp : list (list pt)) (idx : list nat) (tp' : list (list pt))
         (idx' : list nat) (n : nat),
  for_body i L tp idx = Ok (tp', idx') ->
  length tp = length L -> rectangular tp n ->
  length tp' = length L /\ length idx' = length L /\ rectangular tp' (S n).
Proof.
  induction L as [|Lj L IH]; intros tp idx tp' idx' n H Hlen Hrect.
  - simpl in H. inv_ok. repeat split; constructor.
  - destruct tp as [|tpj tp]; [discriminate|].
    destruct idx as [|ij idx]; [discriminate|].
    simpl in H. inv_bind H. destruct v as [p ij'].
    inv_bind H. destruct v as [tp'' idx'']. inv_ok.
    apply Forall_cons_iff in Hrect. destruct Hrect as [Hj Hrect].
    destruct (IH tp idx tp'' idx'' n E0 ltac:(simpl in Hlen; lia) Hrect)
      as [H1 [H2 H3]].
    simpl. repeat split; try lia.
    constructor; [rewrite length_app; simpl; lia | exact H3].
Qed.

Lemma merge_loop_shape (fuel : nat) (L : list strand) :
  forall (i : Qc) (tp : list (list pt)) (idx : list nat) (tp' : list (list pt))
         (n : nat),
  merge_loop fuel L i tp idx = Ok tp' ->
  length tp = length L -> rectangular tp n ->
  length tp' = length L /\ exists n', (n <= n')%nat /\ rectangular tp' n'.
Proof.
  induction fuel as [|fuel IH]; intros i tp idx tp' n H Hlen Hrect.
  - simpl in H. destruct (Qcltb i 1); [discriminate|]. inv_ok.
    split; [exact Hlen | exists n; auto].
  - simpl in H. destruct (Qcltb i 1).
    + inv_bind H. destruct v as [tp1 idx1]. inv_bind H. inv_bind H.
      destruct (for_body_shape _ _ _ _ _ _ _ E Hlen Hrect) as [H1 [_ H3]].
      destruct (IH _ _ _ _ _ H H1 H3) as [H4 [n' [Hn' H5]]].
      split; [exact H4 | exists n'; split; [lia | exact H5]].
    + inv_ok. split; [exact Hlen | exists n; auto].
Qed.

Lemma append_last_shape (L : list strand) :
  forall (tp tp' : list (list pt)) (n : nat),
  append_last L tp = Ok tp' -> length tp = length L -> rectangular tp n ->
  length tp' = length L /\ rectangular tp' (S n).
Proof.
  induction L as [|Lj L IH]; intros tp tp' n H Hlen Hrect.
  - simpl in H. inv_ok. split; constructor.
  - destruct tp as [|tpj tp]; [discriminate|].
    simpl in H. inv_bind H. inv_bind H. inv_ok.
    apply Forall_cons_iff in Hrect. destruct Hrect as [Hj Hrect].
    destruct (IH tp v0 n E0 ltac:(simpl in Hlen; lia) Hrect) as [H1 H2].
    simpl. split; [lia|].
    constructor; [rewrite length_app; simpl; lia | exact H2].
Qed.

Lemma merge_shape (L : list strand) (tp : list (list pt)) :
  merge L = Ok tp ->
  length tp = length L /\ exists n, rectangular tp (S (S n)).
Proof.
  unfold merge. intros H. inv_bind H. inv_bind H. inv_bind H. inv_bind H.
  assert (H0 : length v1 = length L /\ rectangular v1 1).
  { split; [eapply mapM_length; exact E1|].
    apply mapM_Ok in E1. unfold rectangular.
    clear - E1. induction E1 as [|a r L tp Ha _ IH]; constructor; [|exact IH].
    inv_bind Ha. inv_ok. reflexivity. }
  destruct H0 as [Hlen Hrect].
  destruct (merge_loop_shape _ _ _ _ _ _ _ E2 Hlen Hrect) as [H1 [n' [Hn' H2]]].
  destruct (append_last_shape _ _ _ _ H H1 H2) as [H3 H4].
  split; [exact H3|]. destruct n' as [|n']; [lia|]. exists n'. exact H4.
Qed.

Lemma column_Ok (tp : list (list pt)) (n i : nat) :
  rectangular tp n -> (i < n)%nat ->
  exists l, column tp i = Ok l /\ length l = length tp.
Proof.
  intros Hrect Hi. unfold column.
  destruct (mapM_total (fun tpj => index tpj i) tp) as [l Hl].
  - eapply Forall_impl; [|exact Hrect]. intros r Hr. cbv beta in Hr.
    apply index_lt. lia.
  - exists l. split; [exact Hl | eapply mapM_length; exact Hl].
Qed.

(** *** All slices *)

Lemma process_perm (d : nat) (P : perm) (l l' : list crossing) (w : list Z) :
  Permutation l l' -> process d P l w -> process d P l' w.
Proof.
  intros HP H. destruct H as [P|P cr t group later w1 P' w2 Hne Hperm Hg Hl Hgr Hpr].
  - apply Permutation_nil in HP. subst. constructor.
  - apply (process_group d P l' t group later w1 P' w2); auto.
    rewrite <- HP. exact Hperm.
Qed.

Lemma slices_spec (d : nat) (tp : list (list pt)) (n : nat) :
  length tp = d -> rectangular tp n ->
  forall (range : list nat) (braid braid' : list Z),
  (forall i, In i range -> (i + 1 < n)%nat) ->
  slices d tp range braid = Ok braid' ->
  exists ws, braid' = braid ++ concat ws
             /\ Forall2 (slice_processed d tp) range ws.
Proof.
  intros Hd Hrect. induction range as [|i range IH]; intros braid braid' Hr H.
  - simpl in H. inv_ok. exists []. simpl. rewrite app_nil_r. split; constructor.
  - simpl in H. inv_bind H. inv_bind H. inv_bind H.
    rename v into l1, v0 into l2, v1 into braid1.
    assert (L1 : length l1 = d).
    { unfold column in E. apply mapM_length in E. congruence. }
    assert (L2 : length l2 = d).
    { unfold column in E0. apply mapM_length in E0. congruence. }
    destruct (slice_inv d l1 l2 braid braid1 L1 L2 E1)
      as [cruces [w [Hc [-> [Hpr Hem]]]]].
    destruct (IH _ _ (fun j Hj => Hr j (or_intror Hj)) H) as [ws [-> HF]].
    exists (w :: ws). simpl. rewrite app_assoc. split; [reflexivity|].
    constructor; [|exact HF].
    exists l1, l2, cruces. repeat (split; [assumption|]). split; [|exact Hem].
    apply (process_perm d _ (sort cruces)); [apply sort_perm | exact Hpr].
Qed.

Lemma braid_word_spec (strands : list strand) (w : list Z) :
  braid_word strands = Ok w ->
  exists tp n ws,
    merge strands = Ok tp /\ length tp = length strands
    /\ rectangular tp (S (S n))
    /\ w = concat ws
    /\ Forall2 (slice_processed (length strands) tp) (seq 0 (S n)) ws.
Proof.
  unfold braid_word. intros H. inv_bind H. inv_bind H. rename v into tp.
  destruct (merge_shape _ _ E) as [Hlen [n Hrect]].
  assert (Hv0 : length v0 = S (S n)).
  { apply index_Ok in E0. apply nth_error_In in E0.
    unfold rectangular in Hrect. rewrite Forall_forall in Hrect. auto. }
  rewrite Hv0 in H. replace (S (S n) - 1)%nat with (S n) in H by lia.
  rewrite Hlen in H.
  destruct (slices_spec (length strands) tp (S (S n)) Hlen Hrect (seq 0 (S n)) [] w)
    as [ws [Hw HF]]; [intros i Hi; apply in_seq in Hi; lia | exact H |].
  exists tp, n, ws. auto.
Qed.

(** ** BraidExtractor: the claims *)
Lemma cmp_cases (x y : Qc) :
  (y < x -> cmp x y = 1%Z) /\ (x < y -> cmp x y = (-1)%Z) /\ (x = y -> cmp x y = 0%Z).
Proof.
  unfold cmp. repeat split; intros H.
  - assert (E : (x ?= y) = Gt) by (apply Qcgt_alt; exact H).
    rewrite E. reflexivity.
  - assert (E : (x ?= y) = Lt) by (apply Qclt_alt; exact H).
    rewrite E. reflexivity.
  - assert (E : (x ?= y) = Eq) by (apply Qceq_alt; exact H).
    rewrite E. reflexivity.
Qed.

Lemma pair_le_snd {A B : Type} `{OrderLaws A} `{OrderLaws B} (x y : A * B) :
  fst x = fst y -> le x y -> le (snd x) (snd y).
Proof.
  intros E. unfold le, ltb. unfold ocompare at 1. unfold Order_prod.
  rewrite E, ocompare_refl. auto.
Qed.

Lemma sorted_pairs_nth (l1 l2 : list pt) (k j : nat) :
  (k < j)%nat -> (j < length (sorted_pairs l1 l2))%nat ->
  le (point_at (map fst (sorted_pairs l1 l2)) k, point_at (map snd (sorted_pairs l1 l2)) k)
     (point_at (map fst (sorted_pairs l1 l2)) j, point_at (map snd (sorted_pairs l1 l2)) j).
Proof.
  intros Hkj Hj.
  pose proof (StronglySorted_nth _ _ ((0, 0), (0, 0))
                (sort_sorted (combine l1 l2)) k j Hkj Hj) as H.
  fold (sorted_pairs l1 l2) in H. unfold point_at.
  pose proof (Nat.lt_trans _ _ _ Hkj Hj) as Hk.
  rewrite (nth_map_lt fst _ k ((0, 0), (0, 0))) by exact Hk.
  rewrite (nth_map_lt snd _ k ((0, 0), (0, 0))) by exact Hk.
  rewrite (nth_map_lt fst _ j ((0, 0), (0, 0))) by exact Hj.
  rewrite (nth_map_lt snd _ j ((0, 0), (0, 0))) by exact Hj.
  rewrite <- !surjective_pairing. exact H.
Qed.

(** What is recorded for a crossing: the real parts of the two strands
    meet at its time, and its sign compares their imaginary parts there. *)
Lemma slice_crossing_facts (l1 l2 : list pt) (cruces : list crossing) (c : crossing) :
  length l1 = length l2 ->
  slice_cruces l1 l2 = Ok cruces ->
  In c cruces ->
  let A := map fst (sorted_pairs l1 l2) in
  let B := map snd (sorted_pairs l1 l2) in
  (c_k c < c_j c)%nat /\ (c_j c < length l1)%nat
  /\ re_at A B (c_k c) (c_t c) = re_at A B (c_j c) (c_t c)
  /\ (im_at A B (c_j c) (c_t c) < im_at A B (c_k c) (c_t c) -> c_sign c = (-1)%Z)
  /\ (im_at A B (c_k c) (c_t c) < im_at A B (c_j c) (c_t c) -> c_sign c = 1%Z)
  /\ (im_at A B (c_k c) (c_t c) = im_at A B (c_j c) (c_t c) -> c_sign c = 0%Z).
Proof.
  intros Hlen Hc Hin A B.
  pose proof (sorted_pairs_length l1 l2 Hlen) as HM.
  destruct (cruces_facts _ _ Hc c Hin) as [Hkj [Hj [_ [_ [_ Hs]]]]].
  fold A B in Hs.
  split; [exact Hkj|]. split; [lia|]. split.
  - pose proof (re_diff _ _ Hc c (c_t c) Hin) as D. fold A B in D.
    generalize dependent (slice_den A B (c_k c) (c_j c)). intros den D.
    generalize dependent (re_at A B (c_k c) (c_t c)).
    generalize dependent (re_at A B (c_j c) (c_t c)). intros rj rk D.
    qc2q. lra.
  - destruct (cmp_cases (im_at A B (c_k c) (c_t c)) (im_at A B (c_j c) (c_t c)))
      as [C1 [C2 C3]].
    rewrite Hs. split; [|split]; intros X.
    + rewrite (C1 X). reflexivity.
    + rewrite (C2 X). reflexivity.
    + rewrite (C3 X). reflexivity.
Qed.


Lemma braid_from_piecewise_word (strands : list strand) (w : list Z) :
  braid_word strands = Ok w ->
  braid_from_piecewise strands = Ok w
  \/ braid_from_piecewise strands = Raise ValueError.
Proof.
  intros H. unfold braid_from_piecewise, BraidGroup. rewrite H. cbn [bind].
  destruct (forallb _ w); auto.
Qed.





Lemma valid_generator_spec (d : nat) (g : Z) :
  valid_generator d g = true <-> braid_generator d g.
Proof.
  unfold valid_generator, braid_generator.
  rewrite andb_true_iff, negb_true_iff, Z.eqb_neq, Z.leb_le. lia.
Qed.

(** The entries of the list [braid] are generators, and Sage accepts the
    list, when no two strands coincide at the time of a crossing. *)
Lemma generators_accepted
    (strands : list strand) (tp : list (list pt)) (w : list Z) :
  merge strands = Ok tp -> no_coincidence tp ->
  braid_word strands = Ok w ->
  Forall (braid_generator (length strands)) w
  /\ braid_from_piecewise strands = Ok w.
Proof.
  intros Hm Hno H.
  destruct (braid_word_spec strands w H)
    as [tp' [n [ws [Hm' [Hlen [Hrect [Hw HF]]]]]]].
  assert (tp' = tp) by congruence. subst tp'.
  assert (HV : Forall (braid_generator (length strands)) w).
  { subst w. apply Forall_concat.
    clear - HF Hno. induction HF as [|i wi range ws Hi _ IH]; constructor; [|exact IH].
    destruct Hi as [l1 [l2 [cruces [H1 [H2 [H3 [_ Hem]]]]]]].
    eapply Forall_impl; [|exact Hem].
    intros g [c [p [Hin [Hp ->]]]].
    specialize (Hno i l1 l2 cruces c H1 H2 H3 Hin). cbv zeta in Hno.
    assert (Hl : length l1 = length l2).
    { unfold column in H1, H2. apply mapM_length in H1, H2. congruence. }
    destruct (slice_crossing_facts l1 l2 cruces c Hl H3 Hin)
      as [_ [_ [Hre [Hneg [Hpos _]]]]].
    set (A := map fst (sorted_pairs l1 l2)) in *.
    set (B := map snd (sorted_pairs l1 l2)) in *.
    assert (Him : im_at A B (c_k c) (c_t c) <> im_at A B (c_j c) (c_t c)).
    { intros E. apply Hno. rewrite Hre, E. reflexivity. }
    assert (Hs : c_sign c = (-1)%Z \/ c_sign c = 1%Z).
    { destruct (Qc_dec (im_at A B (c_k c) (c_t c)) (im_at A B (c_j c) (c_t c)))
        as [[L|L]|E]; [right; auto | left; auto | contradiction]. }
    unfold braid_generator. destruct Hs as [-> | ->]; lia. }
  split; [exact HV|].
  unfold braid_from_piecewise, BraidGroup. rewrite H. cbn [bind].
  assert (F : forallb (valid_generator (length strands)) w = true).
  { apply forallb_forall. rewrite Forall_forall in HV.
    intros g Hg. apply valid_generator_spec. auto. }
  rewrite F. reflexivity.
Qed.


(** ** Parallel strands *)

Lemma find_cruces_none (l1 l2 : list pt) :
  (forall k j, (k < j)%nat -> (j < length l2)%nat ->
     pt_ltb (point_at l2 j) (point_at l2 k) = false) ->
  find_cruces l1 l2 = Ok [].
Proof.
  intros H. unfold find_cruces.
  rewrite (mapM_map _ (fun _ => [])).
  - cbn [bind]. f_equal. induction (seq 0 (length l2)); simpl; auto.
  - apply Forall_forall. intros j Hj. apply in_seq in Hj.
    rewrite (mapM_map _ (fun _ => [])).
    + cbn [bind]. f_equal. induction (seq 0 j); simpl; auto.
    + apply Forall_forall. intros k Hk. apply in_seq in Hk.
      unfold crossing_at.
      rewrite (index_nth l2 j (0, 0)) by lia. cbn [bind].
      rewrite (index_nth l2 k (0, 0)) by lia. cbn [bind].
      fold (point_at l2 j) (point_at l2 k). rewrite H by lia. reflexivity.
Qed.

Lemma combine_nth_In (l1 l2 : list pt) (m : pt * pt) :
  length l1 = length l2 -> In m (combine l1 l2) ->
  exists a, (a < length l1)%nat /\ m = (point_at l1 a, point_at l2 a).
Proof.
  intros Hlen Hin. apply (In_nth _ _ ((0, 0), (0, 0))) in Hin.
  destruct Hin as [a [Ha E]]. rewrite length_combine in Ha.
  exists a. split; [lia|]. rewrite <- E. unfold point_at.
  apply combine_nth. exact Hlen.
Qed.

Lemma parallel_slice (d : nat) (l1 l2 : list pt) (braid : list Z) :
  length l1 = length l2 ->
  (forall a b, (a < length l1)%nat -> (b < length l1)%nat ->
     ocompare (point_at l1 a) (point_at l1 b) = ocompare (point_at l2 a) (point_at l2 b)) ->
  slice d l1 l2 braid = Ok braid.
Proof.
  intros Hlen Hpar. rewrite slice_unfold by exact Hlen.
  unfold slice_cruces. rewrite find_cruces_none; [reflexivity|].
  intros k j Hkj Hj. rewrite length_map in Hj.
  pose proof (sorted_pairs_nth l1 l2 k j Hkj Hj) as Hle.
  set (M := sorted_pairs l1 l2) in *.
  assert (HinM : forall x, (x < length M)%nat ->
            exists a, (a < length l1)%nat
              /\ (point_at (map fst M) x, point_at (map snd M) x)
                 = (point_at l1 a, point_at l2 a)).
  { intros x Hx. apply (combine_nth_In l1 l2 _ Hlen).
    apply (Permutation_in _ (sort_perm (combine l1 l2))).
    fold (sorted_pairs l1 l2). fold M. unfold point_at.
    rewrite (nth_map_lt fst _ x ((0, 0), (0, 0))) by exact Hx.
    rewrite (nth_map_lt snd _ x ((0, 0), (0, 0))) by exact Hx.
    rewrite <- surjective_pairing. apply nth_In. exact Hx. }
  destruct (HinM k ltac:(lia)) as [a [Ha Ea]].
  destruct (HinM j Hj) as [b [Hb Eb]].
  injection Ea as Ea1 Ea2. injection Eb as Eb1 Eb2.
  apply pair_le_fst in Hle. simpl in Hle.
  rewrite Ea1, Eb1 in Hle. rewrite Ea2, Eb2.
  unfold le, ltb in Hle. unfold pt_ltb, ltb.
  rewrite <- (Hpar b a Hb Ha). exact Hle.
Qed.

Lemma parallel_slices (d : nat) (tp : list (list pt)) (n : nat) :
  rectangular tp n -> parallel tp ->
  forall (range : list nat) (braid : list Z),
  (forall i, In i range -> (i + 1 < n)%nat) ->
  slices d tp range braid = Ok braid.
Proof.
  intros Hrect Hpar. induction range as [|i range IH]; intros braid Hr; [reflexivity|].
  simpl.
  destruct (column_Ok tp n i Hrect) as [l1 [H1 L1]];
    [specialize (Hr i (or_introl eq_refl)); lia|].
  destruct (column_Ok tp n (i + 1) Hrect) as [l2 [H2 L2]];
    [apply Hr; left; reflexivity|].
  rewrite H1, H2. cbn [bind].
  rewrite parallel_slice; [|congruence|apply (Hpar i l1 l2 H1 H2)].
  cbn [bind]. apply IH. intros j Hj. apply Hr. right. exact Hj.
Qed.

(** No crossing is recorded when the strands keep their relative order
    from every column of [totalpoints] to the next one. *)
Lemma parallel_table_gives_the_empty_braid
    (strands : list strand) (tp : list (list pt)) :
  merge strands = Ok tp -> parallel tp ->
  braid_from_piecewise strands = Ok [].
Proof.
  intros Hm Hpar. destruct (merge_shape _ _ Hm) as [Hlen [n Hrect]].
  unfold braid_from_piecewise, braid_word. rewrite Hm. cbn [bind].
  destruct tp as [|r tp].
  { exfalso. unfold merge in Hm. destruct strands; [|discriminate].
    simpl in Hm. discriminate. }
  cbn [index nth_error bind].
  rewrite (parallel_slices _ _ (S (S n)) Hrect Hpar).
  - reflexivity.
  - intros i Hi. apply in_seq in Hi.
    apply Forall_inv in Hrect. lia.
Qed.


(** ** The merge onto common times

    For strands in the shape of the data model -- at least two samples,
    times strictly increasing, the last time equal to 1 -- the merge loop
    never fails: it visits the sample times below 1 in increasing order
    ([common_times]) and records for each of them the position of every
    strand ([strand_at]). *)

Lemma strand_at_cons (s0 s1 : sample) (r : strand) (t : Qc) :
  strand_at (s0 :: s1 :: r) t =
  if Qcltb t (fst s1) then interpolate s0 s1 t
  else if Qceqb t (fst s1) then pt_of (snd s1)
  else strand_at (s1 :: r) t.
Proof. reflexivity. Qed.

Lemma strand_at_cursor (s : strand) :
  forall (idx : nat) (i : Qc),
  cursor s idx i ->
  strand_at s i =
  if Qcltb i (time_at s idx)
  then interpolate (nth (idx - 1) s (0, Cx 0 0)) (nth idx s (0, Cx 0 0)) i
  else pt_of (snd (nth idx s (0, Cx 0 0))).
Proof.
  induction s as [|s0 r IH]; intros idx i [H1 [H2 [H3 H4]]]; [simpl in H2; lia|].
  destruct r as [|s1 r']; [simpl in H2; lia|].
  rewrite strand_at_cons.
  destruct idx as [|[|m]]; [lia| |].
  - unfold time_at in *. simpl in H4 |- *.
    destruct (Qcltb i (fst s1)) eqn:E; [reflexivity|].
    apply Qcltb_ge in E.
    rewrite (proj2 (Qceqb_eq i (fst s1)) (Qcle_antisym _ _ H4 E)). reflexivity.
  - assert (L : fst s1 < i) by (apply (H3 1%nat); lia).
    rewrite (proj2 (Qcltb_ge i (fst s1)) (Qclt_le_weak _ _ L)).
    rewrite (proj2 (Qceqb_neq i (fst s1)));
      [|intros X; rewrite X in L; exact (Qclt_not_eq _ _ L eq_refl)].
    rewrite (IH (S m) i).
    + unfold time_at. simpl. replace (m - 0)%nat with m by lia. reflexivity.
    + split; [lia|]. split; [simpl in H2 |- *; lia|]. split.
      * intros q Hq1 Hq2. apply (H3 (S q)); lia.
      * exact H4.
Qed.

Lemma cdiv_Ok (a : complex) (r : Qc) : r <> 0 -> cdiv a r = Ok (cquot a r).
Proof.
  intros H. unfold cdiv. rewrite (proj2 (Qceqb_neq r 0) H). reflexivity.
Qed.

Lemma advance_correct (s : strand) (idx : nat) (i : Qc) :
  wf_strand s -> cursor s idx i -> i < 1 ->
  advance i s idx = Ok (strand_at s i, step_index i s idx)
  /\ (step_index i s idx < length s)%nat
  /\ (forall q, (1 <= q)%nat -> (q < step_index i s idx)%nat -> time_at s q <= i)
  /\ i < time_at s (step_index i s idx).
Proof.
  intros [W1 [W2 W3]] C Hi. pose proof C as [H1 [H2 [H3 H4]]].
  rewrite (strand_at_cursor s idx i C).
  unfold advance, step_index.
  rewrite (index_nth s idx (0, Cx 0 0)) by exact H2. cbn [bind].
  fold (time_at s idx).
  destruct (Qcltb i (time_at s idx)) eqn:E.
  - rewrite (index_nth s (idx - 1) (0, Cx 0 0)) by lia. cbn [bind].
    rewrite cdiv_Ok.
    + split; [reflexivity|]. split; [exact H2|]. split.
      * intros q Hq1 Hq2. apply Qclt_le_weak. apply H3; assumption.
      * apply Qcltb_lt. exact E.
    + fold (time_at s idx) (time_at s (idx - 1)).
      pose proof (W2 (idx - 1)%nat idx ltac:(lia) H2) as L.
      intros X. qc2q. lra.
  - apply Qcltb_ge in E.
    assert (Ei : time_at s idx = i) by (apply Qcle_antisym; assumption).
    assert (Hlast : (S idx < length s)%nat).
    { destruct (Nat.eq_dec idx (length s - 1)) as [X|X]; [|lia].
      rewrite X, W3 in Ei. rewrite <- Ei in Hi.
      exfalso. exact (Qclt_not_eq _ _ Hi eq_refl). }
    split; [reflexivity|]. split; [exact Hlast|]. split.
    + intros q Hq1 Hq2. destruct (Nat.eq_dec q idx) as [->|N].
      * rewrite Ei. apply Qcle_refl.
      * apply Qclt_le_weak. apply H3; lia.
    + rewrite <- Ei. apply W2; lia.
Qed.

Lemma Qcmin_le_l (x y : Qc) : Qcmin x y <= x.
Proof.
  unfold Qcmin. destruct (Qcltb y x) eqn:E; [|apply Qcle_refl].
  apply Qclt_le_weak, Qcltb_lt, E.
Qed.

Lemma Qcmin_le_r (x y : Qc) : Qcmin x y <= y.
Proof.
  unfold Qcmin. destruct (Qcltb y x) eqn:E; [apply Qcle_refl|].
  apply Qcltb_ge, E.
Qed.

Lemma Qcmin_cases (x y : Qc) : Qcmin x y = x \/ Qcmin x y = y.
Proof. unfold Qcmin. destruct (Qcltb y x); auto. Qed.

Lemma fold_Qcmin_le (xs : list Qc) (x : Qc) :
  fold_left Qcmin xs x <= x /\ forall y, In y xs -> fold_left Qcmin xs x <= y.
Proof.
  revert x. induction xs as [|z r IH]; intros x; simpl.
  - split; [apply Qcle_refl | intros y []].
  - destruct (IH (Qcmin x z)) as [H1 H2]. split.
    + eapply Qcle_trans; [exact H1 | apply Qcmin_le_l].
    + intros y [<-|Hy]; [|auto].
      eapply Qcle_trans; [exact H1 | apply Qcmin_le_r].
Qed.

Lemma fold_Qcmin_in (xs : list Qc) (x : Qc) :
  fold_left Qcmin xs x = x \/ In (fold_left Qcmin xs x) xs.
Proof.
  revert x. induction xs as [|z r IH]; intros x; simpl; auto.
  destruct (IH (Qcmin x z)) as [H|H]; [|auto].
  rewrite H. destruct (Qcmin_cases x z) as [->| ->]; auto.
Qed.

(** [min(xs)] is the least element of a non-empty list. *)
Lemma min_list_spec (xs : list Qc) (m : Qc) :
  min_list xs = Ok m <-> In m xs /\ forall y, In y xs -> m <= y.
Proof.
  split.
  - destruct xs as [|x r]; simpl; intros H; inv_ok.
    destruct (fold_Qcmin_le r x) as [H1 H2]. split.
    + destruct (fold_Qcmin_in r x) as [->|H3]; auto.
    + intros y [<-|Hy]; auto.
  - intros [Hin Hmin]. destruct xs as [|x r]; [destruct Hin|]. simpl. f_equal.
    destruct (fold_Qcmin_le r x) as [H1 H2].
    apply Qcle_antisym.
    + destruct Hin as [<-|Hin]; auto.
    + apply Hmin. destruct (fold_Qcmin_in r x) as [->|H3]; [left | right]; auto.
Qed.

Lemma min_list_nonempty (xs : list Qc) : xs <> [] -> exists m, min_list xs = Ok m.
Proof. destruct xs; [congruence|]. simpl. eauto. Qed.

Lemma all_times_In (L : list strand) (u : Qc) :
  In u (all_times L) <->
  exists s q, In s L /\ (1 <= q)%nat /\ (q < length s)%nat /\ u = time_at s q.
Proof.
  unfold all_times. rewrite in_flat_map. split.
  - intros [s [Hs Hu]]. destruct s as [|s0 r]; [destruct Hu|]. simpl in Hu.
    apply (In_nth _ _ 0) in Hu. destruct Hu as [n [Hn E]].
    rewrite length_map in Hn.
    exists (s0 :: r), (S n). split; [exact Hs|]. split; [lia|].
    split; [exact (proj1 (Nat.succ_lt_mono _ _) Hn)|]. unfold time_at. simpl.
    rewrite <- E. apply (nth_map_lt fst r n (0, Cx 0 0) 0 Hn).
  - intros [s [q [Hs [Hq1 [Hq2 ->]]]]]. exists s. split; [exact Hs|].
    destruct s as [|s0 r]; [simpl in Hq2; lia|]. destruct q as [|q]; [lia|].
    unfold time_at. simpl. apply in_map. apply nth_In. simpl in Hq2. lia.
Qed.

Lemma filter_length_lt {A : Type} (f g : A -> bool) (l : list A) :
  (forall x, In x l -> f x = true -> g x = true) ->
  (exists x, In x l /\ g x = true /\ f x = false) ->
  (length (filter f l) < length (filter g l))%nat.
Proof.
  assert (Hle : forall l0 : list A, (forall x, In x l0 -> f x = true -> g x = true) ->
                  (length (filter f l0) <= length (filter g l0))%nat).
  { induction l0 as [|a r IH]; intros H; simpl; [lia|].
    specialize (IH (fun x Hx => H x (or_intror Hx))).
    destruct (f a) eqn:Ef.
    - rewrite (H a (or_introl eq_refl) Ef). simpl. lia.
    - destruct (g a); simpl; lia. }
  induction l as [|a r IH]; intros H [x [Hx [Hg Hf]]]; [destruct Hx|].
  simpl. destruct Hx as [->|Hx].
  - rewrite Hf, Hg. simpl.
    specialize (Hle r (fun y Hy => H y (or_intror Hy))). lia.
  - assert (IH' : (length (filter f r) < length (filter g r))%nat).
    { apply IH; [intros y Hy; apply H; right; exact Hy | exists x; auto]. }
    destruct (f a) eqn:Ef.
    + rewrite (H a (or_introl eq_refl) Ef). simpl. lia.
    + destruct (g a); simpl; lia.
Qed.

Lemma all_times_length (L : list strand) :
  (length (all_times L) <= merge_fuel L)%nat.
Proof.
  unfold all_times, merge_fuel. induction L as [|s r IH]; simpl; [lia|].
  rewrite !length_app, length_map. apply Nat.add_le_mono; [|exact IH].
  destruct s; simpl; auto.
Qed.

Section MergeFacts.

Variable L : list strand.

Hypothesis L_wf : forall s, In s L -> wf_strand s.

Lemma for_body_correct (i : Qc) (g : strand -> list pt) (h : strand -> nat) :
  i < 1 ->
  forall L0, (forall s, In s L0 -> In s L /\ cursor s (h s) i) ->
  for_body i L0 (map g L0) (map h L0)
  = Ok (map (fun s => g s ++ [strand_at s i]) L0,
        map (fun s => step_index i s (h s)) L0).
Proof.
  intros Hi. induction L0 as [|s r IH]; intros H; [reflexivity|].
  cbn [for_body map].
  destruct (H s (or_introl eq_refl)) as [Hs Hc].
  destruct (advance_correct s (h s) i (L_wf s Hs) Hc Hi) as [E _].
  rewrite E. cbn [bind].
  rewrite IH by (intros s' Hs'; apply H; right; exact Hs').
  reflexivity.
Qed.

Lemma times_at_correct (h : strand -> nat) :
  forall L0, (forall s, In s L0 -> (h s < length s)%nat) ->
  times_at L0 (map h L0) = Ok (map (fun s => time_at s (h s)) L0).
Proof.
  induction L0 as [|s r IH]; intros H; [reflexivity|].
  cbn [times_at map].
  rewrite (index_nth s (h s) (0, Cx 0 0)) by (apply H; left; reflexivity).
  cbn [bind]. rewrite IH by (intros s' Hs'; apply H; right; exact Hs').
  reflexivity.
Qed.

Lemma append_last_correct (g : strand -> list pt) :
  forall L0, (forall s, In s L0 -> s <> []) ->
  append_last L0 (map g L0) = Ok (map (fun s => g s ++ [last_point s]) L0).
Proof.
  induction L0 as [|s r IH]; intros H; [reflexivity|].
  cbn [append_last map].
  assert (E : index_last s = Ok (last s (0, Cx 0 0))).
  { apply index_last_Ok. apply H. left. reflexivity. }
  rewrite E. cbn [bind].
  rewrite IH by (intros s' Hs'; apply H; right; exact Hs').
  reflexivity.
Qed.

Hypothesis L_nonempty : L <> [].

(** After the pass at time [i], the loop goes on at the next sample time,
    with every index at its place. *)
Lemma next_pass (i : Qc) (h : strand -> nat) :
  i < 1 -> (forall s, In s L -> cursor s (h s) i) ->
  exists i',
    min_list (map (fun s => time_at s (step_index i s (h s))) L) = Ok i'
    /\ next_time L i = Ok i'
    /\ (forall s, In s L -> cursor s (step_index i s (h s)) i').
Proof.
  intros Hi Hc.
  set (h' := fun s => step_index i s (h s)).
  assert (Hadv : forall s, In s L ->
            (1 <= h' s)%nat /\ (h' s < length s)%nat
            /\ (forall q, (1 <= q)%nat -> (q < h' s)%nat -> time_at s q <= i)
            /\ i < time_at s (h' s)).
  { intros s Hs. destruct (advance_correct s (h s) i (L_wf s Hs) (Hc s Hs) Hi)
      as [_ [H1 [H2 H3]]].
    split; [|auto]. destruct (Hc s Hs) as [X _]. unfold h', step_index.
    destruct (Qcltb i (time_at s (h s))); lia. }
  destruct (min_list_nonempty (map (fun s => time_at s (h' s)) L)) as [i' Hmin].
  { destruct L; [congruence | discriminate]. }
  exists i'. split; [exact Hmin|].
  apply min_list_spec in Hmin. destruct Hmin as [Hin Hle].
  apply in_map_iff in Hin. destruct Hin as [s0 [E0 Hs0]].
  assert (Hlt : i < i').
  { rewrite <- E0. apply (Hadv s0 Hs0). }
  assert (Hle' : forall s, In s L -> i' <= time_at s (h' s)).
  { intros s Hs. apply Hle. apply in_map_iff. exists s. auto. }
  split.
  - apply min_list_spec. split.
    + apply filter_In. split; [|apply Qcltb_lt; exact Hlt].
      apply all_times_In. exists s0, (h' s0).
      destruct (Hadv s0 Hs0) as [X1 [X2 _]]. auto.
    + intros u Hu. apply filter_In in Hu. destruct Hu as [Hu Hiu].
      apply Qcltb_lt in Hiu. apply all_times_In in Hu.
      destruct Hu as [s [q [Hs [Hq1 [Hq2 ->]]]]].
      destruct (Hadv s Hs) as [X1 [X2 [X3 X4]]].
      destruct (Nat.lt_ge_cases q (h' s)) as [Lq|Lq].
      * exfalso. exact (Qclt_not_le _ _ Hiu (X3 q Hq1 Lq)).
      * eapply Qcle_trans; [apply (Hle' s Hs)|].
        destruct (Nat.eq_dec q (h' s)) as [->|N]; [apply Qcle_refl|].
        apply Qclt_le_weak. apply (L_wf s Hs); [lia | exact Hq2].
  - intros s Hs. destruct (Hadv s Hs) as [X1 [X2 [X3 X4]]].
    split; [exact X1|]. split; [exact X2|]. split; [|apply Hle'; exact Hs].
    intros q Hq1 Hq2. eapply Qcle_lt_trans; [apply X3; assumption | exact Hlt].
Qed.

Lemma merge_loop_correct (fuel : nat) :
  forall (i : Qc) (g : strand -> list pt) (h : strand -> nat),
  (forall s, In s L -> cursor s (h s) i) ->
  merge_loop fuel L i (map g L) (map h L)
  = (T <- common_loop fuel L i ;;
     Ok (map (fun s => g s ++ map (strand_at s) T) L)).
Proof.
  induction fuel as [|fuel IH]; intros i g h Hc.
  - simpl. destruct (Qcltb i 1); [reflexivity|]. simpl. f_equal.
    apply map_ext. intros s. rewrite app_nil_r. reflexivity.
  - cbn [merge_loop common_loop]. destruct (Qcltb i 1) eqn:Ei.
    + apply Qcltb_lt in Ei.
      rewrite (for_body_correct i g h Ei L) by (intros s Hs; auto).
      cbn [bind].
      destruct (next_pass i h Ei Hc) as [i' [Hmin [Hnext Hc']]].
      rewrite times_at_correct by (intros s Hs; apply (Hc' s Hs)).
      cbn [bind]. rewrite Hmin, Hnext. cbn [bind].
      rewrite (IH i' _ _ Hc').
      destruct (common_loop fuel L i') as [T| |]; cbn [bind]; try reflexivity.
      f_equal. apply map_ext. intros s. rewrite <- app_assoc. reflexivity.
    + simpl. f_equal. apply map_ext. intros s. rewrite app_nil_r. reflexivity.
Qed.

(** The merge computes the positions of the strands at the common times. *)
Lemma merge_correct :
  merge L = (T <- common_times L ;; Ok (map (merged_row T) L)).
Proof.
  unfold merge, common_times.
  rewrite (mapM_map _ (fun s => time_at s 1)).
  2:{ apply Forall_forall. intros s Hs. destruct (L_wf s Hs) as [W _].
      cbv beta. rewrite (@index_nth (Qc * complex) s 1 (0, Cx 0 0)) by exact W.
      reflexivity. }
  cbn [bind].
  destruct (min_list_nonempty (map (fun s => time_at s 1) L)) as [i0 Hmin].
  { destruct L; [congruence | discriminate]. }
  rewrite Hmin. cbn [bind].
  pose proof Hmin as Hmin'. apply min_list_spec in Hmin'. destruct Hmin' as [Hin Hle].
  assert (Hall : min_list (all_times L) = Ok i0).
  { apply min_list_spec. split.
    - apply in_map_iff in Hin. destruct Hin as [s [E Hs]].
      apply all_times_In. exists s, 1%nat. destruct (L_wf s Hs) as [W _].
      repeat split; auto; lia.
    - intros u Hu. apply all_times_In in Hu.
      destruct Hu as [s [q [Hs [Hq1 [Hq2 ->]]]]].
      eapply Qcle_trans; [apply Hle; apply in_map_iff; exists s; auto|].
      destruct (Nat.eq_dec q 1) as [->|N]; [apply Qcle_refl|].
      apply Qclt_le_weak. apply (L_wf s Hs); [lia | exact Hq2]. }
  rewrite Hall. cbn [bind].
  rewrite (mapM_map _ (fun s => [first_point s])).
  2:{ apply Forall_forall. intros s Hs. destruct (L_wf s Hs) as [W _].
      cbv beta. rewrite (@index_nth (Qc * complex) s 0 (0, Cx 0 0))
        by (apply Nat.lt_le_trans with (2 := W); repeat constructor).
      cbn [bind].
      unfold first_point. destruct s; [simpl in W; lia | reflexivity]. }
  cbn [bind].
  rewrite (merge_loop_correct (merge_fuel L) i0 (fun s => [first_point s]) (fun _ => 1%nat)).
  2:{ intros s Hs. destruct (L_wf s Hs) as [W _].
      split; [lia|]. split; [lia|]. split; [intros q Hq1 Hq2; lia|].
      apply Hle. apply in_map_iff. exists s. auto. }
  destruct (common_loop (merge_fuel L) L i0) as [T| |]; cbn [bind]; try reflexivity.
  rewrite append_last_correct.
  - reflexivity.
  - intros s Hs Hnil. destruct (L_wf s Hs) as [W _]. rewrite Hnil in W.
    simpl in W. lia.
Qed.

Lemma one_in_all_times : In 1 (all_times L).
Proof.
  assert (X : exists s, In s L).
  { destruct L as [|s r]; [congruence | exists s; left; reflexivity]. }
  destruct X as [s Hs]. destruct (L_wf s Hs) as [W1 [_ W3]].
  apply all_times_In. exists s, (length s - 1)%nat.
  repeat split; auto; lia.
Qed.

Lemma common_loop_total (fuel : nat) :
  forall i, In i (all_times L) -> (length (pending_times L i) <= fuel)%nat ->
  exists T, common_loop fuel L i = Ok T.
Proof.
  induction fuel as [|fuel IH]; intros i Hi Hm.
  - exfalso.
    assert (X : In i (pending_times L i)).
    { apply filter_In. split; [exact Hi|].
      apply negb_true_iff. apply Qcltb_ge. apply Qcle_refl. }
    destruct (pending_times L i); [destruct X | simpl in Hm; lia].
  - cbn [common_loop]. destruct (Qcltb i 1) eqn:Ei; [|eexists; reflexivity].
    apply Qcltb_lt in Ei.
    destruct (min_list_nonempty (filter (fun u => Qcltb i u) (all_times L)))
      as [i' Hmin].
    { assert (X : In 1 (filter (fun u => Qcltb i u) (all_times L))).
      { apply filter_In. split; [apply one_in_all_times | apply Qcltb_lt; exact Ei]. }
      intros E. rewrite E in X. destruct X. }
    unfold next_time. rewrite Hmin. cbn [bind].
    apply min_list_spec in Hmin. destruct Hmin as [Hin _].
    apply filter_In in Hin. destruct Hin as [Hin Hlt]. apply Qcltb_lt in Hlt.
    destruct (IH i' Hin) as [T HT].
    + assert (X : (length (pending_times L i') < length (pending_times L i))%nat).
      { apply filter_length_lt.
        - intros u _ Hu. apply negb_true_iff in Hu. apply Qcltb_ge in Hu.
          apply negb_true_iff. apply Qcltb_ge.
          eapply Qcle_trans; [apply Qclt_le_weak; exact Hlt | exact Hu].
        - exists i. split; [exact Hi|]. split.
          + apply negb_true_iff. apply Qcltb_ge. apply Qcle_refl.
          + apply negb_false_iff. apply Qcltb_lt. exact Hlt. }
      lia.
    + rewrite HT. eexists. reflexivity.
Qed.

(** For strands in the shape of the data model the merge returns, within
    the bound on its loop that the model computes. *)
Lemma merge_total :
  exists T, common_times L = Ok T /\ merge L = Ok (map (merged_row T) L).
Proof.
  assert (H : exists T, common_times L = Ok T).
  { unfold common_times.
    destruct (min_list_nonempty (all_times L)) as [i0 Hmin].
    { pose proof one_in_all_times as X. intros E. rewrite E in X. destruct X. }
    rewrite Hmin. cbn [bind].
    apply min_list_spec in Hmin. destruct Hmin as [Hin _].
    apply common_loop_total; [exact Hin|].
    eapply Nat.le_trans; [|apply all_times_length].
    unfold pending_times. apply filter_length_le. }
  destruct H as [T HT]. exists T. split; [exact HT|].
  rewrite merge_correct, HT. reflexivity.
Qed.

End MergeFacts.

(** ** Re-sampling a strand *)

Lemma refine_strand_cons (s0 : sample) (r : strand) (p : nat) (c : Qc) :
  refine_strand (s0 :: r) (S (S p)) c = s0 :: refine_strand r (S p) c.
Proof. unfold refine_strand. simpl. rewrite Nat.sub_0_r. reflexivity. Qed.

Lemma refine_strand_1 (s0 s1 : sample) (r : strand) (c : Qc) :
  refine_strand (s0 :: s1 :: r) 1 c = s0 :: interpolated_sample s0 s1 c :: s1 :: r.
Proof. reflexivity. Qed.

Lemma refine_strand_hd (s1 : sample) (r : strand) (p : nat) (c : Qc) :
  exists tail, refine_strand (s1 :: r) (S p) c = s1 :: tail.
Proof. unfold refine_strand. simpl. eexists. reflexivity. Qed.

Lemma interpolate_left (s0 s1 : sample) (c t : Qc) :
  fst s0 < c -> c < fst s1 ->
  interpolate s0 (interpolated_sample s0 s1 c) t = interpolate s0 s1 t.
Proof.
  intros H1 H2.
  assert (N1 : c - fst s0 <> 0) by (intros X; qc2q; lra).
  assert (N2 : fst s1 - fst s0 <> 0) by (intros X; qc2q; lra).
  unfold interpolate, interpolated_sample, pt_of, cadd, cquot, cscale, csub.
  cbn [fst snd real imag]. f_equal; field; auto.
Qed.

Lemma interpolate_right (s0 s1 : sample) (c t : Qc) :
  fst s0 < c -> c < fst s1 ->
  interpolate (interpolated_sample s0 s1 c) s1 t = interpolate s0 s1 t.
Proof.
  intros H1 H2.
  assert (N1 : fst s1 - c <> 0) by (intros X; qc2q; lra).
  assert (N2 : fst s1 - fst s0 <> 0) by (intros X; qc2q; lra).
  unfold interpolate, interpolated_sample, pt_of, cadd, cquot, cscale, csub.
  cbn [fst snd real imag]. f_equal; field; auto.
Qed.

(** Re-sampling does not move the strand. *)
Lemma strand_at_refine (p : nat) :
  forall (s : strand) (c t : Qc),
  (1 <= p)%nat -> (p < length s)%nat ->
  time_at s (p - 1) < c -> c < time_at s p ->
  strand_at (refine_strand s p c) t = strand_at s t.
Proof.
  induction p as [|p IH]; intros s c t Hp1 Hp2 Ha Hb; [lia|].
  destruct s as [|s0 [|s1 r]]; [simpl in Hp2; lia | simpl in Hp2; lia |].
  destruct p as [|p].
  - rewrite refine_strand_1. unfold time_at in Ha, Hb. simpl in Ha, Hb.
    rewrite !strand_at_cons. cbn [fst snd].
    change (fst (interpolated_sample s0 s1 c)) with c.
    destruct (Qcltb t c) eqn:E1.
    + apply Qcltb_lt in E1.
      rewrite (proj2 (Qcltb_lt t (fst s1)) (Qclt_trans _ _ _ E1 Hb)).
      apply interpolate_left; assumption.
    + apply Qcltb_ge in E1. destruct (Qceqb t c) eqn:E2.
      * apply Qceqb_eq in E2. subst t.
        rewrite (proj2 (Qcltb_lt c (fst s1)) Hb). reflexivity.
      * destruct (Qcltb t (fst s1)); [apply interpolate_right; assumption|].
        reflexivity.
  - rewrite refine_strand_cons.
    destruct (refine_strand_hd s1 r p c) as [tail Etail].
    rewrite Etail, !strand_at_cons, <- Etail.
    rewrite (IH (s1 :: r) c t); [reflexivity | lia | simpl in Hp2 |- *; lia | |].
    + unfold time_at in *. simpl in Ha |- *. rewrite Nat.sub_0_r in *. exact Ha.
    + unfold time_at in *. simpl in Hb |- *. exact Hb.
Qed.

Lemma refine_strand_length (s : strand) (p : nat) (c : Qc) :
  (p <= length s)%nat -> length (refine_strand s p c) = S (length s).
Proof.
  intros H. unfold refine_strand.
  rewrite !length_app, length_firstn, length_skipn. simpl. lia.
Qed.

Lemma time_at_refine_strand (s : strand) (p q : nat) (c : Qc) :
  (p <= length s)%nat ->
  time_at (refine_strand s p c) q =
  if (q <? p)%nat then time_at s q
  else if (q =? p)%nat then c else time_at s (q - 1).
Proof.
  intros H. unfold time_at, refine_strand.
  assert (Lf : length (firstn p s) = p) by (rewrite length_firstn; lia).
  destruct (q <? p)%nat eqn:E1.
  - apply Nat.ltb_lt in E1. rewrite app_nth1 by (rewrite Lf; exact E1).
    rewrite nth_firstn. rewrite (proj2 (Nat.ltb_lt q p) E1). reflexivity.
  - apply Nat.ltb_ge in E1. rewrite app_nth2 by (rewrite Lf; exact E1).
    rewrite Lf. destruct (q =? p)%nat eqn:E2.
    + apply Nat.eqb_eq in E2. subst q. rewrite Nat.sub_diag. reflexivity.
    + apply Nat.eqb_neq in E2.
      destruct (q - p)%nat as [|m] eqn:E3; [lia|]. cbn [app nth].
      rewrite nth_skipn. replace (p + m)%nat with (q - 1)%nat by lia.
      reflexivity.
Qed.

Lemma wf_strand_mono (s : strand) (p q : nat) :
  wf_strand s -> (p <= q)%nat -> (q < length s)%nat -> time_at s p <= time_at s q.
Proof.
  intros [_ [W _]] H1 H2. destruct (Nat.eq_dec p q) as [->|N].
  - apply Qcle_refl.
  - apply Qclt_le_weak. apply W; [lia | exact H2].
Qed.

(** A strand with one more sample between two of its samples is still in
    the shape of the data model. *)
Lemma refine_strand_wf (s : strand) (p : nat) (c : Qc) :
  wf_strand s -> (1 <= p)%nat -> (p < length s)%nat ->
  time_at s (p - 1) < c -> c < time_at s p ->
  wf_strand (refine_strand s p c).
Proof.
  intros W Hp1 Hp2 Ha Hb. pose proof W as [W1 [W2 W3]].
  assert (Hlen := refine_strand_length s p c (Nat.lt_le_incl _ _ Hp2)).
  split; [rewrite Hlen; lia|]. split.
  - intros q1 q2 H12 H2. rewrite Hlen in H2.
    rewrite !time_at_refine_strand by lia.
    destruct (Nat.ltb_spec q1 p) as [E1|E1]; destruct (Nat.ltb_spec q2 p) as [E2|E2];
      try lia.
    + apply W2; lia.
    + assert (X : time_at s q1 < c).
      { eapply Qcle_lt_trans; [|exact Ha]. apply wf_strand_mono; auto; lia. }
      destruct (Nat.eqb_spec q2 p) as [E3|E3]; [exact X|].
      eapply Qclt_le_trans; [exact X|]. apply Qclt_le_weak.
      eapply Qclt_le_trans; [exact Hb|]. apply wf_strand_mono; auto; lia.
    + destruct (Nat.eqb_spec q1 p) as [E3|E3]; destruct (Nat.eqb_spec q2 p) as [E4|E4];
        try lia.
      * eapply Qclt_le_trans; [exact Hb|]. apply wf_strand_mono; auto; lia.
      * apply W2; lia.
  - rewrite Hlen, time_at_refine_strand by lia.
    replace (S (length s) - 1 <? p)%nat with false
      by (symmetry; apply Nat.ltb_ge; lia).
    replace (S (length s) - 1 =? p)%nat with false
      by (symmetry; apply Nat.eqb_neq; lia).
    replace (S (length s) - 1 - 1)%nat with (length s - 1)%nat by lia.
    exact W3.
Qed.

Lemma last_nth_default {A : Type} (l : list A) (d : A) :
  last l d = nth (length l - 1) l d.
Proof.
  induction l as [|a [|b r] IH]; [reflexivity | reflexivity |].
  change (last (a :: b :: r) d) with (last (b :: r) d). rewrite IH.
  simpl. rewrite Nat.sub_0_r. reflexivity.
Qed.

Lemma first_point_refine (s : strand) (p : nat) (c : Qc) :
  (1 <= p)%nat -> (p < length s)%nat ->
  first_point (refine_strand s p c) = first_point s.
Proof.
  intros H1 H2. destruct p as [|p]; [lia|].
  destruct s as [|s0 r]; [simpl in H2; lia|]. reflexivity.
Qed.

Lemma last_point_refine (s : strand) (p : nat) (c : Qc) :
  (1 <= p)%nat -> (p < length s)%nat ->
  last_point (refine_strand s p c) = last_point s.
Proof.
  intros H1 H2. unfold last_point. rewrite !last_nth_default.
  rewrite refine_strand_length by lia.
  pose proof (time_at_refine_strand s p (S (length s) - 1) c (Nat.lt_le_incl _ _ H2)) as _.
  unfold refine_strand.
  assert (Lf : length (firstn p s) = p) by (rewrite length_firstn; lia).
  rewrite app_nth2 by (rewrite Lf; lia). rewrite Lf.
  destruct (S (length s) - 1 - p)%nat as [|m] eqn:E; [lia|]. cbn [app nth].
  rewrite nth_skipn. replace (p + m)%nat with (length s - 1)%nat by lia.
  reflexivity.
Qed.

Lemma merged_row_refine (T : list Qc) (s : strand) (p : nat) (c : Qc) :
  (1 <= p)%nat -> (p < length s)%nat ->
  time_at s (p - 1) < c -> c < time_at s p ->
  merged_row T (refine_strand s p c) = merged_row T s.
Proof.
  intros H1 H2 Ha Hb. unfold merged_row.
  rewrite first_point_refine, last_point_refine by assumption.
  f_equal. f_equal. apply map_ext. intros t. apply strand_at_refine; assumption.
Qed.

Lemma split_nth {A : Type} (l : list A) (j : nat) (d : A) :
  (j < length l)%nat -> l = firstn j l ++ [nth j l d] ++ skipn (S j) l.
Proof.
  revert j. induction l as [|a r IH]; intros j H; [simpl in H; lia|].
  destruct j as [|j]; [reflexivity|]. simpl. f_equal. apply IH. simpl in H. lia.
Qed.

Lemma refine_length (L : list strand) (j p : nat) (c : Qc) :
  (j < length L)%nat -> length (refine L j p c) = length L.
Proof.
  intros H. rewrite (split_nth L j [] H) at 2. unfold refine.
  rewrite !length_app. reflexivity.
Qed.

Lemma refine_In (L : list strand) (j p : nat) (c : Qc) (s : strand) :
  (j < length L)%nat ->
  In s (refine L j p c) -> In s L \/ s = refine_strand (nth j L []) p c.
Proof.
  intros H Hs. unfold refine in Hs.
  apply in_app_or in Hs. destruct Hs as [Hs|Hs].
  - left. rewrite <- (firstn_skipn j L). apply in_or_app. left. exact Hs.
  - apply in_app_or in Hs. destruct Hs as [[<-|[]]|Hs]; [right; reflexivity|].
    left. rewrite <- (firstn_skipn (S j) L). apply in_or_app. right. exact Hs.
Qed.

Lemma tl_refine_strand (s : strand) (p : nat) (c : Qc) (u : Qc) :
  (1 <= p)%nat -> (p < length s)%nat ->
  In u (map fst (tl (refine_strand s p c))) <-> u = c \/ In u (map fst (tl s)).
Proof.
  intros H1 H2. destruct p as [|p]; [lia|].
  destruct s as [|s0 r]; [simpl in H2; lia|].
  assert (E : In u (map fst r) <->
              In u (map fst (firstn p r)) \/ In u (map fst (skipn p r))).
  { rewrite <- in_app_iff, <- map_app, firstn_skipn. reflexivity. }
  unfold refine_strand. cbn [firstn skipn app tl].
  rewrite !map_app, !in_app_iff. cbn [map In tl]. rewrite E.
  change (fst (interpolated_sample (nth (S p - 1) (s0 :: r) (0, Cx 0 0))
                 (nth (S p) (s0 :: r) (0, Cx 0 0)) c)) with c.
  intuition congruence.
Qed.

Lemma all_times_refine (L : list strand) (j p : nat) (c : Qc) (u : Qc) :
  (j < length L)%nat ->
  (1 <= p)%nat -> (p < length (nth j L []))%nat ->
  In u (all_times (refine L j p c)) <-> u = c \/ In u (all_times L).
Proof.
  intros H H1 H2.
  assert (E : In u (all_times L) <->
              In u (all_times (firstn j L)) \/ In u (map fst (tl (nth j L [])))
              \/ In u (all_times (skipn (S j) L))).
  { rewrite (split_nth L j [] H) at 1. unfold all_times.
    rewrite !flat_map_app, !in_app_iff. cbn [flat_map]. rewrite !app_nil_r.
    reflexivity. }
  rewrite E. unfold refine, all_times.
  rewrite !flat_map_app, !in_app_iff. cbn [flat_map]. rewrite !app_nil_r.
  rewrite (tl_refine_strand _ p c u H1 H2). tauto.
Qed.

Lemma min_list_ext (xs ys : list Qc) :
  (forall u, In u xs <-> In u ys) -> min_list xs = min_list ys.
Proof.
  intros H. destruct xs as [|x r].
  - destruct ys as [|y r']; [reflexivity|].
    exfalso. apply (proj2 (H y)). left. reflexivity.
  - destruct (min_list_nonempty (x :: r)) as [m Hm]; [discriminate|].
    rewrite Hm. symmetry. apply min_list_spec in Hm. destruct Hm as [H1 H2].
    apply min_list_spec. split; [apply H; exact H1|].
    intros y Hy. apply H2. apply H. exact Hy.
Qed.

Lemma next_time_ext (L L' : list strand) (t : Qc) :
  (forall u, In u (all_times L') <-> In u (all_times L)) ->
  next_time L' t = next_time L t.
Proof.
  intros H. apply min_list_ext. intros u. rewrite !filter_In, H. tauto.
Qed.

Lemma common_loop_ext (L L' : list strand) :
  (forall u, In u (all_times L') <-> In u (all_times L)) ->
  forall fuel i, common_loop fuel L' i = common_loop fuel L i.
Proof.
  intros H. induction fuel as [|fuel IH]; intros i; [reflexivity|].
  cbn [common_loop]. destruct (Qcltb i 1); [|reflexivity].
  rewrite (next_time_ext L L' i H).
  destruct (next_time L i) as [i'| |]; cbn [bind]; try reflexivity.
  rewrite IH. reflexivity.
Qed.

(** More passes than needed do not change the result of the loop. *)
Lemma common_loop_fuel (L : list strand) (fuel : nat) :
  forall i T, common_loop fuel L i = Ok T ->
  forall fuel', (fuel <= fuel')%nat -> common_loop fuel' L i = Ok T.
Proof.
  induction fuel as [|fuel IH]; intros i T H fuel' Hf.
  - simpl in H. destruct fuel'; simpl; destruct (Qcltb i 1); congruence.
  - destruct fuel' as [|fuel']; [lia|]. cbn [common_loop] in *.
    destruct (Qcltb i 1); [|exact H].
    destruct (next_time L i) as [i'| |]; cbn [bind] in *; try discriminate.
    destruct (common_loop fuel L i') as [r| |] eqn:E; cbn [bind] in *;
      try discriminate.
    rewrite (IH i' r E fuel') by lia. exact H.
Qed.

Lemma merge_fuel_refine (L : list strand) (j p : nat) (c : Qc) :
  (j < length L)%nat -> (p <= length (nth j L []))%nat ->
  merge_fuel (refine L j p c) = S (merge_fuel L).
Proof.
  intros H Hp. rewrite (split_nth L j [] H) at 2. unfold refine, merge_fuel.
  rewrite !concat_app, !length_app. cbn [concat]. rewrite !app_nil_r.
  rewrite refine_strand_length by exact Hp. lia.
Qed.

Section RefineFacts.

Variable L : list strand.

Hypothesis L_wf : forall s, In s L -> wf_strand s.

Variables (j p : nat) (c : Qc).

Hypothesis j_lt : (j < length L)%nat.

Hypothesis p_ge : (1 <= p)%nat.

Hypothesis p_lt : (p < length (nth j L []))%nat.

Hypothesis c_gt : time_at (nth j L []) (p - 1) < c.

Hypothesis c_lt : c < time_at (nth j L []) p.

Hypothesis c_on_grid : In c (all_times L).

Lemma refine_wf : forall s, In s (refine L j p c) -> wf_strand s.
Proof.
  intros s Hs. destruct (refine_In L j p c s j_lt Hs) as [H| ->]; [auto|].
  apply refine_strand_wf; auto. apply L_wf. apply nth_In. exact j_lt.
Qed.

Lemma refine_times (u : Qc) :
  In u (all_times (refine L j p c)) <-> In u (all_times L).
Proof.
  rewrite (all_times_refine L j p c u j_lt p_ge p_lt).
  split; [intros [->|H]; auto | auto].
Qed.

Lemma refine_nonempty : L <> [] /\ refine L j p c <> [].
Proof.
  split; intros E.
  - rewrite E in j_lt. simpl in j_lt. lia.
  - pose proof (refine_length L j p c j_lt) as X. rewrite E in X.
    simpl in X. lia.
Qed.

Lemma common_times_refine : common_times (refine L j p c) = common_times L.
Proof.
  destruct refine_nonempty as [N1 N2].
  destruct (merge_total L L_wf N1) as [T [HT _]].
  rewrite HT. unfold common_times in *.
  rewrite (min_list_ext _ (all_times L) refine_times).
  destruct (min_list (all_times L)) as [i| |]; cbn [bind] in *; try discriminate.
  rewrite (common_loop_ext L _ refine_times).
  apply (common_loop_fuel L (merge_fuel L) i T HT).
  rewrite merge_fuel_refine by (auto; lia). lia.
Qed.

Lemma map_merged_row_refine (T : list Qc) :
  map (merged_row T) (refine L j p c) = map (merged_row T) L.
Proof.
  rewrite (split_nth L j [] j_lt) at 2. unfold refine.
  rewrite !map_app. cbn [map].
  rewrite merged_row_refine by assumption. reflexivity.
Qed.

(** The table of positions is the same for the re-sampled family. *)
Lemma merge_refine : merge (refine L j p c) = merge L.
Proof.
  destruct refine_nonempty as [N1 N2].
  rewrite (merge_correct _ refine_wf N2), (merge_correct L L_wf N1).
  rewrite common_times_refine.
  destruct (common_times L) as [T| |]; cbn [bind]; try reflexivity.
  rewrite map_merged_row_refine. reflexivity.
Qed.

Lemma braid_from_piecewise_refine :
  braid_from_piecewise (refine L j p c) = braid_from_piecewise L.
Proof.
  unfold braid_from_piecewise, braid_word.
  rewrite merge_refine, (refine_length L j p c j_lt). reflexivity.
Qed.

End RefineFacts.

Lemma increasingb_sorted (ts : list Qc) :
  increasingb ts = true -> StronglySorted Qclt ts.
Proof.
  induction ts as [|a r IH]; intros H; [constructor|].
  destruct r as [|b r']; [constructor; constructor|].
  cbn [increasingb] in H. apply andb_true_iff in H. destruct H as [H1 H2].
  apply Qcltb_lt in H1. specialize (IH H2). constructor; [exact IH|].
  constructor; [exact H1|].
  apply StronglySorted_inv in IH. destruct IH as [_ IH].
  eapply Forall_impl; [|exact IH]. intros x Hx. cbv beta in *.
  eapply Qclt_trans; eassumption.
Qed.

Lemma wf_strandb_sound (s : strand) : wf_strandb s = true -> wf_strand s.
Proof.
  unfold wf_strandb. intros H.
  apply andb_true_iff in H. destruct H as [H H3].
  apply andb_true_iff in H. destruct H as [H1 H2].
  apply Nat.leb_le in H1. apply Qceqb_eq in H3.
  split; [exact H1|]. split; [|exact H3].
  intros p q Hpq Hq. unfold time_at.
  rewrite <- (@nth_map_lt sample Qc fst s p (0, Cx 0 0) 0) by lia.
  rewrite <- (@nth_map_lt sample Qc fst s q (0, Cx 0 0) 0) by exact Hq.
  apply (StronglySorted_nth Qclt); [apply increasingb_sorted; exact H2 | exact Hpq |].
  rewrite length_map. exact Hq.
Qed.

Lemma wf_family (L : list strand) :
  forallb wf_strandb L = true -> forall s, In s L -> wf_strand s.
Proof.
  intros H s Hs. apply wf_strandb_sound.
  rewrite forallb_forall in H. apply H. exact Hs.
Qed.

Lemma resampled_invariant (L L' : list strand) :
  (forall s, In s L -> wf_strand s) ->
  resampled L L' ->
  (forall s, In s L' -> wf_strand s)
  /\ (forall u, In u (all_times L') <-> In u (all_times L))
  /\ braid_from_piecewise L' = braid_from_piecewise L.
Proof.
  intros W. induction 1 as [|L' j p c R IH Hj Hp1 Hp2 Ha Hb Hc].
  - split; [exact W|]. split; [reflexivity | reflexivity].
  - destruct IH as [W' [T' B']].
    assert (Hc' : In c (all_times L')) by (apply T'; exact Hc).
    split; [|split].
    + apply refine_wf; assumption.
    + intros u. rewrite (refine_times L' j p c Hj Hp1 Hp2 Hc' u). apply T'.
    + rewrite <- B'. apply braid_from_piecewise_refine; assumption.
Qed.




(** ** Strands that never meet

    The tracker promises strands whose tubular neighbourhoods do not
    intersect.  For the columns of [totalpoints] this says that no two
    strands are at the same point at the same time of a slice; it is what
    the computation of the crossings needs to go through. *)

Lemma never_meet_sym (p q : pt * pt) : never_meet p q -> never_meet q p.
Proof. intros H t H0 H1 E. apply (H t H0 H1). symmetry. exact E. Qed.

Lemma ForallOrdPairs_perm {A : Type} (R : A -> A -> Prop) (l l' : list A) :
  (forall x y, R x y -> R y x) ->
  Permutation l l' -> ForallOrdPairs R l -> ForallOrdPairs R l'.
Proof.
  intros Hsym HP. induction HP as [|x l l' HP IH|x y l|l l' l'' _ IH1 _ IH2]; intros H.
  - exact H.
  - inversion H as [|? ? H1 H2]; subst. constructor.
    + eapply Permutation_Forall; eassumption.
    + apply IH. exact H2.
  - inversion H as [|? ? H1 H2]; subst. inversion H2 as [|? ? H3 H4]; subst.
    inversion H1 as [|? ? H5 H6]; subst.
    constructor; [constructor; [apply Hsym; exact H5 | exact H3]|].
    constructor; assumption.
  - auto.
Qed.

Lemma ForallOrdPairs_nth {A : Type} (R : A -> A -> Prop) (l : list A) (dflt : A) :
  ForallOrdPairs R l ->
  forall k j, (k < j)%nat -> (j < length l)%nat -> R (nth k l dflt) (nth j l dflt).
Proof.
  induction 1 as [|x r Hx _ IH]; intros k j Hkj Hj; simpl in Hj; [lia|].
  destruct j as [|j]; [lia|]. destruct k as [|k]; simpl.
  - rewrite Forall_forall in Hx. apply Hx, nth_In. lia.
  - apply IH; lia.
Qed.

Lemma pt_le_cases (p q : pt) :
  le p q -> fst p < fst q \/ (fst p = fst q /\ snd p <= snd q).
Proof.
  unfold le, ltb. unfold ocompare at 1. unfold Order_prod. intros H.
  destruct (ocompare (fst q) (fst p)) eqn:E.
  - right. split; [symmetry; apply Qceq_alt; exact E|].
    apply Qcnot_lt_le. intros C.
    assert (X : ocompare (snd q) (snd p) = Lt) by (apply Qclt_alt; exact C).
    rewrite X in H. discriminate.
  - discriminate.
  - left. apply Qcgt_alt in E. exact E.
Qed.

Lemma pt_ltb_cases (p q : pt) :
  pt_ltb p q = true -> fst p < fst q \/ (fst p = fst q /\ snd p < snd q).
Proof.
  unfold pt_ltb, ltb. unfold ocompare at 1. unfold Order_prod. intros H.
  destruct (ocompare (fst p) (fst q)) eqn:E.
  - right. split; [apply Qceq_alt; exact E|].
    apply Qclt_alt. change (snd p ?= snd q) with (ocompare (snd p) (snd q)).
    destruct (ocompare (snd p) (snd q)); congruence.
  - left. apply Qclt_alt. exact E.
  - discriminate.
Qed.

(** Two strands that never meet do not swap places at a constant real
    part: the divisor of the crossing time is not zero. *)
Lemma never_meet_den (p q : pt * pt) :
  le p q -> pt_ltb (snd q) (snd p) = true -> never_meet p q ->
  crossing_den (fst p) (fst q) (snd p) (snd q) <> 0.
Proof.
  intros Hle Hlt Hnm Hden.
  destruct (pt_le_cases _ _ (pair_le_fst _ _ Hle)) as [L1|[E1 L1]];
    destruct (pt_ltb_cases _ _ Hlt) as [L2|[E2 L2]];
    unfold crossing_den in Hden;
    try (qc2q; lra).
  set (a0 := snd (fst q) - snd (fst p)).
  set (b0 := snd (snd p) - snd (snd q)).
  assert (Hb : 0 < b0) by (unfold b0; qc2q; lra).
  assert (Ha : 0 <= a0) by (unfold a0; qc2q; lra).
  assert (Hs : a0 + b0 <> 0) by (intros X; qc2q; lra).
  assert (Et : (a0 / (a0 + b0)) * (a0 + b0) = a0) by (field; exact Hs).
  apply (Hnm (a0 / (a0 + b0))).
  - generalize dependent (a0 / (a0 + b0)). intros t Et. qc2q. nra.
  - generalize dependent (a0 / (a0 + b0)). intros t Et. qc2q. nra.
  - unfold along. rewrite E1, E2. f_equal.
    unfold a0, b0 in *. field. exact Hs.
Qed.

Lemma crossing_at_total (l1 l2 : list pt) (j k : nat) :
  length l1 = length l2 -> (k < j)%nat -> (j < length l2)%nat ->
  (pt_ltb (point_at l2 j) (point_at l2 k) = true -> slice_den l1 l2 k j <> 0) ->
  exists r, crossing_at l1 l2 j k = Ok r.
Proof.
  intros Hlen Hkj Hj Hden. unfold crossing_at.
  rewrite (index_nth l2 j (0, 0)) by exact Hj.
  rewrite (index_nth l2 k (0, 0)) by lia. cbn [bind].
  fold (point_at l2 j) (point_at l2 k).
  destruct (pt_ltb (point_at l2 j) (point_at l2 k)) eqn:E; [|eexists; reflexivity].
  rewrite (index_nth l1 j (0, 0)) by lia.
  rewrite (index_nth l1 k (0, 0)) by lia. cbn [bind].
  fold (point_at l1 j) (point_at l1 k).
  specialize (Hden eq_refl). unfold slice_den, crossing_den in Hden.
  unfold div. rewrite (proj2 (Qceqb_neq _ 0) Hden). cbn [bind].
  eexists. reflexivity.
Qed.

Lemma find_cruces_total (l1 l2 : list pt) :
  length l1 = length l2 ->
  (forall k j, (k < j)%nat -> (j < length l2)%nat ->
     pt_ltb (point_at l2 j) (point_at l2 k) = true -> slice_den l1 l2 k j <> 0) ->
  exists cruces, find_cruces l1 l2 = Ok cruces.
Proof.
  intros Hlen Hden. unfold find_cruces.
  destruct (mapM_total
              (fun j => r <- mapM (crossing_at l1 l2 j) (seq 0 j) ;; Ok (concat r))
              (seq 0 (length l2))) as [r Hr].
  - apply Forall_forall. intros j Hj. apply in_seq in Hj.
    destruct (mapM_total (crossing_at l1 l2 j) (seq 0 j)) as [r Hr].
    + apply Forall_forall. intros k Hk. apply in_seq in Hk.
      apply crossing_at_total; [exact Hlen | lia | lia |].
      apply Hden; lia.
    + rewrite Hr. cbn [bind]. eexists. reflexivity.
  - rewrite Hr. cbn [bind]. eexists. reflexivity.
Qed.

Lemma along_nth (M : list (pt * pt)) (x : nat) (t : Qc) :
  (x < length M)%nat ->
  along (nth x M ((0, 0), (0, 0))) t
  = (re_at (map fst M) (map snd M) x t, im_at (map fst M) (map snd M) x t).
Proof.
  intros Hx. unfold along, re_at, im_at, point_at.
  rewrite (nth_map_lt fst M x ((0, 0), (0, 0))) by exact Hx.
  rewrite (nth_map_lt snd M x ((0, 0), (0, 0))) by exact Hx.
  reflexivity.
Qed.

Section SeparatedSlice.

Variables l1 l2 : list pt.

Hypothesis Hlen : length l1 = length l2.

Hypothesis Hsep : ForallOrdPairs never_meet (combine l1 l2).

Lemma sorted_pairs_never_meet (k j : nat) :
  (k < j)%nat -> (j < length l1)%nat ->
  never_meet (nth k (sorted_pairs l1 l2) ((0, 0), (0, 0)))
             (nth j (sorted_pairs l1 l2) ((0, 0), (0, 0))).
Proof.
  intros Hkj Hj. apply ForallOrdPairs_nth; [|exact Hkj|].
  - apply (ForallOrdPairs_perm never_meet (combine l1 l2));
      [exact never_meet_sym | apply Permutation_sym, sort_perm | exact Hsep].
  - rewrite sorted_pairs_length by exact Hlen. exact Hj.
Qed.

(** The crossings of the slice are computed: no division by zero. *)
Lemma separated_slice_cruces : exists cruces, slice_cruces l1 l2 = Ok cruces.
Proof.
  unfold slice_cruces.
  pose proof (sorted_pairs_length l1 l2 Hlen) as HM.
  apply find_cruces_total; [rewrite !length_map; reflexivity|].
  intros k j Hkj Hj Hlt. rewrite length_map in Hj.
  pose proof (Nat.lt_trans _ _ _ Hkj Hj) as Hk.
  unfold slice_den, point_at in *.
  rewrite (@nth_map_lt (pt * pt) pt snd _ j ((0, 0), (0, 0)) (0, 0) Hj) in Hlt.
  rewrite (@nth_map_lt (pt * pt) pt snd _ k ((0, 0), (0, 0)) (0, 0) Hk) in Hlt.
  rewrite (@nth_map_lt (pt * pt) pt fst _ j ((0, 0), (0, 0)) (0, 0) Hj).
  rewrite (@nth_map_lt (pt * pt) pt fst _ k ((0, 0), (0, 0)) (0, 0) Hk).
  rewrite (@nth_map_lt (pt * pt) pt snd _ j ((0, 0), (0, 0)) (0, 0) Hj).
  rewrite (@nth_map_lt (pt * pt) pt snd _ k ((0, 0), (0, 0)) (0, 0) Hk).
  apply never_meet_den.
  - apply (StronglySorted_nth _ _ ((0, 0), (0, 0)) (sort_sorted (combine l1 l2)));
      [exact Hkj | exact Hj].
  - exact Hlt.
  - apply sorted_pairs_never_meet; [exact Hkj|]. rewrite <- HM. exact Hj.
Qed.

(** No two strands are at the same point at the time of a crossing. *)
Lemma separated_slice_crossing (cruces : list crossing) (c : crossing) :
  slice_cruces l1 l2 = Ok cruces -> In c cruces ->
  let A := map fst (sorted_pairs l1 l2) in
  let B := map snd (sorted_pairs l1 l2) in
  (re_at A B (c_k c) (c_t c), im_at A B (c_k c) (c_t c))
  <> (re_at A B (c_j c) (c_t c), im_at A B (c_j c) (c_t c)).
Proof.
  intros Hc Hin A B.
  pose proof (sorted_pairs_length l1 l2 Hlen) as HM.
  destruct (cruces_facts _ _ Hc c Hin) as [Hkj [Hj _]].
  destruct (time_range _ (sort_sorted _) _ Hc c Hin) as [T0 T1].
  pose proof (Nat.lt_trans _ _ _ Hkj Hj) as Hk.
  unfold A, B. rewrite <- (along_nth _ _ _ Hj), <- (along_nth _ _ _ Hk).
  apply sorted_pairs_never_meet; [exact Hkj | | exact T0 | exact T1].
  rewrite <- HM. exact Hj.
Qed.

End SeparatedSlice.

Lemma slices_total (d : nat) (tp : list (list pt)) (n : nat) :
  length tp = d -> rectangular tp n -> separated tp ->
  forall (range : list nat) (braid : list Z),
  (forall i, In i range -> (i + 1 < n)%nat) ->
  exists braid', slices d tp range braid = Ok braid'.
Proof.
  intros Hd Hrect Hsep. induction range as [|i range IH]; intros braid Hr.
  - eexists. reflexivity.
  - cbn [slices].
    destruct (column_Ok tp n i Hrect) as [l1 [H1 L1]];
      [specialize (Hr i (or_introl eq_refl)); lia|].
    destruct (column_Ok tp n (i + 1) Hrect) as [l2 [H2 L2]];
      [apply Hr; left; reflexivity|].
    rewrite H1, H2. cbn [bind].
    assert (Hlen : length l1 = length l2) by congruence.
    destruct (separated_slice_cruces l1 l2 Hlen (Hsep i l1 l2 H1 H2)) as [cruces Hc].
    destruct (slice_spec d l1 l2 braid cruces ltac:(congruence) ltac:(congruence) Hc)
      as [w [Hs _]].
    rewrite Hs. cbn [bind]. apply IH. intros j Hj. apply Hr. right. exact Hj.
Qed.

Lemma separated_no_coincidence (tp : list (list pt)) :
  separated tp -> no_coincidence tp.
Proof.
  intros Hsep i l1 l2 cruces c H1 H2 Hc Hin.
  assert (Hlen : length l1 = length l2).
  { unfold column in H1, H2. apply mapM_length in H1, H2. congruence. }
  exact (separated_slice_crossing l1 l2 Hlen (Hsep i l1 l2 H1 H2) cruces c Hc Hin).
Qed.

(** For strands in the shape of the data model that never meet,
    [braid_from_piecewise] returns a braid: no exception is raised, the
    loops end within the bounds that the model computes, and Sage accepts
    the word. *)
Lemma braid_from_piecewise_total (L : list strand) :
  L <> [] -> (forall s, In s L -> wf_strand s) ->
  (forall tp, merge L = Ok tp -> separated tp) ->
  exists w, braid_from_piecewise L = Ok w
            /\ Forall (braid_generator (length L)) w.
Proof.
  intros Hne Hwf Hsep.
  destruct (merge_total L Hwf Hne) as [T [_ Hm]].
  set (tp := map (merged_row T) L) in *.
  specialize (Hsep tp Hm).
  destruct (merge_shape _ _ Hm) as [Hlen [n Hrect]].
  assert (Hw : exists w, braid_word L = Ok w).
  { unfold braid_word. rewrite Hm. cbn [bind].
    destruct tp as [|r tp'] eqn:Etp.
    { exfalso. destruct L; [congruence | simpl in Hlen; lia]. }
    cbn [index nth_error bind].
    apply (slices_total _ _ (S (S n)) eq_refl Hrect Hsep).
    intros i Hi. apply in_seq in Hi. apply Forall_inv in Hrect. lia. }
  destruct Hw as [w Hw]. exists w.
  destruct (generators_accepted L tp w Hm (separated_no_coincidence tp Hsep) Hw)
    as [H1 H2].
  split; assumption.
Qed.

(** ** SegmentBraidComputer: matching the strands with the exact roots *)
(** [nearest] fails only when there is no root at all. *)
Lemma nearest_total (ys : list complex) (p : complex) :
  ys <> [] -> exists y, nearest ys p = Ok y.
Proof.
  intros H. unfold nearest.
  destruct (sort (map (fun y => (norm (csub p y), y)) ys)) as [|d0 r] eqn:E.
  - exfalso. apply (f_equal (@length _)) in E.
    rewrite sort_length, length_map in E. destruct ys; [congruence | discriminate].
  - eexists. reflexivity.
Qed.

Lemma nearest_empty (p : complex) : nearest [] p = Raise IndexError.
Proof. reflexivity. Qed.

(** The root returned is one of the roots, at minimal distance. *)
Lemma nearest_spec (ys : list complex) (p y : complex) :
  nearest ys p = Ok y ->
  In y ys /\ forall y', In y' ys -> norm (csub p y) <= norm (csub p y').
Proof.
  unfold nearest. intros H. inv_bind H. inv_ok. rename v into d0.
  destruct (sort (map (fun y => (norm (csub p y), y)) ys)) as [|d0' r] eqn:Es;
    [discriminate|].
  simpl in E. injection E as ->.
  destruct (sort_head _ _ _ Es) as [HP Hle].
  assert (Hd : In d0 (map (fun y => (norm (csub p y), y)) ys)).
  { apply (Permutation_in _ (Permutation_sym HP)). left. reflexivity. }
  apply in_map_iff in Hd. destruct Hd as [y [<- Hy]]. cbn [snd].
  split; [exact Hy|].
  intros y' Hy'.
  assert (Hd' : In (norm (csub p y'), y') ((norm (csub p y), y) :: r)).
  { apply (Permutation_in _ HP). apply in_map_iff. exists y'. auto. }
  destruct Hd' as [Hd'|Hd'].
  - apply (f_equal fst) in Hd'. cbn [fst] in Hd'. rewrite Hd'. apply Qcle_refl.
  - apply Hle in Hd'. apply pair_le_fst in Hd'. cbn [fst] in Hd'.
    apply Qcltb_ge. exact Hd'.
Qed.

Lemma nearest_root_Ok (ys : list complex) (p : complex) :
  ys <> [] -> nearest ys p = Ok (nearest_root ys p).
Proof.
  intros H. unfold nearest_root. destruct (nearest_total ys p H) as [y ->].
  reflexivity.
Qed.

(** The loop that matches the approximations with the roots raises "roots
    too close" exactly when two approximations have the same nearest root,
    and builds one strand per approximation otherwise. *)
Lemma match_roots_spec (mk : complex -> complex -> strand) (ys : list complex) :
  ys <> [] ->
  forall (yaps used : list complex) (acc : list strand),
  (match_roots mk ys yaps used acc = Raise RootsTooClose
   /\ (claims_used_root ys used yaps \/ shares_nearest_root ys yaps))
  \/ (match_roots mk ys yaps used acc
        = Ok (acc ++ map (fun p => mk (nearest_root ys p) p) yaps)
      /\ ~ claims_used_root ys used yaps /\ ~ shares_nearest_root ys yaps).
Proof.
  intros Hys. induction yaps as [|yap rest IH]; intros used acc.
  - right. simpl. rewrite app_nil_r. split; [reflexivity|]. split.
    + intros [a [pa [y [H _]]]]. destruct a; discriminate.
    + intros [a [b [pa [pb [y [_ [H _]]]]]]]. destruct a; discriminate.
  - cbn [match_roots]. rewrite (nearest_root_Ok ys yap Hys). cbn [bind].
    set (y := nearest_root ys yap).
    destruct (mem y used) eqn:Em.
    + left. split; [reflexivity|]. left. exists 0%nat, yap, y.
      split; [reflexivity|]. split; [apply nearest_root_Ok; exact Hys|].
      apply mem_In. exact Em.
    + assert (Hnot : ~ In y used).
      { intros X. apply mem_In in X. congruence. }
      destruct (IH (used ++ [y]) (acc ++ [mk y yap])) as [[Hr Hc]|[Hr [Hc1 Hc2]]].
      * left. split; [exact Hr|].
        destruct Hc as [[a [pa [y' [H1 [H2 H3]]]]]|[a [b [pa [pb [y' H]]]]]].
        -- apply in_app_or in H3. destruct H3 as [H3|[<-|[]]].
           ++ left. exists (S a), pa, y'. auto.
           ++ right. exists 0%nat, (S a), yap, pa, y.
              split; [lia|]. split; [reflexivity|]. split; [exact H1|].
              split; [apply nearest_root_Ok; exact Hys | exact H2].
        -- right. exists (S a), (S b), pa, pb, y'.
           destruct H as [H1 [H2 [H3 [H4 H5]]]].
           split; [lia|]. auto.
      * right. split; [|split].
        -- rewrite Hr, <- app_assoc. reflexivity.
        -- intros [a [pa [y' [H1 [H2 H3]]]]]. destruct a as [|a].
           ++ simpl in H1. injection H1 as <-.
              rewrite (nearest_root_Ok ys yap Hys) in H2. injection H2 as <-.
              exact (Hnot H3).
           ++ apply Hc1. exists a, pa, y'. split; [exact H1|]. split; [exact H2|].
              apply in_or_app. left. exact H3.
        -- intros [a [b [pa [pb [y' [H1 [H2 [H3 [H4 H5]]]]]]]]].
           destruct b as [|b]; [lia|]. destruct a as [|a].
           ++ simpl in H2. injection H2 as <-.
              rewrite (nearest_root_Ok ys yap Hys) in H4. injection H4 as <-.
              apply Hc1. exists b, pb, y. split; [exact H3|]. split; [exact H5|].
              apply in_or_app. right. left. reflexivity.
           ++ apply Hc2. exists a, b, pa, pb, y'. split; [lia|]. auto.
Qed.

Lemma match_roots_no_root (mk : complex -> complex -> strand)
    (yap : complex) (rest used : list complex) (acc : list strand) :
  match_roots mk [] (yap :: rest) used acc = Raise IndexError.
Proof. reflexivity. Qed.

Lemma pt_of_inj (a b : complex) : pt_of a = pt_of b -> a = b.
Proof.
  intros H. pose proof (f_equal fst H) as H1. pose proof (f_equal snd H) as H2.
  destruct a, b. cbn [pt_of fst snd real imag] in H1, H2. congruence.
Qed.

Lemma never_meet_reverse (a b c e : pt) :
  never_meet (a, b) (c, e) -> never_meet (b, a) (e, c).
Proof.
  intros H t T0 T1 E. apply (H (1 - t)).
  - qc2q. lra.
  - qc2q. lra.
  - unfold along in *. cbn [fst snd] in *.
    pose proof (f_equal fst E) as E1. pose proof (f_equal snd E) as E2.
    cbn [fst snd] in E1, E2. f_equal.
    + transitivity (fst b * (1 - t) + t * fst a); [ring|]. rewrite E1. ring.
    + transitivity (snd b * (1 - t) + t * snd a); [ring|]. rewrite E2. ring.
Qed.

(** The straight segments from two approximations to their nearest roots,
    when these are different roots, do not meet: the points nearer to one
    root than to the other form a half-plane. *)
Lemma nearest_never_meet (ys : list complex) (pa pb ya yb : complex) :
  nearest ys pa = Ok ya -> nearest ys pb = Ok yb -> ya <> yb ->
  never_meet (pt_of ya, pt_of pa) (pt_of yb, pt_of pb).
Proof.
  intros Ha Hb Hne t T0 T1 E.
  destruct (nearest_spec _ _ _ Ha) as [Ia Na].
  destruct (nearest_spec _ _ _ Hb) as [Ib Nb].
  specialize (Na yb Ib). specialize (Nb ya Ia).
  pose proof (f_equal fst E) as E1. pose proof (f_equal snd E) as E2.
  unfold along in E1, E2. cbn [fst snd pt_of] in E1, E2.
  unfold norm, csub in Na, Nb. cbn [real imag] in Na, Nb.
  assert (Hp : pa = pb -> False).
  { intros X. subst pb. rewrite Ha in Hb. injection Hb as Hb. exact (Hne Hb). }
  assert (D : real ya <> real yb \/ imag ya <> imag yb).
  { destruct (Qc_eq_dec (real ya) (real yb)) as [X|X]; [|left; exact X].
    destruct (Qc_eq_dec (imag ya) (imag yb)) as [Y|Y]; [|right; exact Y].
    exfalso. apply Hne. destruct ya, yb. cbn [real imag] in X, Y. congruence. }
  destruct ya as [a1 a2], yb as [b1 b2], pa as [p1 p2], pb as [q1 q2].
  cbn [real imag] in *.
  set (S0 := (a1 - b1) * (a1 - b1) + (a2 - b2) * (a2 - b2)).
  set (X0 := (q1 - p1) * (a1 - b1) + (q2 - p2) * (a2 - b2)).
  assert (H1 : (1 - t) * (a1 - b1) = t * (q1 - p1)).
  { transitivity (a1 * (1 - t) + t * p1 - b1 * (1 - t) - t * p1); [ring|].
    rewrite E1. ring. }
  assert (H2 : (1 - t) * (a2 - b2) = t * (q2 - p2)).
  { transitivity (a2 * (1 - t) + t * p2 - b2 * (1 - t) - t * p2); [ring|].
    rewrite E2. ring. }
  assert (K : (1 - t) * S0 = t * X0).
  { unfold S0, X0.
    transitivity ((1 - t) * (a1 - b1) * (a1 - b1) + (1 - t) * (a2 - b2) * (a2 - b2));
      [ring|].
    rewrite H1, H2. ring. }
  assert (HX : X0 <= 0).
  { unfold X0. clear - Na Nb. qc2q. nra. }
  assert (HS : 0 < S0).
  { unfold S0. clear - D.
    assert (Sq : forall x y : Qc, x <> y -> 0 < (x - y) * (x - y)).
    { intros x y N. destruct (Qc_dec x y) as [[L|L]|L]; [| |contradiction];
        clear N; qc2q.
      - assert (P : (0 < (this y - this x) * (this y - this x))%Q)
          by (apply Qmult_lt_0_compat; lra).
        nra.
      - apply Qmult_lt_0_compat; lra. }
    assert (Sq0 : forall x y : Qc, 0 <= (x - y) * (x - y)).
    { intros x y. destruct (Qc_eq_dec x y) as [->|N].
      - qc2q. nra.
      - apply Qclt_le_weak, Sq, N. }
    destruct D as [D|D].
    - pose proof (Sq a1 b1 D) as P1. pose proof (Sq0 a2 b2) as P2.
      clear - P1 P2. qc2q. lra.
    - pose proof (Sq a2 b2 D) as P1. pose proof (Sq0 a1 b1) as P2.
      clear - P1 P2. qc2q. lra. }
  assert (Ht : t = 1).
  { clearbody S0 X0. clear - K HX HS T0 T1.
    destruct (Qc_dec t 1) as [[L|L]|L]; [| |exact L].
    - exfalso. qc2q. nra.
    - exfalso. qc2q. lra. }
  subst t. apply Hp.
  assert (P1 : p1 = q1) by (clear - E1; qc2q; lra).
  assert (P2 : p2 = q2) by (clear - E2; qc2q; lra).
  congruence.
Qed.

(** *** Families of strands with two samples *)

Lemma two_samples_wf (s : strand) : two_samples s -> wf_strand s.
Proof.
  intros [a [b ->]]. split; [simpl; lia|]. split.
  - intros p q Hpq Hq. simpl in Hq.
    assert (p = 0%nat) by lia. assert (q = 1%nat) by lia. subst.
    unfold time_at. simpl. reflexivity.
  - reflexivity.
Qed.

Lemma mapM_map_list {A B C : Type} (f : B -> result C) (g : A -> B) (l : list A) :
  mapM f (map g l) = mapM (fun x => f (g x)) l.
Proof.
  induction l as [|x r IH]; [reflexivity|]. simpl. rewrite IH. reflexivity.
Qed.

Lemma combine_map_same {A B C : Type} (f : A -> B) (g : A -> C) (l : list A) :
  combine (map f l) (map g l) = map (fun x => (f x, g x)) l.
Proof.
  induction l as [|x r IH]; [reflexivity|]. simpl. rewrite IH. reflexivity.
Qed.

Lemma ForallOrdPairs_map {A B : Type} (R : B -> B -> Prop) (h : A -> B) (l : list A) :
  ForallOrdPairs (fun x y => R (h x) (h y)) l -> ForallOrdPairs R (map h l).
Proof.
  induction 1 as [|x r Hx _ IH]; simpl; constructor; [|exact IH].
  apply Forall_map. exact Hx.
Qed.

Lemma ForallOrdPairs_of_nth {A : Type} (R : A -> A -> Prop) (l : list A) (dflt : A) :
  (forall k j, (k < j)%nat -> (j < length l)%nat -> R (nth k l dflt) (nth j l dflt)) ->
  ForallOrdPairs R l.
Proof.
  induction l as [|x r IH]; intros H; constructor.
  - apply Forall_forall. intros y Hy.
    destruct (In_nth _ _ dflt Hy) as [n [Hn <-]].
    apply (H 0%nat (S n)); simpl; lia.
  - apply IH. intros k j Hkj Hj. apply (H (S k) (S j)); simpl; lia.
Qed.

(** The table of a family of strands with two samples has two columns. *)
Lemma merge_two_samples (L : list strand) :
  L <> [] -> (forall s, In s L -> two_samples s) ->
  merge L = Ok (map (fun s => [first_point s; last_point s]) L).
Proof.
  intros Hne H2.
  assert (Hwf : forall s, In s L -> wf_strand s)
    by (intros s Hs; apply two_samples_wf, H2, Hs).
  destruct (merge_total L Hwf Hne) as [T [HT Hm]]. rewrite Hm.
  assert (Hmin : min_list (all_times L) = Ok 1).
  { apply min_list_spec. split; [apply one_in_all_times; assumption|].
    intros u Hu. apply all_times_In in Hu.
    destruct Hu as [s [q [Hs [Hq1 [Hq2 ->]]]]].
    destruct (H2 s Hs) as [a [b ->]]. simpl in Hq2.
    assert (q = 1%nat) by lia. subst q. apply Qcle_refl. }
  unfold common_times in HT. rewrite Hmin in HT. cbn [bind] in HT.
  assert (ET : T = []).
  { destruct (merge_fuel L); cbn [common_loop] in HT;
      rewrite (proj2 (Qcltb_ge 1 1) (Qcle_refl 1)) in HT; congruence. }
  subst T. reflexivity.
Qed.

Lemma two_columns_separated (L : list strand) :
  ForallOrdPairs (fun s s' => never_meet (first_point s, last_point s)
                                          (first_point s', last_point s')) L ->
  separated (map (fun s => [first_point s; last_point s]) L).
Proof.
  intros H i l1 l2 H1 H2. unfold column in H1, H2.
  rewrite mapM_map_list in H1, H2.
  destruct L as [|s r].
  { simpl in H1. inv_ok. constructor. }
  destruct i as [|i].
  - rewrite (mapM_map _ first_point) in H1
      by (apply Forall_forall; intros x _; reflexivity).
    rewrite (mapM_map _ last_point) in H2
      by (apply Forall_forall; intros x _; reflexivity).
    inv_ok.
    change (ForallOrdPairs never_meet
              (combine (map first_point (s :: r)) (map last_point (s :: r)))).
    rewrite combine_map_same.
    apply (ForallOrdPairs_map never_meet (fun x => (first_point x, last_point x))).
    exact H.
  - exfalso. cbn [mapM] in H2.
    replace (S i + 1)%nat with (S (S i)) in H2 by lia.
    unfold index in H2 at 1. destruct i; simpl in H2; discriminate.
Qed.

(** The boundary braids: the strands from the exact roots to the
    approximations matched with them, or back. *)
Lemma matched_braid_total (mk : complex -> complex -> strand)
    (ys yaps : list complex) :
  mk = initial_strand \/ mk = final_strand ->
  yaps <> [] ->
  (forall p, In p yaps -> exists y, nearest ys p = Ok y) ->
  ~ shares_nearest_root ys yaps ->
  exists b, braid_from_piecewise (map (fun p => mk (nearest_root ys p) p) yaps) = Ok b.
Proof.
  intros Hmk Hne Hnear Hno.
  set (L := map (fun p => mk (nearest_root ys p) p) yaps).
  assert (HL : L <> []).
  { unfold L. destruct yaps; [congruence | discriminate]. }
  assert (H2 : forall s, In s L -> two_samples s).
  { intros s Hs. apply in_map_iff in Hs. destruct Hs as [p [<- _]].
    destruct Hmk as [-> | ->]; eexists; eexists; reflexivity. }
  destruct (braid_from_piecewise_total L HL) as [w [Hw _]].
  - intros s Hs. apply two_samples_wf, H2, Hs.
  - intros tp Hm. rewrite (merge_two_samples L HL H2) in Hm. inv_ok.
    apply two_columns_separated. unfold L.
    apply (ForallOrdPairs_map
             (fun s s' => never_meet (first_point s, last_point s)
                                     (first_point s', last_point s'))).
    apply (ForallOrdPairs_of_nth _ _ (Cx 0 0)).
    intros k j Hkj Hj.
    set (pa := nth k yaps (Cx 0 0)). set (pb := nth j yaps (Cx 0 0)).
    assert (Ia : nth_error yaps k = Some pa) by (apply nth_error_nth'; lia).
    assert (Ib : nth_error yaps j = Some pb) by (apply nth_error_nth'; lia).
    destruct (Hnear pa (nth_error_In _ _ Ia)) as [ya Ha].
    destruct (Hnear pb (nth_error_In _ _ Ib)) as [yb Hb].
    assert (Hne' : ya <> yb).
    { intros X. subst yb. apply Hno. exists k, j, pa, pb, ya. auto. }
    unfold nearest_root. rewrite Ha, Hb.
    pose proof (nearest_never_meet ys pa pb ya yb Ha Hb Hne') as NM.
    destruct Hmk as [-> | ->].
    + exact NM.
    + apply never_meet_reverse. exact NM.
  - exists w. exact Hw.
Qed.

(** ** SegmentBraidComputer: "roots too close" *)

(** A family for which [braid_from_piecewise] returns is not empty, and its
    strands have at least two samples. *)
Lemma braid_from_piecewise_Ok_shape (L : list strand) (b : list Z) :
  braid_from_piecewise L = Ok b ->
  L <> [] /\ forall s, In s L -> s <> [].
Proof.
  intros H. unfold braid_from_piecewise in H.
  apply bind_Ok in H. destruct H as [w [Hw _]].
  unfold braid_word in Hw. apply bind_Ok in Hw. destruct Hw as [tp [Hm _]].
  unfold merge in Hm. apply bind_Ok in Hm. destruct Hm as [ts [Hts Hm]].
  apply bind_Ok in Hm. destruct Hm as [i [Hi _]].
  split.
  - intros ->. simpl in Hts. injection Hts as <-. discriminate Hi.
  - intros s Hs ->. apply mapM_Ok in Hts.
    destruct (Forall2_In_l Hts Hs) as [t [_ Ht]]. discriminate Ht.
Qed.

Lemma start_points_Ok (strands : list (list (Qc * Qc * Qc))) :
  (forall s, In s (map complex_strand strands) -> s <> []) ->
  mapM (fun c : list (Qc * complex) => s <- index c 0 ;; Ok (snd s))
       (map complex_strand strands)
  = Ok (start_points strands).
Proof.
  intros H. rewrite mapM_map_list. unfold start_points. apply mapM_map.
  apply Forall_forall. intros b Hb. cbv beta.
  specialize (H (complex_strand b) (in_map _ _ _ Hb)).
  destruct (complex_strand b); [congruence | reflexivity].
Qed.

Lemma end_points_Ok (strands : list (list (Qc * Qc * Qc))) :
  (forall s, In s (map complex_strand strands) -> s <> []) ->
  mapM (fun c : list (Qc * complex) => s <- index_last c ;; Ok (snd s))
       (map complex_strand strands)
  = Ok (end_points strands).
Proof.
  intros H. rewrite mapM_map_list. unfold end_points. apply mapM_map.
  apply Forall_forall. intros b Hb. cbv beta.
  specialize (H (complex_strand b) (in_map _ _ _ Hb)).
  rewrite (@index_last_Ok (Qc * complex) (complex_strand b) (0, Cx 0 0) H).
  reflexivity.
Qed.

Lemma shares_no_root (yaps : list complex) : ~ shares_nearest_root [] yaps.
Proof. intros [a [b [pa [pb [y [_ [_ [_ [H _]]]]]]]]]. discriminate H. Qed.

Lemma claims_nothing_used (ys yaps : list complex) : ~ claims_used_root ys [] yaps.
Proof. intros [a [pa [y [_ [_ []]]]]]. Qed.

Section BraidInSegmentFacts.

Context (poly : Type)
  (roots : poly -> complex -> list complex)
  (interval_coefficients : poly -> complex -> complex -> nat -> nat * list Qc)
  (contpath : nat -> list Qc -> Qc -> Qc -> result (list (Qc * Qc * Qc)))
  (contpath_mp : nat -> list Qc -> Qc -> Qc -> nat -> result (list (Qc * Qc * Qc))).

Local Abbreviation the_braid_in_segment :=
  (braid_in_segment poly roots interval_coefficients contpath contpath_mp).

Local Abbreviation the_tracker :=
  (followstrand poly interval_coefficients contpath contpath_mp).


End BraidInSegmentFacts.




(** ** Further properties of the code *)
(** The common times are visited in increasing order, each once. *)
Lemma common_loop_spec (L : list strand) (fuel : nat) :
  forall (i : Qc) (T : list Qc),
  common_loop fuel L i = Ok T ->
  StronglySorted Qclt T
  /\ (forall u, In u T -> i <= u /\ u < 1 /\ (u = i \/ In u (all_times L)))
  /\ (forall u, u = i \/ In u (all_times L) -> i <= u -> u < 1 -> In u T).
Proof.
  induction fuel as [|fuel IH]; intros i T H.
  - simpl in H. destruct (Qcltb i 1) eqn:Ei; [discriminate|]. inv_ok.
    apply Qcltb_ge in Ei. split; [constructor|]. split; [intros u []|].
    intros u _ H1 H2. exfalso.
    apply (Qclt_not_le _ _ H2). eapply Qcle_trans; eassumption.
  - cbn [common_loop] in H. destruct (Qcltb i 1) eqn:Ei.
    + apply Qcltb_lt in Ei. inv_bind H. inv_bind H. inv_ok.
      rename v into i', v0 into r.
      unfold next_time in E. apply min_list_spec in E. destruct E as [Hin Hmin].
      apply filter_In in Hin. destruct Hin as [Hin Hlt]. apply Qcltb_lt in Hlt.
      destruct (IH i' r E0) as [S1 [S2 S3]].
      split; [|split].
      * constructor; [exact S1|]. apply Forall_forall. intros u Hu.
        destruct (S2 u Hu) as [X _]. eapply Qclt_le_trans; eassumption.
      * intros u [<-|Hu].
        -- split; [apply Qcle_refl|]. split; [exact Ei | left; reflexivity].
        -- destruct (S2 u Hu) as [X1 [X2 X3]].
           split; [apply Qclt_le_weak; eapply Qclt_le_trans; eassumption|].
           split; [exact X2|]. right. destruct X3 as [->|X3]; assumption.
      * intros u Hu H1 H2.
        destruct (Qc_eq_dec u i) as [->|N]; [left; reflexivity|]. right.
        assert (Hu' : In u (all_times L)) by (destruct Hu; [contradiction | assumption]).
        assert (Hiu : i < u).
        { destruct (Qc_dec i u) as [[X|X]|X]; [exact X | | congruence].
          exfalso. exact (Qclt_not_le _ _ X H1). }
        apply S3; [right; exact Hu' | | exact H2].
        apply Hmin. apply filter_In. split; [exact Hu' | apply Qcltb_lt; exact Hiu].
    + inv_ok. apply Qcltb_ge in Ei. split; [constructor|]. split; [intros u []|].
      intros u _ H1 H2. exfalso.
      apply (Qclt_not_le _ _ H2). eapply Qcle_trans; eassumption.
Qed.

Lemma common_times_spec (L : list strand) (T : list Qc) :
  common_times L = Ok T ->
  StronglySorted Qclt T
  /\ forall u, In u T <-> (In u (all_times L) /\ u < 1).
Proof.
  unfold common_times. intros H. inv_bind H. rename v into i0.
  apply min_list_spec in E. destruct E as [Hin Hmin].
  destruct (common_loop_spec L _ i0 T H) as [S1 [S2 S3]].
  split; [exact S1|]. intros u. split.
  - intros Hu. destruct (S2 u Hu) as [_ [X2 X3]]. split; [|exact X2].
    destruct X3 as [->|X3]; assumption.
  - intros [Hu H1]. apply S3; [right; exact Hu | apply Hmin; exact Hu | exact H1].
Qed.

(** The merge of [braid_from_piecewise] (source lines 68-83).  For a
    non-empty family of strands with at least two samples each, strictly
    increasing sample times and last time 1, the [while] loop ends and
    [totalpoints] holds, for every strand: its first sample; then its position
    at each sample time below 1 of the family, from the second sample of each
    strand on, in increasing order of time -- the sample itself where the
    strand has one at that time, the linear interpolation between the
    neighbouring samples otherwise; then its last sample. *)
Theorem merge_onto_common_times (L : list strand) :
  L <> [] -> (forall s, In s L -> wf_strand s) ->
  exists T,
    merge L = Ok (map (merged_row T) L)
    /\ StronglySorted Qclt T
    /\ forall u, In u T <-> (In u (all_times L) /\ u < 1).
Proof.
  intros Hne Hwf. destruct (merge_total L Hwf Hne) as [T [HT Hm]].
  exists T. split; [exact Hm|]. apply common_times_spec. exact HT.
Qed.

Lemma merge_onto_common_times_witness :
  exists T,
    merge docstring_paths = Ok (map (merged_row T) docstring_paths)
    /\ StronglySorted Qclt T
    /\ forall u, In u T <-> (In u (all_times docstring_paths) /\ u < 1).
Proof.
  apply (merge_onto_common_times docstring_paths).
  - discriminate.
  - apply wf_family. vm_compute. reflexivity.
Defined.

(** The example of the docstring of [braid_from_piecewise]: the braid is
    [s0*s1]. *)
Theorem braid_from_piecewise_docstring_example :
  braid_from_piecewise docstring_paths = Ok [1; 2]%Z.
Proof. vm_compute. reflexivity. Qed.


Lemma crossing_strands_never_meet :
  never_meet (first_point [ (0, Cx 0 0); (1, Cx 1 0) ],
              last_point [ (0, Cx 0 0); (1, Cx 1 0) ])
             (first_point [ (0, Cx 1 1); (1, Cx 0 1) ],
              last_point [ (0, Cx 1 1); (1, Cx 0 1) ]).
Proof.
  intros t _ _ E. apply (f_equal snd) in E. revert E.
  unfold along, first_point, last_point, pt_of. cbn [fst snd hd last real imag].
  intros E. qc2q. lra.
Qed.


Lemma concat_length_const {A : Type} (d : nat) (ls : list (list A)) :
  Forall (fun l => length l = d) ls -> length (concat ls) = (d * length ls)%nat.
Proof.
  induction 1 as [|l r Hl _ IH]; simpl; [lia|].
  rewrite length_app, Hl, IH. lia.
Qed.

Section RelatorCount.

Context (poly : Type)
  (radical : poly -> poly)
  (degree_y total_degree : poly -> nat)
  (leading_coefficient_constant : poly -> nat -> bool)
  (shear : poly -> poly)
  (discrim : poly -> list complex)
  (roots : poly -> complex -> list complex)
  (Voronoi : list pt -> result voronoi)
  (interval_coefficients : poly -> complex -> complex -> nat -> nat * list Qc)
  (contpath : nat -> list Qc -> Qc -> Qc -> result (list (Qc * Qc * Qc)))
  (contpath_mp : nat -> list Qc -> Qc -> Qc -> nat -> result (list (Qc * Qc * Qc)))
  (braid_action : nat -> list Z -> list Z -> list Z)
  (simplified_presentation : presentation -> presentation).

(** The unsimplified presentation has [d] relators for every segment of the
    network, one per sheet, after the relator [x0 * ... * x(d-1)] that the
    projective case adds.  In the projective case the presentation is taken
    to have generators: the relator [x0 * ... * x(d-1)] is built from the
    generators [F.gen(0)], ..., [F.gen(d-1)] of the free group. *)
Theorem fundamental_group_relator_count
    (fuel : nat) (f : poly) (projective : bool) (G : presentation) :
  fundamental_group poly radical degree_y total_degree
    leading_coefficient_constant shear discrim roots Voronoi
    interval_coefficients contpath contpath_mp braid_action
    simplified_presentation fuel f false projective = Ok G ->
  (projective = true -> ngens G <> 0%nat) ->
  exists g segs,
    shift_coordinates poly degree_y total_degree leading_coefficient_constant shear
      fuel projective (radical f) = Ok g
    /\ segments Voronoi (discrim g) = Ok segs
    /\ length (relators G)
       = ((if projective then 1 else 0) + degree_y g * length segs)%nat
    /\ (projective = true ->
        hd [] (relators G) = map (fun i => Z.of_nat i + 1)%Z (seq 0 (degree_y g))).
Proof.
  unfold fundamental_group. intros H _.
  inv_bind H. inv_bind H. inv_bind H. inv_bind H. inv_ok.
  rename v into g, v0 into segs, v1 into braidscomputed, v2 into new.
  exists g, segs. split; [exact E|]. split; [exact E0|]. cbn [relators]. split.
  - rewrite length_app.
    rewrite (concat_length_const (degree_y g)).
    + rewrite (mapM_length _ _ _ E2), (mapM_length _ _ _ E1).
      destruct projective; reflexivity.
    + apply mapM_Ok in E2. clear - E2.
      induction E2 as [|sb rs l l' Hsb _ IH]; constructor; [|exact IH].
      unfold segment_relators in Hsb. inv_bind Hsb. inv_bind Hsb. inv_ok.
      rewrite length_map, length_seq. reflexivity.
  - intros ->. reflexivity.
Qed.

End RelatorCount.

Lemma fundamental_group_relator_count_witness :
  line_fundamental_group 1 false false = Ok line_presentation
  /\ exists (g : unit) segs,
       segments sample_Voronoi [Cx 0 0] = Ok segs
       /\ length (relators line_presentation) = (0 + 2 * length segs)%nat.
Proof.
  assert (H : line_fundamental_group 1 false false = Ok line_presentation)
    by (vm_compute; reflexivity).
  split; [exact H|].
  destruct (fundamental_group_relator_count unit (fun f => f) (fun _ => 2%nat)
              (fun _ => 2%nat) (fun _ _ => true) (fun f => f) (fun _ => [Cx 0 0])
              line_roots sample_Voronoi line_coefficients line_contpath
              line_contpath_mp artin_action (fun G => G)
              1 tt false line_presentation H ltac:(discriminate))
    as [g [segs [_ [H1 [H2 _]]]]].
  exists g, segs. auto.
Defined.

(** ** The exceptions of [braid_from_piecewise] *)

Lemma mapM_Raise_inv {A B : Type} (f : A -> result B) (xs : list A) (e : exn) :
  mapM f xs = Raise e -> exists x, In x xs /\ f x = Raise e.
Proof.
  induction xs as [|x r IH]; simpl; intros H; [discriminate|].
  destruct (f x) as [y| e'|] eqn:E; simpl in H; try discriminate.
  - destruct (mapM f r) as [ys|e'|]; simpl in H; try discriminate.
    destruct IH as [x' [Hx' Hf]]; [exact H|]. exists x'. auto.
  - exists x. split; [left; reflexivity | congruence].
Qed.

Lemma mapM_OutOfFuel_inv {A B : Type} (f : A -> result B) (xs : list A) :
  mapM f xs = OutOfFuel -> exists x, In x xs /\ f x = OutOfFuel.
Proof.
  induction xs as [|x r IH]; simpl; intros H; [discriminate|].
  destruct (f x) as [y| e'|] eqn:E; simpl in H; try discriminate.
  - destruct (mapM f r) as [ys|e'|]; simpl in H; try discriminate.
    destruct IH as [x' [Hx' Hf]]; [reflexivity|]. exists x'. auto.
  - exists x. split; [left; reflexivity | exact E].
Qed.

(** The first element on which [f] fails decides the exception. *)
Lemma mapM_raise {A B : Type} (f : A -> result B) (e : exn) (xs : list A) :
  (forall x, In x xs -> (exists y, f x = Ok y) \/ f x = Raise e) ->
  (exists x, In x xs /\ f x = Raise e) ->
  mapM f xs = Raise e.
Proof.
  induction xs as [|x r IH]; intros Hall [x0 [Hin Hx0]]; [destruct Hin|].
  simpl. destruct (Hall x (or_introl eq_refl)) as [[y Hy]|Hy].
  - rewrite Hy. cbn [bind]. rewrite IH; [reflexivity | |].
    + intros x' Hx'. apply Hall. right. exact Hx'.
    + destruct Hin as [->|Hin]; [congruence|]. exists x0. auto.
  - rewrite Hy. reflexivity.
Qed.

Lemma crossing_at_cases (l1 l2 : list pt) (j k : nat) :
  length l1 = length l2 -> (k < j)%nat -> (j < length l2)%nat ->
  ((exists r, crossing_at l1 l2 j k = Ok r) /\ ~ zero_divisor l1 l2 k j)
  \/ (crossing_at l1 l2 j k = Raise ZeroDivisionError /\ zero_divisor l1 l2 k j).
Proof.
  intros Hlen Hkj Hj.
  destruct (pt_ltb (point_at l2 j) (point_at l2 k)) eqn:E.
  - destruct (Qc_eq_dec (slice_den l1 l2 k j) 0) as [Z0|N].
    + right. split; [|repeat split; assumption].
      unfold crossing_at.
      rewrite (index_nth l2 j (0, 0)) by exact Hj.
      rewrite (index_nth l2 k (0, 0)) by lia. cbn [bind].
      fold (point_at l2 j) (point_at l2 k). rewrite E.
      rewrite (index_nth l1 j (0, 0)) by lia.
      rewrite (index_nth l1 k (0, 0)) by lia. cbn [bind].
      fold (point_at l1 j) (point_at l1 k).
      unfold slice_den, crossing_den in Z0.
      unfold div. rewrite (proj2 (Qceqb_eq _ 0) Z0). reflexivity.
    + left. split.
      * apply crossing_at_total; auto.
      * intros [_ [_ [_ Z0]]]. contradiction.
  - left. split.
    + apply crossing_at_total; auto. intros X. congruence.
    + intros [_ [_ [X _]]]. congruence.
Qed.

(** The two nested loops over the pairs of strands raise only
    [ZeroDivisionError], and do so exactly when some crossing time has a
    zero divisor. *)
Lemma find_cruces_cases (l1 l2 : list pt) :
  length l1 = length l2 ->
  ((exists cruces, find_cruces l1 l2 = Ok cruces)
   /\ forall k j, ~ zero_divisor l1 l2 k j)
  \/ (find_cruces l1 l2 = Raise ZeroDivisionError
      /\ exists k j, zero_divisor l1 l2 k j).
Proof.
  intros Hlen.
  set (inner := fun j => r <- mapM (crossing_at l1 l2 j) (seq 0 j) ;; Ok (concat r)).
  assert (Hinner : forall j, (j < length l2)%nat ->
            ((exists r, inner j = Ok r)
             /\ forall k, ~ zero_divisor l1 l2 k j)
            \/ (inner j = Raise ZeroDivisionError /\ exists k, zero_divisor l1 l2 k j)).
  { intros j Hj. unfold inner.
    destruct (mapM (crossing_at l1 l2 j) (seq 0 j)) as [r|e|] eqn:E.
    - left. split; [eexists; reflexivity|].
      intros k Hz. pose proof Hz as [Hkj _].
      apply mapM_Ok in E.
      assert (I : In k (seq 0 j)) by (apply in_seq; lia).
      destruct (Forall2_In_l E I) as [r' [_ Hr']].
      destruct (crossing_at_cases l1 l2 j k Hlen Hkj Hj) as [[_ N]|[X _]];
        [exact (N Hz) | congruence].
    - right. apply mapM_Raise_inv in E. destruct E as [k [Hk Hr]].
      apply in_seq in Hk.
      destruct (crossing_at_cases l1 l2 j k Hlen ltac:(lia) Hj) as [[[r X] _]|[X Hz]];
        [congruence|].
      assert (e = ZeroDivisionError) by congruence. subst e.
      split; [reflexivity | exists k; exact Hz].
    - exfalso. apply mapM_OutOfFuel_inv in E. destruct E as [k [Hk Hr]].
      apply in_seq in Hk.
      destruct (crossing_at_cases l1 l2 j k Hlen ltac:(lia) Hj) as [[[r X] _]|[X _]];
        congruence. }
  unfold find_cruces. fold inner.
  destruct (mapM inner (seq 0 (length l2))) as [r|e|] eqn:E.
  - left. split; [eexists; reflexivity|].
    intros k j Hz. pose proof Hz as [_ [Hj _]].
    apply mapM_Ok in E.
    assert (I : In j (seq 0 (length l2))) by (apply in_seq; lia).
    destruct (Forall2_In_l E I) as [r' [_ Hr']].
    destruct (Hinner j Hj) as [[_ N]|[X _]]; [exact (N k Hz) | congruence].
  - right. apply mapM_Raise_inv in E. destruct E as [j [Hj Hr]].
    apply in_seq in Hj.
    destruct (Hinner j ltac:(lia)) as [[[r X] _]|[X [k Hz]]]; [congruence|].
    assert (e = ZeroDivisionError) by congruence. subst e.
    split; [reflexivity | exists k, j; exact Hz].
  - exfalso. apply mapM_OutOfFuel_inv in E. destruct E as [j [Hj Hr]].
    apply in_seq in Hj.
    destruct (Hinner j ltac:(lia)) as [[[r X] _]|[X _]]; congruence.
Qed.

Lemma sorted_positions {A : Type} `{OrderLaws A} (M : list A) (dflt p q : A) :
  StronglySorted le M -> In p M -> In q M -> ltb p q = true ->
  exists k j, (k < j)%nat /\ (j < length M)%nat
              /\ nth k M dflt = p /\ nth j M dflt = q.
Proof.
  intros HS Hp Hq Hlt.
  destruct (In_nth _ _ dflt Hp) as [k [Hk Ek]].
  destruct (In_nth _ _ dflt Hq) as [j [Hj Ej]].
  destruct (Nat.lt_trichotomy k j) as [L|[E|L]].
  - exists k, j. auto.
  - exfalso. subst j. rewrite Ek in Ej. subst q.
    rewrite ltb_irrefl in Hlt. discriminate.
  - exfalso. pose proof (StronglySorted_nth _ _ dflt HS j k L Hk) as X.
    rewrite Ek, Ej in X. unfold le in X. congruence.
Qed.

Lemma pt_eq (p q : pt) : fst p = fst q -> snd p = snd q -> p = q.
Proof. destruct p, q. simpl. intros -> ->. reflexivity. Qed.

Lemma pt_ltb_intro (p q : pt) :
  fst p < fst q \/ (fst p = fst q /\ snd p < snd q) -> pt_ltb p q = true.
Proof.
  unfold pt_ltb, ltb. unfold ocompare at 1. unfold Order_prod.
  intros [L|[E L]].
  - assert (X : ocompare (fst p) (fst q) = Lt) by (apply Qclt_alt; exact L).
    rewrite X. reflexivity.
  - assert (X : ocompare (fst p) (fst q) = Eq) by (apply Qceq_alt; exact E).
    assert (Y : ocompare (snd p) (snd q) = Lt) by (apply Qclt_alt; exact L).
    rewrite X, Y. reflexivity.
Qed.

Lemma pair_ltb_fst {A B : Type} `{Order A} `{Order B} (x y : A * B) :
  ltb (fst x) (fst y) = true -> ltb x y = true.
Proof.
  unfold ltb. unfold ocompare at 2. unfold Order_prod.
  destruct (ocompare (fst x) (fst y)); congruence.
Qed.

(** In the sorted columns of a slice a crossing time has a zero divisor
    exactly when two strands swap at a constant real part. *)
Lemma zero_divisor_vertical_swap (l1 l2 : list pt) :
  length l1 = length l2 ->
  (exists k j, zero_divisor (map fst (sorted_pairs l1 l2))
                            (map snd (sorted_pairs l1 l2)) k j)
  <-> vertical_swap l1 l2.
Proof.
  intros Hlen. set (M := sorted_pairs l1 l2).
  assert (HS : StronglySorted le M) by apply sort_sorted.
  assert (HP : forall x, In x M <-> In x (combine l1 l2)).
  { intros x. split; apply Permutation_in;
      [apply sort_perm | apply Permutation_sym, sort_perm]. }
  assert (Hnth : forall x, (x < length M)%nat ->
            point_at (map fst M) x = fst (nth x M ((0, 0), (0, 0)))
            /\ point_at (map snd M) x = snd (nth x M ((0, 0), (0, 0)))).
  { intros x Hx. unfold point_at. split.
    - apply (@nth_map_lt (pt * pt) pt fst M x ((0, 0), (0, 0)) (0, 0) Hx).
    - apply (@nth_map_lt (pt * pt) pt snd M x ((0, 0), (0, 0)) (0, 0) Hx). }
  split.
  - intros [k [j [Hkj [Hj [Hlt Hden]]]]]. rewrite length_map in Hj.
    pose proof (Nat.lt_trans _ _ _ Hkj Hj) as Hk.
    destruct (Hnth k Hk) as [A1 B1]. destruct (Hnth j Hj) as [A2 B2].
    unfold slice_den in Hden. rewrite A1, A2, B1, B2 in Hden.
    rewrite B1, B2 in Hlt.
    set (p := nth k M ((0, 0), (0, 0))) in *.
    set (q := nth j M ((0, 0), (0, 0))) in *.
    assert (Hle : le p q) by (apply (StronglySorted_nth _ _ _ HS); assumption).
    exists p, q.
    split; [apply HP, nth_In; exact Hk|]. split; [apply HP, nth_In; exact Hj|].
    destruct (pt_le_cases _ _ (pair_le_fst _ _ Hle)) as [L1|[E1 L1]];
      destruct (pt_ltb_cases _ _ Hlt) as [L2|[E2 L2]];
      unfold crossing_den in Hden;
      try (exfalso; clear - L1 L2 Hden; qc2q; lra);
      try (exfalso; clear - L1 E2 Hden; qc2q; lra);
      try (exfalso; clear - E1 L2 Hden; qc2q; lra).
    split; [exact E1|]. split; [symmetry; exact E2|]. split; [|exact L2].
    destruct (Qc_dec (snd (fst p)) (snd (fst q))) as [[L|L]|E]; [exact L | |].
    + exfalso. exact (Qclt_not_le _ _ L L1).
    + exfalso. assert (Ef : fst p = fst q) by (apply pt_eq; assumption).
      pose proof (pair_le_snd _ _ Ef Hle) as X. unfold le in X.
      unfold pt_ltb in Hlt. congruence.
  - intros [p [q [Hp [Hq [E1 [E2 [L1 L2]]]]]]].
    assert (Hpq : ltb p q = true).
    { apply pair_ltb_fst. apply pt_ltb_intro. right. auto. }
    destruct (sorted_positions M ((0, 0), (0, 0)) p q HS
                (proj2 (HP p) Hp) (proj2 (HP q) Hq) Hpq)
      as [k [j [Hkj [Hj [Ek Ej]]]]].
    pose proof (Nat.lt_trans _ _ _ Hkj Hj) as Hk.
    destruct (Hnth k Hk) as [A1 B1]. destruct (Hnth j Hj) as [A2 B2].
    exists k, j. split; [exact Hkj|]. split; [rewrite length_map; exact Hj|].
    unfold slice_den. rewrite A1, A2, B1, B2, Ek, Ej. split.
    + apply pt_ltb_intro. right. auto.
    + unfold crossing_den. rewrite E1, E2. ring.
Qed.

(** The crossings of a slice are computed unless two strands swap at a
    constant real part, in which case [ZeroDivisionError] is raised. *)
Lemma slice_cruces_cases (l1 l2 : list pt) :
  length l1 = length l2 ->
  ((exists cruces, slice_cruces l1 l2 = Ok cruces) /\ ~ vertical_swap l1 l2)
  \/ (slice_cruces l1 l2 = Raise ZeroDivisionError /\ vertical_swap l1 l2).
Proof.
  intros Hlen. unfold slice_cruces.
  destruct (find_cruces_cases (map fst (sorted_pairs l1 l2))
              (map snd (sorted_pairs l1 l2)))
    as [[Hok Hno]|[Hr Hz]]; [rewrite !length_map; reflexivity | |].
  - left. split; [exact Hok|]. intros V.
    apply (zero_divisor_vertical_swap l1 l2 Hlen) in V.
    destruct V as [k [j Hz]]. exact (Hno k j Hz).
  - right. split; [exact Hr|].
    apply (zero_divisor_vertical_swap l1 l2 Hlen). exact Hz.
Qed.

Lemma slice_cases (d : nat) (l1 l2 : list pt) (braid : list Z) :
  length l1 = d -> length l2 = d ->
  ((exists w, slice d l1 l2 braid = Ok (braid ++ w)) /\ ~ vertical_swap l1 l2)
  \/ (slice d l1 l2 braid = Raise ZeroDivisionError /\ vertical_swap l1 l2).
Proof.
  intros H1 H2.
  destruct (slice_cruces_cases l1 l2 ltac:(congruence)) as [[[cruces Hc] N]|[Hr V]].
  - left. split; [|exact N].
    destruct (slice_spec d l1 l2 braid cruces H1 H2 Hc) as [w [Hs _]].
    exists w. exact Hs.
  - right. split; [|exact V].
    rewrite slice_unfold by congruence. rewrite Hr. reflexivity.
Qed.

Lemma column_Ok_lt (tp : list (list pt)) (n i : nat) (l : list pt) :
  rectangular tp n -> tp <> [] -> column tp i = Ok l -> (i < n)%nat.
Proof.
  intros Hrect Hne H. destruct tp as [|r tp']; [congruence|].
  unfold column in H. cbn [mapM] in H. inv_bind H.
  apply index_Ok in E. apply Forall_inv in Hrect.
  assert (X : nth_error r i <> None) by congruence.
  apply nth_error_Some in X. lia.
Qed.

Lemma slices_cases (d : nat) (tp : list (list pt)) (n : nat) :
  length tp = d -> rectangular tp n ->
  forall (range : list nat) (braid : list Z),
  (forall i, In i range -> (i + 1 < n)%nat) ->
  ((exists braid', slices d tp range braid = Ok braid')
   /\ forall i l1 l2, In i range -> column tp i = Ok l1 ->
        column tp (i + 1) = Ok l2 -> ~ vertical_swap l1 l2)
  \/ (slices d tp range braid = Raise ZeroDivisionError
      /\ exists i l1 l2, In i range /\ column tp i = Ok l1
           /\ column tp (i + 1) = Ok l2 /\ vertical_swap l1 l2).
Proof.
  intros Hd Hrect. induction range as [|i range IH]; intros braid Hr.
  - left. split; [eexists; reflexivity|]. intros i l1 l2 [].
  - cbn [slices].
    destruct (column_Ok tp n i Hrect) as [l1 [H1 L1]];
      [specialize (Hr i (or_introl eq_refl)); lia|].
    destruct (column_Ok tp n (i + 1) Hrect) as [l2 [H2 L2]];
      [apply Hr; left; reflexivity|].
    rewrite H1, H2. cbn [bind].
    destruct (slice_cases d l1 l2 braid ltac:(congruence) ltac:(congruence))
      as [[[w Hs] N]|[Hs V]].
    + rewrite Hs. cbn [bind].
      destruct (IH (braid ++ w) (fun j Hj => Hr j (or_intror Hj)))
        as [[Hok Hno]|[Hraise [i' [l1' [l2' [Hi' X]]]]]].
      * left. split; [exact Hok|].
        intros i' l1' l2' [<-|Hi'] H1' H2'.
        -- assert (l1' = l1) by congruence. assert (l2' = l2) by congruence.
           subst. exact N.
        -- apply (Hno i' l1' l2' Hi' H1' H2').
      * right. split; [exact Hraise|]. exists i', l1', l2'.
        split; [right; exact Hi' | exact X].
    + rewrite Hs. cbn [bind]. right. split; [reflexivity|].
      exists i, l1, l2. split; [left; reflexivity | auto].
Qed.

(** The list [braid] is built unless some slice has two strands that swap
    at a constant real part; [ZeroDivisionError] is raised then. *)
Lemma braid_word_cases (L : list strand) :
  L <> [] -> (forall s, In s L -> wf_strand s) ->
  exists tp,
    merge L = Ok tp
    /\ (((exists w, braid_word L = Ok w) /\ ~ some_slice vertical_swap tp)
        \/ (braid_word L = Raise ZeroDivisionError /\ some_slice vertical_swap tp)).
Proof.
  intros Hne Hwf. destruct (merge_total L Hwf Hne) as [T [_ Hm]].
  set (tp := map (merged_row T) L) in *. exists tp. split; [exact Hm|].
  destruct (merge_shape _ _ Hm) as [Hlen [n Hrect]].
  assert (Htp : tp <> []).
  { intros E. rewrite E in Hlen. destruct L; [congruence | discriminate]. }
  unfold braid_word. rewrite Hm. cbn [bind].
  destruct tp as [|r tp'] eqn:Etp; [congruence|].
  cbn [index nth_error bind].
  assert (Hr : length r = S (S n)) by (apply Forall_inv in Hrect; exact Hrect).
  rewrite Hr. replace (S (S n) - 1)%nat with (S n) by lia.
  destruct (slices_cases (length (r :: tp')) (r :: tp') (S (S n)) eq_refl Hrect
              (seq 0 (S n)) [])
    as [[Hok Hno]|[Hraise [i [l1 [l2 [Hi X]]]]]].
  - intros i Hi. apply in_seq in Hi. lia.
  - left. split; [exact Hok|].
    intros [i [l1 [l2 [H1 [H2 V]]]]].
    apply (Hno i l1 l2); auto. apply in_seq.
    pose proof (column_Ok_lt _ _ _ _ Hrect Htp H2). lia.
  - right. split; [exact Hraise|]. exists i, l1, l2. exact X.
Qed.

(** [braid_from_piecewise] raises [ZeroDivisionError] exactly when, in some
    slice of the merged table, two strands have the same real part at both
    ends of the slice and swap the order of their imaginary parts: the
    divisor of their crossing time is then zero.  The strands are in the
    shape of the data model, so that the merge itself returns. *)
Theorem braid_from_piecewise_division_by_zero (L : list strand) :
  L <> [] -> (forall s, In s L -> wf_strand s) ->
  exists tp,
    merge L = Ok tp
    /\ (braid_from_piecewise L = Raise ZeroDivisionError
        <-> some_slice vertical_swap tp).
Proof.
  intros Hne Hwf. destruct (braid_word_cases L Hne Hwf) as [tp [Hm Hc]].
  exists tp. split; [exact Hm|]. unfold braid_from_piecewise.
  destruct Hc as [[[w Hw] N]|[Hr V]].
  - rewrite Hw. cbn [bind]. unfold BraidGroup.
    destruct (forallb _ w); split; intros X; try discriminate; contradiction.
  - rewrite Hr. cbn [bind]. split; auto.
Qed.

Lemma braid_from_piecewise_division_by_zero_witness :
  braid_from_piecewise vertical_strands = Raise ZeroDivisionError.
Proof.
  destruct (braid_from_piecewise_division_by_zero vertical_strands)
    as [tp [Hm [_ H]]].
  - discriminate.
  - apply wf_family. vm_compute. reflexivity.
  - apply H.
    assert (X : merge vertical_strands = Ok [ [(0, 0); (0, 1)]; [(0, 1); (0, 0)] ])
      by (vm_compute; reflexivity).
    rewrite X in Hm. injection Hm as <-.
    exists 0%nat, [(0, 0); (0, 1)], [(0, 1); (0, 0)].
    split; [reflexivity|]. split; [reflexivity|].
    exists ((0, 0), (0, 1)), ((0, 1), (0, 0)).
    split; [left; reflexivity|]. split; [right; left; reflexivity|].
    cbn [fst snd]. repeat split; reflexivity.
Defined.

Lemma greedy_covers (d : nat) (P : perm) (pending : list crossing) (w : list Z)
    (P' : perm) :
  greedy d P pending w P' ->
  length w = length pending
  /\ forall c, In c pending -> exists g m, In g w /\ g = (c_sign c * m)%Z.
Proof.
  induction 1 as [P|P pending c rest w P' HP Hmin _ [IH1 IH2]].
  - split; [reflexivity | intros c []].
  - split.
    + simpl. rewrite IH1. apply Permutation_length in HP. simpl in HP. lia.
    + intros c' Hc'. apply (Permutation_in _ HP) in Hc'.
      destruct Hc' as [<-|Hc'].
      * eexists. eexists. split; [left; reflexivity | reflexivity].
      * destruct (IH2 c' Hc') as [g [m [Hg E]]]. exists g, m.
        split; [right; exact Hg | exact E].
Qed.

(** Every crossing of a slice gives one letter of the word. *)
Lemma process_covers (d : nat) (P : perm) (cruces : list crossing) (w : list Z) :
  process d P cruces w ->
  length w = length cruces
  /\ forall c, In c cruces -> exists g m, In g w /\ g = (c_sign c * m)%Z.
Proof.
  induction 1 as [P|P cruces t group later w1 P' w2 Hne HP Hg Hl Hgr _ [IH1 IH2]].
  - split; [reflexivity | intros c []].
  - destruct (greedy_covers _ _ _ _ _ Hgr) as [G1 G2]. split.
    + rewrite length_app, G1, IH1. apply Permutation_length in HP.
      rewrite length_app in HP. lia.
    + intros c Hc. apply (Permutation_in _ HP) in Hc.
      apply in_app_or in Hc. destruct Hc as [Hc|Hc].
      * destruct (G2 c Hc) as [g [m [Hg' E]]]. exists g, m.
        split; [apply in_or_app; left; exact Hg' | exact E].
      * destruct (IH2 c Hc) as [g [m [Hg' E]]]. exists g, m.
        split; [apply in_or_app; right; exact Hg' | exact E].
Qed.

Lemma cmp_zero (x y : Qc) : cmp x y = 0%Z <-> x = y.
Proof.
  destruct (cmp_cases x y) as [C1 [C2 C3]]. split; [|exact C3].
  intros H. destruct (Qc_dec x y) as [[L|L]|E]; [| |exact E].
  - rewrite (C2 L) in H. discriminate.
  - rewrite (C1 L) in H. discriminate.
Qed.

Lemma cmp_range (x y : Qc) : (-1 <= cmp x y <= 1)%Z.
Proof. unfold cmp. destruct (x ?= y); lia. Qed.

(** A recorded crossing has sign 0 exactly when its two strands go through
    the same point at the same time. *)
Lemma collision_sign_zero (l1 l2 : list pt) (cruces : list crossing) :
  length l1 = length l2 ->
  slice_cruces l1 l2 = Ok cruces ->
  (crossing_collision l1 l2 <-> exists c, In c cruces /\ c_sign c = 0%Z).
Proof.
  intros Hlen Hc. set (M := sorted_pairs l1 l2).
  assert (HS : StronglySorted le M) by apply sort_sorted.
  assert (HP : forall x, In x M <-> In x (combine l1 l2)).
  { intros x. split; apply Permutation_in;
      [apply sort_perm | apply Permutation_sym, sort_perm]. }
  assert (Hsnd : forall x, (x < length M)%nat ->
            point_at (map snd M) x = snd (nth x M ((0, 0), (0, 0)))).
  { intros x Hx. unfold point_at.
    apply (@nth_map_lt (pt * pt) pt snd M x ((0, 0), (0, 0)) (0, 0) Hx). }
  split.
  - intros [p [q [Hp [Hq [Hle [Hlt [t [T0 [T1 Ha]]]]]]]]].
    assert (Hpq : ltb p q = true).
    { destruct (ltb p q) eqn:X; [reflexivity|]. exfalso.
      assert (p = q) by (apply ltb_total; [exact X | exact Hle]). subst q.
      unfold pt_ltb in Hlt. rewrite ltb_irrefl in Hlt. discriminate. }
    destruct (sorted_positions M ((0, 0), (0, 0)) p q HS
                (proj2 (HP p) Hp) (proj2 (HP q) Hq) Hpq)
      as [k [j [Hkj [Hj [Ek Ej]]]]].
    pose proof (Nat.lt_trans _ _ _ Hkj Hj) as Hk.
    destruct (cruces_complete M cruces Hc k j Hkj Hj) as [c [Hin [Ck Cj]]].
    { rewrite (Hsnd j Hj), (Hsnd k Hk), Ek, Ej. exact Hlt. }
    exists c. split; [exact Hin|].
    rewrite <- Ek, <- Ej in Ha.
    rewrite (along_nth M k t Hk), (along_nth M j t Hj) in Ha.
    pose proof (f_equal fst Ha) as Hre. pose proof (f_equal snd Ha) as Him.
    cbn [fst snd] in Hre, Him.
    assert (Et : c_t c = t).
    { apply (re_meet M cruces Hc c t Hin). rewrite Ck, Cj. exact Hre. }
    destruct (slice_crossing_facts l1 l2 cruces c Hlen Hc Hin)
      as [_ [_ [_ [_ [_ H0]]]]].
    apply H0. fold M. rewrite Ck, Cj, Et. exact Him.
  - intros [c [Hin Hs]].
    destruct (cruces_facts M cruces Hc c Hin) as [Hkj [Hj [Hlt [_ [_ Hsign]]]]].
    pose proof (Nat.lt_trans _ _ _ Hkj Hj) as Hk.
    destruct (time_range M HS cruces Hc c Hin) as [T0 T1].
    destruct (slice_crossing_facts l1 l2 cruces c Hlen Hc Hin)
      as [_ [_ [Hre _]]]. fold M in Hre.
    assert (Him : im_at (map fst M) (map snd M) (c_k c) (c_t c)
                  = im_at (map fst M) (map snd M) (c_j c) (c_t c)).
    { apply cmp_zero. rewrite Hsign in Hs. lia. }
    exists (nth (c_k c) M ((0, 0), (0, 0))), (nth (c_j c) M ((0, 0), (0, 0))).
    split; [apply HP, nth_In; exact Hk|]. split; [apply HP, nth_In; exact Hj|].
    split; [apply (StronglySorted_nth _ _ _ HS); assumption|].
    split; [rewrite <- (Hsnd _ Hj), <- (Hsnd _ Hk); exact Hlt|].
    exists (c_t c). split; [exact T0|]. split; [exact T1|].
    rewrite (along_nth M _ _ Hk), (along_nth M _ _ Hj), Hre, Him. reflexivity.
Qed.

Lemma forallb_false_exists {A : Type} (f : A -> bool) (l : list A) :
  forallb f l = false -> exists x, In x l /\ f x = false.
Proof.
  induction l as [|x r IH]; simpl; [discriminate|].
  destruct (f x) eqn:E; simpl.
  - intros H. destruct (IH H) as [y [Hy Fy]]. exists y. auto.
  - intros _. exists x. auto.
Qed.

Lemma Forall2_In_r {A B : Type} {R : A -> B -> Prop} {xs : list A} {ys : list B}
    {y : B} :
  Forall2 R xs ys -> In y ys -> exists x, In x xs /\ R x y.
Proof.
  induction 1 as [|a b xs ys Hab _ IH]; simpl; [intros []|].
  intros [<-|Hy]; [exists a; auto|].
  destruct (IH Hy) as [x [Hx Hr]]. exists x; auto.
Qed.

(** Sage rejects the list [braid] exactly when a letter is 0: a crossing
    whose two strands collide. *)
Lemma rejected_word_collision (L : list strand) (tp : list (list pt)) (w : list Z) :
  merge L = Ok tp -> braid_word L = Ok w ->
  (forallb (valid_generator (length L)) w = false
   <-> some_slice crossing_collision tp).
Proof.
  intros Hm Hw.
  destruct (braid_word_spec L w Hw) as [tp' [n [ws [Hm' [Hlen [Hrect [-> HF]]]]]]].
  assert (tp' = tp) by congruence. subst tp'.
  assert (Htp : tp <> []).
  { intros E. subst tp. unfold merge in Hm. destruct L; [|discriminate].
    simpl in Hm. discriminate. }
  assert (Hcol : forall i l, column tp i = Ok l -> length l = length tp).
  { intros i l H. unfold column in H. apply mapM_length in H. exact H. }
  split.
  - intros H. apply forallb_false_exists in H. destruct H as [g [Hg Hv]].
    apply in_concat in Hg. destruct Hg as [wi [Hwi Hg]].
    destruct (Forall2_In_r HF Hwi) as [i [_ Hi]].
    destruct Hi as [l1 [l2 [cruces [H1 [H2 [H3 [_ Hem]]]]]]].
    rewrite Forall_forall in Hem. destruct (Hem g Hg) as [c [p [Hin [Hp ->]]]].
    assert (Hl : length l1 = length l2)
      by (rewrite (Hcol _ _ H1), (Hcol _ _ H2); reflexivity).
    exists i, l1, l2. split; [exact H1|]. split; [exact H2|].
    apply (collision_sign_zero l1 l2 cruces Hl H3). exists c. split; [exact Hin|].
    destruct (cruces_facts _ _ H3 c Hin) as [_ [_ [_ [_ [_ Hs]]]]].
    pose proof (cmp_range (im_at (map fst (sorted_pairs l1 l2))
                                 (map snd (sorted_pairs l1 l2)) (c_k c) (c_t c))
                          (im_at (map fst (sorted_pairs l1 l2))
                                 (map snd (sorted_pairs l1 l2)) (c_j c) (c_t c))) as R.
    assert (Rs : (-1 <= c_sign c <= 1)%Z) by (rewrite Hs; lia). clear Hs R.
    generalize dependent (c_sign c). intros s Hv Rs.
    unfold valid_generator in Hv.
    apply andb_false_iff in Hv. destruct Hv as [Hv|Hv].
    + apply negb_false_iff in Hv. apply Z.eqb_eq in Hv. nia.
    + apply Z.leb_gt in Hv. nia.
  - intros [i [l1 [l2 [H1 [H2 Hcoll]]]]].
    assert (Hi : In i (seq 0 (S n))).
    { apply in_seq. pose proof (column_Ok_lt _ _ _ _ Hrect Htp H2). lia. }
    destruct (Forall2_In_l HF Hi) as [wi [Hwi Hpr]].
    destruct Hpr as [l1' [l2' [cruces [H1' [H2' [H3 [Hproc _]]]]]]].
    assert (l1' = l1) by congruence. assert (l2' = l2) by congruence. subst.
    assert (Hl : length l1 = length l2)
      by (rewrite (Hcol _ _ H1), (Hcol _ _ H2); reflexivity).
    apply (collision_sign_zero l1 l2 cruces Hl H3) in Hcoll.
    destruct Hcoll as [c [Hin Hs]].
    destruct (process_covers _ _ _ _ Hproc) as [_ Hcov].
    destruct (Hcov c Hin) as [g [m [Hg ->]]]. rewrite Hs in Hg.
    destruct (forallb (valid_generator (length L)) (concat ws)) eqn:F;
      [|reflexivity].
    exfalso. rewrite forallb_forall in F.
    assert (X : In (0 * m)%Z (concat ws))
      by (apply in_concat; exists wi; auto).
    specialize (F _ X). unfold valid_generator in F. simpl in F. discriminate.
Qed.


Lemma colliding_strands_collide :
  some_slice crossing_collision [ [(0, 0); (1, 0)]; [(1, 0); (0, 0)] ].
Proof.
  exists 0%nat, [(0, 0); (1, 0)], [(1, 0); (0, 0)].
  split; [reflexivity|]. split; [reflexivity|].
  exists ((0, 0), (1, 0)), ((1, 0), (0, 0)).
  split; [left; reflexivity|]. split; [right; left; reflexivity|].
  split; [vm_compute; reflexivity|]. split; [vm_compute; reflexivity|].
  exists (qc 1 2). split; [unfold Qcle, Qle; simpl; lia|].
  split; [unfold Qcle, Qle; simpl; lia|].
  unfold along. cbn [fst snd]. f_equal; apply Qc_is_canon; reflexivity.
Qed.


Lemma processed_lengths (d : nat) (tp : list (list pt)) (range : list nat)
    (ws : list (list Z)) :
  Forall2 (slice_processed d tp) range ws ->
  exists cs,
    Forall2 (fun i c => exists l1 l2,
               column tp i = Ok l1 /\ column tp (i + 1) = Ok l2
               /\ slice_cruces l1 l2 = Ok c) range cs
    /\ length (concat ws) = length (concat cs).
Proof.
  induction 1 as [|i wi range ws Hi _ [cs [IH1 IH2]]].
  - exists []. split; [constructor | reflexivity].
  - destruct Hi as [l1 [l2 [c [H1 [H2 [H3 [Hp _]]]]]]].
    exists (c :: cs). split.
    + constructor; [|exact IH1]. exists l1, l2. auto.
    + simpl. rewrite !length_app, IH2.
      destruct (process_covers _ _ _ _ Hp) as [-> _]. reflexivity.
Qed.



(** ** Moving the strands in the plane *)

Lemma Qcplus_lt_r (x y a : Qc) : x < y -> x + a < y + a.
Proof. intros H. qc2q. lra. Qed.

Lemma Qccompare_add_r (x y a : Qc) : (x + a ?= y + a) = (x ?= y).
Proof.
  destruct (Qc_dec x y) as [[L|L]|E].
  - rewrite (proj1 (Qclt_alt _ _) L).
    apply Qclt_alt. apply Qcplus_lt_r. exact L.
  - rewrite (proj1 (Qcgt_alt _ _) L).
    apply Qcgt_alt. apply Qcplus_lt_r. exact L.
  - subst. rewrite !(proj1 (Qceq_alt _ _) eq_refl). reflexivity.
Qed.

Lemma shift_pt_compare (c : complex) (p q : pt) :
  ocompare (shift_pt c p) (shift_pt c q) = ocompare p q.
Proof.
  change (match (fst p + real c ?= fst q + real c) with
          | Eq => (snd p + imag c ?= snd q + imag c)
          | r => r
          end
          = match (fst p ?= fst q) with
            | Eq => (snd p ?= snd q)
            | r => r
            end).
  rewrite !Qccompare_add_r. reflexivity.
Qed.

Lemma shift_pair_compare (c : complex) (m m' : pt * pt) :
  ocompare (shift_pair c m) (shift_pair c m') = ocompare m m'.
Proof.
  change (match ocompare (shift_pt c (fst m)) (shift_pt c (fst m')) with
          | Eq => ocompare (shift_pt c (snd m)) (shift_pt c (snd m'))
          | r => r
          end
          = match ocompare (fst m) (fst m') with
            | Eq => ocompare (snd m) (snd m')
            | r => r
            end).
  rewrite !shift_pt_compare. reflexivity.
Qed.

Lemma insert_map {A : Type} `{Order A} (f : A -> A) (x : A) (l : list A) :
  (forall a b, ocompare (f a) (f b) = ocompare a b) ->
  insert (f x) (map f l) = map f (insert x l).
Proof.
  intros Hf. induction l as [|y r IH]; [reflexivity|].
  simpl. unfold ltb. rewrite Hf. fold (ltb y x).
  destruct (ltb y x); simpl; [rewrite IH|]; reflexivity.
Qed.

(** Sorting commutes with a map that keeps the comparisons. *)
Lemma sort_map {A : Type} `{Order A} (f : A -> A) (l : list A) :
  (forall a b, ocompare (f a) (f b) = ocompare a b) ->
  sort (map f l) = map f (sort l).
Proof.
  intros Hf. induction l as [|x r IH]; [reflexivity|].
  simpl. rewrite IH. apply insert_map. exact Hf.
Qed.

Lemma index_map {A B : Type} (f : A -> B) (l : list A) (i : nat) :
  index (map f l) i = rmap f (index l i).
Proof.
  unfold index. rewrite nth_error_map. destruct (nth_error l i); reflexivity.
Qed.

Lemma mapM_rmap {A B C : Type} (g : A -> result C) (g0 : A -> result B)
    (h : B -> C) (xs : list A) :
  (forall x, g x = rmap h (g0 x)) -> mapM g xs = rmap (map h) (mapM g0 xs).
Proof.
  intros H. induction xs as [|x r IH]; [reflexivity|].
  simpl. rewrite H, IH. destruct (g0 x); [|reflexivity|reflexivity].
  simpl. destruct (mapM g0 r); reflexivity.
Qed.

Lemma cmp_add_r (x y a : Qc) : cmp (x + a) (y + a) = cmp x y.
Proof. unfold cmp. rewrite Qccompare_add_r. reflexivity. Qed.

Lemma crossing_at_shift (c : complex) (l1 l2 : list pt) (j k : nat) :
  crossing_at (map (shift_pt c) l1) (map (shift_pt c) l2) j k
  = crossing_at l1 l2 j k.
Proof.
  unfold crossing_at. rewrite !index_map.
  destruct (index l2 j) as [l2j| |]; [|reflexivity|reflexivity].
  destruct (index l2 k) as [l2k| |]; [|reflexivity|reflexivity].
  cbn [rmap bind]. unfold pt_ltb, ltb. rewrite shift_pt_compare.
  destruct (ocompare l2j l2k); try reflexivity.
  destruct (index l1 j) as [l1j| |]; [|reflexivity|reflexivity].
  destruct (index l1 k) as [l1k| |]; [|reflexivity|reflexivity].
  cbn [rmap bind]. unfold shift_pt. cbn [fst snd].
  replace (fst l1j + real c - (fst l1k + real c)) with (fst l1j - fst l1k) by ring.
  replace (fst l2k + real c - (fst l1k + real c) + (fst l1j + real c)
           - (fst l2j + real c))
    with (fst l2k - fst l1k + fst l1j - fst l2j) by ring.
  destruct (div (fst l1j - fst l1k) (fst l2k - fst l1k + fst l1j - fst l2j))
    as [t| |]; [|reflexivity|reflexivity].
  cbn [bind].
  replace ((snd l1k + imag c) * (1 - t) + t * (snd l2k + imag c))
    with (snd l1k * (1 - t) + t * snd l2k + imag c) by ring.
  replace ((snd l1j + imag c) * (1 - t) + t * (snd l2j + imag c))
    with (snd l1j * (1 - t) + t * snd l2j + imag c) by ring.
  rewrite cmp_add_r. reflexivity.
Qed.

Lemma find_cruces_shift (c : complex) (l1 l2 : list pt) :
  find_cruces (map (shift_pt c) l1) (map (shift_pt c) l2) = find_cruces l1 l2.
Proof.
  unfold find_cruces. rewrite length_map.
  assert (E : forall j,
            (r <- mapM (crossing_at (map (shift_pt c) l1) (map (shift_pt c) l2) j)
                       (seq 0 j) ;; Ok (concat r))
            = (r <- mapM (crossing_at l1 l2 j) (seq 0 j) ;; Ok (concat r))).
  { intros j. f_equal. clear. induction (seq 0 j) as [|k r IH]; [reflexivity|].
    simpl. rewrite crossing_at_shift, IH. reflexivity. }
  f_equal. induction (seq 0 (length l2)) as [|j r IH]; [reflexivity|].
  simpl. rewrite E, IH. reflexivity.
Qed.

Lemma slice_cruces_shift (c : complex) (l1 l2 : list pt) :
  slice_cruces (map (shift_pt c) l1) (map (shift_pt c) l2) = slice_cruces l1 l2.
Proof.
  unfold slice_cruces, sorted_pairs.
  assert (E : combine (map (shift_pt c) l1) (map (shift_pt c) l2)
              = map (shift_pair c) (combine l1 l2)).
  { revert l2. induction l1 as [|a r IH]; intros l2; [reflexivity|].
    destruct l2 as [|b r2]; [reflexivity|]. simpl. rewrite IH. reflexivity. }
  rewrite E, (sort_map (shift_pair c)) by (intros; apply shift_pair_compare).
  rewrite !map_map. cbn [shift_pair fst snd].
  rewrite <- (map_map fst (shift_pt c)), <- (map_map snd (shift_pt c)).
  apply find_cruces_shift.
Qed.

Lemma slice_shift (c : complex) (d : nat) (l1 l2 : list pt) (braid : list Z) :
  length l1 = length l2 ->
  slice d (map (shift_pt c) l1) (map (shift_pt c) l2) braid = slice d l1 l2 braid.
Proof.
  intros H. rewrite !slice_unfold by (rewrite ?length_map; exact H).
  rewrite slice_cruces_shift. reflexivity.
Qed.

Lemma column_shift (c : complex) (tp : list (list pt)) (i : nat) :
  column (map (map (shift_pt c)) tp) i = rmap (map (shift_pt c)) (column tp i).
Proof.
  unfold column. rewrite mapM_map_list.
  apply mapM_rmap. intros r. apply index_map.
Qed.

Lemma slices_shift (c : complex) (d : nat) (tp : list (list pt)) (n : nat) :
  rectangular tp n ->
  forall (range : list nat) (braid : list Z),
  (forall i, In i range -> (i + 1 < n)%nat) ->
  slices d (map (map (shift_pt c)) tp) range braid = slices d tp range braid.
Proof.
  intros Hrect. induction range as [|i range IH]; intros braid Hr; [reflexivity|].
  cbn [slices]. rewrite !column_shift.
  destruct (column_Ok tp n i Hrect) as [l1 [H1 L1]];
    [specialize (Hr i (or_introl eq_refl)); lia|].
  destruct (column_Ok tp n (i + 1) Hrect) as [l2 [H2 L2]];
    [apply Hr; left; reflexivity|].
  rewrite H1, H2. cbn [rmap bind].
  rewrite slice_shift by congruence.
  destruct (slice d l1 l2 braid); [|reflexivity|reflexivity].
  cbn [bind]. apply IH. intros j Hj. apply Hr. right. exact Hj.
Qed.

Lemma time_at_translate (c : complex) (s : strand) (q : nat) :
  time_at (translate c s) q = time_at s q.
Proof.
  unfold time_at, translate. revert q.
  induction s as [|a r IH]; intros [|q]; simpl; auto.
Qed.

Lemma translate_wf (c : complex) (s : strand) :
  wf_strand s -> wf_strand (translate c s).
Proof.
  intros [W1 [W2 W3]]. unfold wf_strand.
  assert (E : length (translate c s) = length s) by apply length_map.
  rewrite E. split; [exact W1|]. split.
  - intros p q Hpq Hq. rewrite !time_at_translate. apply W2; assumption.
  - rewrite time_at_translate. exact W3.
Qed.

Lemma all_times_translate (c : complex) (L : list strand) :
  all_times (map (translate c) L) = all_times L.
Proof.
  unfold all_times. induction L as [|s r IH]; [reflexivity|].
  simpl. rewrite IH. f_equal.
  destruct s as [|a s']; [reflexivity|]. simpl. unfold translate.
  rewrite map_map. reflexivity.
Qed.

Lemma merge_fuel_translate (c : complex) (L : list strand) :
  merge_fuel (map (translate c) L) = merge_fuel L.
Proof.
  unfold merge_fuel. induction L as [|s r IH]; [reflexivity|].
  simpl. rewrite !length_app, IH. unfold translate. rewrite length_map.
  reflexivity.
Qed.

Lemma common_times_translate (c : complex) (L : list strand) :
  common_times (map (translate c) L) = common_times L.
Proof.
  unfold common_times. rewrite all_times_translate, merge_fuel_translate.
  destruct (min_list (all_times L)) as [i| |]; [|reflexivity|reflexivity].
  cbn [bind]. apply common_loop_ext. intros u.
  rewrite all_times_translate. reflexivity.
Qed.

Lemma interpolate_translate (c : complex) (a b : sample) (t : Qc) :
  interpolate (fst a, cadd (snd a) c) (fst b, cadd (snd b) c) t
  = shift_pt c (interpolate a b t).
Proof.
  unfold interpolate, shift_pt, pt_of, cadd, cquot, cscale, csub.
  cbn [fst snd real imag]. unfold Qcdiv.
  f_equal; ring.
Qed.

Lemma strand_at_translate (c : complex) (s : strand) (t : Qc) :
  s <> [] -> strand_at (translate c s) t = shift_pt c (strand_at s t).
Proof.
  induction s as [|a r IH]; intros Hne; [congruence|].
  destruct r as [|b r'].
  - reflexivity.
  - change (translate c (a :: b :: r'))
      with ((fst a, cadd (snd a) c) :: (fst b, cadd (snd b) c) :: translate c r').
    rewrite !strand_at_cons. cbn [fst snd].
    destruct (Qcltb t (fst b)); [apply interpolate_translate|].
    destruct (Qceqb t (fst b)); [reflexivity|].
    apply IH. discriminate.
Qed.

Lemma first_point_translate (c : complex) (s : strand) :
  s <> [] -> first_point (translate c s) = shift_pt c (first_point s).
Proof. destruct s; [congruence | reflexivity]. Qed.

Lemma last_point_translate (c : complex) (s : strand) :
  s <> [] -> last_point (translate c s) = shift_pt c (last_point s).
Proof.
  unfold last_point. induction s as [|a r IH]; intros Hne; [congruence|].
  destruct r as [|b r']; [reflexivity|].
  change (translate c (a :: b :: r'))
    with ((fst a, cadd (snd a) c) :: translate c (b :: r')).
  change (last (a :: b :: r') (0, Cx 0 0)) with (last (b :: r') (0, Cx 0 0)).
  rewrite <- IH by discriminate. reflexivity.
Qed.

Lemma merged_row_translate (c : complex) (T : list Qc) (s : strand) :
  s <> [] ->
  merged_row T (translate c s) = map (shift_pt c) (merged_row T s).
Proof.
  intros Hne. unfold merged_row.
  rewrite first_point_translate, last_point_translate by exact Hne.
  cbn [app map]. f_equal. rewrite map_app, map_map. cbn [map]. f_equal.
  apply map_ext. intros t. apply strand_at_translate. exact Hne.
Qed.

(** The merged table of the moved strands is the moved table. *)
Lemma merge_translate (c : complex) (L : list strand) (tp : list (list pt)) :
  L <> [] -> (forall s, In s L -> wf_strand s) ->
  merge L = Ok tp ->
  merge (map (translate c) L) = Ok (map (map (shift_pt c)) tp).
Proof.
  intros Hne Hwf Hm.
  destruct (merge_total L Hwf Hne) as [T [HT Hm']].
  assert (tp = map (merged_row T) L) by congruence. subst tp.
  destruct (merge_total (map (translate c) L)) as [T' [HT' Hm2]].
  - intros s Hs. apply in_map_iff in Hs. destruct Hs as [s0 [<- Hs0]].
    apply translate_wf, Hwf, Hs0.
  - destruct L; [congruence | discriminate].
  - rewrite Hm2. rewrite common_times_translate in HT'.
    assert (T' = T) by congruence. subst T'.
    f_equal. rewrite !map_map. apply map_ext_in. intros s Hs.
    apply merged_row_translate. intros ->.
    destruct (Hwf [] Hs) as [W _]. simpl in W. lia.
Qed.

(** Moving all the strands by the same complex number does not change the
    braid: [braid_from_piecewise] returns the same word, or raises the same
    exception. *)
Theorem braid_from_piecewise_translation (c : complex) (L : list strand) :
  (forall s, In s L -> wf_strand s) ->
  braid_from_piecewise (map (translate c) L) = braid_from_piecewise L.
Proof.
  intros Hwf. destruct L as [|s0 L0]; [reflexivity|].
  set (L := s0 :: L0) in *.
  assert (Hne : L <> []) by discriminate.
  destruct (merge_total L Hwf Hne) as [T [_ Hm]].
  pose proof (merge_translate c L _ Hne Hwf Hm) as Hm'.
  destruct (merge_shape _ _ Hm) as [Hlen [n Hrect]].
  unfold braid_from_piecewise, braid_word.
  rewrite Hm, Hm', !length_map. cbn [bind].
  set (tp := map (merged_row T) L) in *.
  rewrite index_map.
  destruct (index tp 0) as [r| |] eqn:Ei; [|reflexivity|reflexivity].
  cbn [rmap bind]. rewrite length_map.
  assert (El : (length r - 1)%nat = S n).
  { assert (Hr : In r tp).
    { unfold tp, L in Ei. cbn in Ei. injection Ei as <-. left. reflexivity. }
    unfold rectangular in Hrect. rewrite Forall_forall in Hrect.
    rewrite (Hrect _ Hr). lia. }
  rewrite (slices_shift c (length tp) tp (S (S n)) Hrect).
  - unfold L. rewrite length_map. reflexivity.
  - intros i Hi. apply in_seq in Hi. rewrite length_map in Hi. lia.
Qed.

Lemma braid_from_piecewise_translation_witness :
  braid_from_piecewise (map (translate (cx 3 1 (-2) 1)) docstring_paths)
  = braid_from_piecewise docstring_paths.
Proof.
  apply (braid_from_piecewise_translation (cx 3 1 (-2) 1) docstring_paths).
  apply wf_family. vm_compute. reflexivity.
Defined.

(** ** Listing the strands in another order *)

Lemma sort_of_perm {A : Type} `{OrderLaws A} (l l' : list A) :
  Permutation l l' -> sort l = sort l'.
Proof.
  intros P. apply sorted_unique; try apply sort_sorted.
  rewrite (sort_perm l), (sort_perm l'). exact P.
Qed.

Lemma column_points (tp : list (list pt)) (n i : nat) :
  rectangular tp n -> (i < n)%nat ->
  column tp i = Ok (map (fun r => point_at r i) tp).
Proof.
  intros Hrect Hi. unfold column. apply mapM_map.
  eapply Forall_impl; [|exact Hrect]. intros r Hr. cbv beta in Hr.
  unfold point_at. apply index_nth. lia.
Qed.

Lemma slices_perm (d : nat) (tp tp' : list (list pt)) (n : nat) :
  rectangular tp n -> Permutation tp' tp ->
  forall (range : list nat) (braid : list Z),
  (forall i, In i range -> (i + 1 < n)%nat) ->
  slices d tp' range braid = slices d tp range braid.
Proof.
  intros Hrect P.
  assert (Hrect' : rectangular tp' n).
  { unfold rectangular in *. rewrite Forall_forall in *. intros r Hr.
    apply Hrect. eapply Permutation_in; [exact P | exact Hr]. }
  induction range as [|i range IH]; intros braid Hr; [reflexivity|].
  cbn [slices].
  assert (Hi : (i + 1 < n)%nat) by (apply Hr; left; reflexivity).
  rewrite !(column_points tp n), !(column_points tp' n) by (assumption || lia).
  cbn [bind].
  assert (E : slice d (map (fun r => point_at r i) tp')
                (map (fun r => point_at r (i + 1)) tp') braid
              = slice d (map (fun r => point_at r i) tp)
                  (map (fun r => point_at r (i + 1)) tp) braid).
  { rewrite !slice_unfold by (rewrite !length_map; reflexivity).
    unfold slice_cruces, sorted_pairs. rewrite !combine_map_same.
    rewrite (sort_of_perm _ _ (Permutation_map _ P)). reflexivity. }
  rewrite E.
  destruct (slice d (map (fun r => point_at r i) tp)
              (map (fun r => point_at r (i + 1)) tp) braid) as [w|e|];
    [|reflexivity|reflexivity].
  cbn [bind]. apply IH. intros j Hj. apply Hr. right. exact Hj.
Qed.

Lemma all_times_perm (L L' : list strand) :
  Permutation L' L -> Permutation (all_times L') (all_times L).
Proof. intros P. unfold all_times. apply Permutation_flat_map. exact P. Qed.

Lemma merge_fuel_perm (L L' : list strand) :
  Permutation L' L -> merge_fuel L' = merge_fuel L.
Proof.
  unfold merge_fuel. induction 1 as [|s l l' _ IH|s s' l|l l' l'' _ IH1 _ IH2].
  - reflexivity.
  - cbn [concat]. rewrite !length_app, IH. reflexivity.
  - cbn [concat]. rewrite !length_app. lia.
  - congruence.
Qed.

Lemma common_times_perm (L L' : list strand) :
  Permutation L' L -> common_times L' = common_times L.
Proof.
  intros P. unfold common_times.
  assert (X : forall u, In u (all_times L') <-> In u (all_times L)).
  { intros u. split; apply Permutation_in;
      [|apply Permutation_sym]; apply all_times_perm; exact P. }
  rewrite (min_list_ext _ _ X), (merge_fuel_perm _ _ P).
  destruct (min_list (all_times L)) as [i| |]; [|reflexivity|reflexivity].
  cbn [bind]. apply common_loop_ext. exact X.
Qed.

(** The braid does not depend on the order in which the strands are listed:
    [braid_from_piecewise] sorts the points of every slice before it looks
    for crossings. *)
Theorem braid_from_piecewise_order_of_strands (L L' : list strand) :
  (forall s, In s L -> wf_strand s) ->
  Permutation L' L ->
  braid_from_piecewise L' = braid_from_piecewise L.
Proof.
  intros Hwf P.
  destruct L as [|s0 L0].
  { apply Permutation_sym, Permutation_nil in P. subst L'. reflexivity. }
  set (L := s0 :: L0) in *.
  assert (Hne : L <> []) by discriminate.
  assert (Hwf' : forall s, In s L' -> wf_strand s).
  { intros s Hs. apply Hwf. eapply Permutation_in; [exact P | exact Hs]. }
  assert (Hne' : L' <> []).
  { intros ->. apply Permutation_nil in P. discriminate. }
  destruct (merge_total L Hwf Hne) as [T [HT Hm]].
  destruct (merge_total L' Hwf' Hne') as [T' [HT' Hm']].
  rewrite (common_times_perm _ _ P) in HT'.
  assert (T' = T) by congruence. subst T'.
  destruct (merge_shape _ _ Hm) as [Hlen [n Hrect]].
  assert (Ptp : Permutation (map (merged_row T) L') (map (merged_row T) L))
    by (apply Permutation_map; exact P).
  unfold braid_from_piecewise, braid_word.
  rewrite Hm, Hm'. cbn [bind].
  rewrite (Permutation_length P), (Permutation_length Ptp).
  assert (Hrow : forall tp, Permutation tp (map (merged_row T) L) ->
            exists r, index tp 0 = Ok r /\ length r = S (S n)).
  { intros tp Q. destruct tp as [|r tp'].
    - apply Permutation_nil in Q. unfold L in Q. discriminate.
    - exists r. split; [reflexivity|].
      unfold rectangular in Hrect. rewrite Forall_forall in Hrect.
      apply Hrect. eapply Permutation_in; [exact Q | left; reflexivity]. }
  destruct (Hrow _ Ptp) as [r' [E' R']].
  destruct (Hrow _ (Permutation_refl _)) as [r [E R]].
  rewrite E, E'. cbn [bind]. rewrite R, R'.
  rewrite (slices_perm _ _ _ (S (S n)) Hrect Ptp); [reflexivity|].
  intros i Hi. apply in_seq in Hi. lia.
Qed.

Lemma braid_from_piecewise_order_of_strands_witness :
  braid_from_piecewise (rev docstring_paths) = braid_from_piecewise docstring_paths.
Proof.
  apply (braid_from_piecewise_order_of_strands docstring_paths (rev docstring_paths)).
  - apply wf_family. vm_compute. reflexivity.
  - apply Permutation_sym, Permutation_rev.
Defined.

(** ** SegmentBraidComputer: a tracker that is exact at both ends *)

Lemma Qc_square_nonneg (x : Qc) : 0 <= x * x.
Proof.
  destruct (Qc_dec x 0) as [[L|L]|L].
  - qc2q. assert (P : (0 < (- this x) * (- this x))%Q)
      by (apply Qmult_lt_0_compat; lra). nra.
  - qc2q. apply Qlt_le_weak. apply Qmult_lt_0_compat; lra.
  - subst x. qc2q. nra.
Qed.

Lemma norm_zero (c : complex) : norm c <= 0 -> c = Cx 0 0.
Proof.
  destruct c as [a b]. unfold norm. cbn [real imag]. intros H.
  pose proof (Qc_square_nonneg a) as Pa. pose proof (Qc_square_nonneg b) as Pb.
  assert (Ea : a * a = 0) by (clear - H Pa Pb; qc2q; lra).
  assert (Eb : b * b = 0) by (clear - H Pa Pb; qc2q; lra).
  apply Qcmult_integral in Ea. apply Qcmult_integral in Eb.
  assert (a = 0) by tauto. assert (b = 0) by tauto. subst. reflexivity.
Qed.

(** The nearest root of a root is the root itself. *)
Lemma nearest_of_root (ys : list complex) (p : complex) :
  In p ys -> nearest ys p = Ok p.
Proof.
  intros Hp.
  destruct (nearest_total ys p) as [y Hy]; [intros ->; destruct Hp|].
  rewrite Hy. f_equal.
  destruct (nearest_spec _ _ _ Hy) as [_ Hmin]. specialize (Hmin p Hp).
  assert (Z0 : norm (csub p p) = 0).
  { unfold norm, csub. cbn [real imag]. ring. }
  rewrite Z0 in Hmin. apply norm_zero in Hmin.
  destruct p as [p1 p2], y as [y1 y2]. unfold csub in Hmin. cbn [real imag] in Hmin.
  pose proof (f_equal real Hmin) as H1. pose proof (f_equal imag Hmin) as H2.
  cbn [real imag] in H1, H2.
  assert (y1 = p1) by (clear - H1; qc2q; lra).
  assert (y2 = p2) by (clear - H2; qc2q; lra).
  subst. reflexivity.
Qed.

Lemma roots_share_no_root (ys yaps : list complex) :
  NoDup yaps -> incl yaps ys -> ~ shares_nearest_root ys yaps.
Proof.
  intros Hnd Hin [a [b [pa [pb [y [Hab [Ha [Hb [Na Nb]]]]]]]]].
  rewrite (nearest_of_root ys pa) in Na by (apply Hin; eapply nth_error_In; exact Ha).
  rewrite (nearest_of_root ys pb) in Nb by (apply Hin; eapply nth_error_In; exact Hb).
  assert (pa = pb) by congruence. subst pb.
  rewrite NoDup_nth_error in Hnd.
  assert (a = b).
  { apply Hnd; [|congruence]. apply nth_error_Some. congruence. }
  lia.
Qed.

(** Strands that do not move give the empty braid. *)
Lemma constant_strands_empty_braid (yaps : list complex) :
  yaps <> [] ->
  braid_from_piecewise (map (fun p => [(0, p); (1, p)]) yaps) = Ok [].
Proof.
  intros Hne.
  set (L := map (fun p : complex => [(0, p); (1, p)]) yaps).
  assert (HL : L <> []) by (unfold L; destruct yaps; [congruence | discriminate]).
  assert (H2 : forall s, In s L -> two_samples s).
  { intros s Hs. apply in_map_iff in Hs. destruct Hs as [p [<- _]].
    exists p, p. reflexivity. }
  pose proof (merge_two_samples L HL H2) as Hm.
  apply (parallel_table_gives_the_empty_braid L _ Hm).
  unfold L. rewrite map_map.
  change (parallel (map (fun p : complex => [pt_of p; pt_of p]) yaps)).
  intros i l1 l2 H1 H2' a b _ _.
  assert (Hrect : rectangular (map (fun p : complex => [pt_of p; pt_of p]) yaps) 2).
  { unfold rectangular. apply Forall_map, Forall_forall. intros; reflexivity. }
  destruct i as [|i].
  - rewrite (column_points _ 2 0 Hrect) in H1 by lia.
    change (0 + 1)%nat with 1%nat in H2'.
    rewrite (column_points _ 2 1 Hrect) in H2' by lia.
    injection H1 as <-. injection H2' as <-.
    rewrite !map_map. reflexivity.
  - exfalso. destruct yaps as [|p r]; [congruence|].
    unfold column in H2'. cbn [map mapM] in H2'.
    replace (S i + 1)%nat with (S (S i)) in H2' by lia.
    unfold index in H2' at 1. destruct i; discriminate H2'.
Qed.

Section ExactTracker.

Context (poly : Type)
  (roots : poly -> complex -> list complex)
  (interval_coefficients : poly -> complex -> complex -> nat -> nat * list Qc)
  (contpath : nat -> list Qc -> Qc -> Qc -> result (list (Qc * Qc * Qc)))
  (contpath_mp : nat -> list Qc -> Qc -> Qc -> nat -> result (list (Qc * Qc * Qc))).

(** When the strands that the tracker returns start at pairwise different
    roots of the fibre at [x0] and end at pairwise different roots of the
    fibre at [x1], the two boundary braids are empty and [braid_in_segment]
    returns the braid of the tracked strands as it is. *)
Theorem braid_in_segment_exact_ends
    (fuel : nat) (f : poly) (x0 x1 : complex)
    (strands : list (list (Qc * Qc * Qc))) (centralbraid : list Z) :
  mapM (fun a => followstrand poly interval_coefficients contpath contpath_mp
                   fuel f x0 x1 a 53) (roots f x0) = Ok strands ->
  braid_from_piecewise (map complex_strand strands) = Ok centralbraid ->
  NoDup (start_points strands) -> incl (start_points strands) (roots f x0) ->
  NoDup (end_points strands) -> incl (end_points strands) (roots f x1) ->
  braid_in_segment poly roots interval_coefficients contpath contpath_mp
    fuel f x0 x1 = Ok centralbraid.
Proof.
  intros Htr Hcb N0 I0 N1 I1.
  destruct (braid_from_piecewise_Ok_shape _ _ Hcb) as [Hne Hsamples].
  assert (Hstr : strands <> []) by (intros ->; apply Hne; reflexivity).
  assert (Hst : start_points strands <> []).
  { unfold start_points. destruct strands; [congruence | discriminate]. }
  assert (Hen : end_points strands <> []).
  { unfold end_points. destruct strands; [congruence | discriminate]. }
  assert (Hys0 : roots f x0 <> []).
  { intros E. rewrite E in Htr. simpl in Htr. inv_ok. congruence. }
  assert (Hys1 : roots f x1 <> []).
  { intros E. destruct (end_points strands) as [|p r]; [congruence|].
    rewrite E in I1. exact (I1 p (or_introl eq_refl)). }
  assert (Hmatch : forall mk ys yaps,
            mk = initial_strand \/ mk = final_strand ->
            ys <> [] -> NoDup yaps -> incl yaps ys ->
            match_roots mk ys yaps [] [] = Ok (map (fun p => [(0, p); (1, p)]) yaps)).
  { intros mk ys yaps Hmk Hys Hnd Hin.
    destruct (match_roots_spec mk ys Hys yaps [] []) as [[_ Hc]|[Hr _]].
    - exfalso. destruct Hc as [Hc|Hc]; [exact (claims_nothing_used _ _ Hc)|].
      exact (roots_share_no_root ys yaps Hnd Hin Hc).
    - rewrite Hr. cbn [app]. f_equal. apply map_ext_in. intros p Hp.
      unfold nearest_root. rewrite (nearest_of_root ys p (Hin p Hp)).
      destruct Hmk as [-> | ->]; reflexivity. }
  unfold braid_in_segment. rewrite Htr. cbn [bind]. rewrite Hcb. cbn [bind].
  rewrite (start_points_Ok strands Hsamples). cbn [bind].
  rewrite (Hmatch initial_strand _ _ (or_introl eq_refl) Hys0 N0 I0). cbn [bind].
  rewrite (constant_strands_empty_braid _ Hst). cbn [bind].
  rewrite (end_points_Ok strands Hsamples). cbn [bind].
  rewrite (Hmatch final_strand _ _ (or_intror eq_refl) Hys1 N1 I1). cbn [bind].
  rewrite (constant_strands_empty_braid _ Hen). cbn [bind app].
  rewrite app_nil_r. reflexivity.
Qed.

End ExactTracker.

Lemma braid_in_segment_exact_ends_witness :
  braid_in_segment unit line_roots line_coefficients line_contpath line_contpath_mp
                   1 tt (cx 1 2 1 2) (cx (-1) 2 1 2)
  = braid_from_piecewise
      [ [(0, Cx 0 0); (1, Cx 0 0)]; [(0, cx 1 2 1 2); (1, cx (-1) 2 1 2)] ].
Proof.
  assert (E : braid_from_piecewise
                [ [(0, Cx 0 0); (1, Cx 0 0)]; [(0, cx 1 2 1 2); (1, cx (-1) 2 1 2)] ]
              = Ok [1%Z]) by (vm_compute; reflexivity).
  rewrite E.
  apply (braid_in_segment_exact_ends unit line_roots line_coefficients
           line_contpath line_contpath_mp 1 tt (cx 1 2 1 2) (cx (-1) 2 1 2)
           [ [(0, 0, 0); (1, 0, 0)];
             [(0, qc 1 2, qc 1 2); (1, qc (-1) 2, qc 1 2)] ] [1%Z]).
  - vm_compute. reflexivity.
  - vm_compute. reflexivity.
  - apply NoDup_cons; [|apply NoDup_cons; [intros [] | apply NoDup_nil]].
    intros [H|[]]. apply (f_equal (fun c => Qceqb (imag c) 0)) in H.
    vm_compute in H. discriminate H.
  - intros p Hp. exact Hp.
  - apply NoDup_cons; [|apply NoDup_cons; [intros [] | apply NoDup_nil]].
    intros [H|[]]. apply (f_equal (fun c => Qceqb (imag c) 0)) in H.
    vm_compute in H. discriminate H.
  - intros p Hp. exact Hp.
Defined.

(** ** PresentationAssembler: the coordinate shifts and the relators *)

Lemma position_total {A : Type} `{OrderLaws A} (x : A) (xs : list A) :
  In x xs -> exists n, position x xs = Ok n /\ (n < length xs)%nat.
Proof.
  induction xs as [|y r IH]; intros Hin; [destruct Hin|].
  cbn [position]. destruct (eqb y x) eqn:E.
  - exists 0%nat. split; [reflexivity | simpl; lia].
  - destruct IH as [n [Hn Hlt]].
    + destruct Hin as [->|Hin]; [|exact Hin].
      rewrite eqb_refl in E. discriminate.
    + rewrite Hn. exists (S n). split; [reflexivity | simpl; lia].
Qed.

Lemma position_bound {A : Type} `{Order A} (x : A) (xs : list A) (n : nat) :
  position x xs = Ok n -> (n < length xs)%nat.
Proof.
  revert n. induction xs as [|y r IH]; intros n Hn; [discriminate|].
  cbn [position] in Hn. destruct (eqb y x).
  - inv_ok. simpl. lia.
  - inv_bind Hn. inv_ok. specialize (IH _ E). simpl. lia.
Qed.

Section PresentationFacts.

Context (poly : Type)
  (radical : poly -> poly)
  (degree_y total_degree : poly -> nat)
  (leading_coefficient_constant : poly -> nat -> bool)
  (shear : poly -> poly)
  (discrim : poly -> list complex)
  (roots : poly -> complex -> list complex)
  (Voronoi : list pt -> result voronoi)
  (interval_coefficients : poly -> complex -> complex -> nat -> nat * list Qc)
  (contpath : nat -> list Qc -> Qc -> Qc -> result (list (Qc * Qc * Qc)))
  (contpath_mp : nat -> list Qc -> Qc -> Qc -> nat -> result (list (Qc * Qc * Qc)))
  (braid_action : nat -> list Z -> list Z -> list Z)
  (simplified_presentation : presentation -> presentation).

Local Abbreviation the_group :=
  (fundamental_group poly radical degree_y total_degree
     leading_coefficient_constant shear discrim roots Voronoi
     interval_coefficients contpath contpath_mp braid_action
     simplified_presentation).

Local Abbreviation the_shift :=
  (shift_coordinates poly degree_y total_degree leading_coefficient_constant shear).

Local Abbreviation the_segment_braid :=
  (braid_in_segment poly roots interval_coefficients contpath contpath_mp).

Local Abbreviation the_condition :=
  (needs_shift degree_y total_degree leading_coefficient_constant).

Lemma shift_coordinates_sound (projective : bool) (fuel : nat) :
  forall g g', the_shift fuel projective g = Ok g' ->
  exists k, (k <= fuel)%nat /\ g' = Nat.iter k shear g
    /\ the_condition projective g' = false
    /\ forall i, (i < k)%nat -> the_condition projective (Nat.iter i shear g) = true.
Proof.
  induction fuel as [|fuel IH]; intros g g' H; cbn [shift_coordinates] in H;
    fold (the_condition projective g) in H;
    destruct (the_condition projective g) eqn:C; try discriminate.
  - inv_ok. exists 0%nat. split; [lia|]. split; [reflexivity|].
    split; [exact C|]. intros i Hi. lia.
  - destruct (IH _ _ H) as [k [Hk [E [C' Hall]]]].
    exists (S k). split; [lia|]. split; [rewrite Nat.iter_succ_r; exact E|].
    split; [exact C'|]. intros [|i] Hi; [exact C|].
    rewrite Nat.iter_succ_r. apply Hall. lia.
  - inv_ok. exists 0%nat. split; [lia|]. split; [reflexivity|].
    split; [exact C|]. intros i Hi. lia.
Qed.

Lemma shift_coordinates_complete (projective : bool) (k : nat) :
  forall fuel g, (k <= fuel)%nat ->
  the_condition projective (Nat.iter k shear g) = false ->
  (forall i, (i < k)%nat -> the_condition projective (Nat.iter i shear g) = true) ->
  the_shift fuel projective g = Ok (Nat.iter k shear g).
Proof.
  induction k as [|k IH]; intros fuel g Hk C Hall.
  - change (the_condition projective g = false) in C.
    change (Nat.iter 0 shear g) with g.
    destruct fuel; cbn [shift_coordinates];
      fold (the_condition projective g); rewrite C; reflexivity.
  - destruct fuel as [|fuel]; [lia|]. cbn [shift_coordinates].
    fold (the_condition projective g).
    assert (C0 : the_condition projective g = true) by (apply (Hall 0%nat); lia).
    rewrite C0.
    rewrite Nat.iter_succ_r. apply IH; [lia| |].
    + rewrite <- Nat.iter_succ_r. exact C.
    + intros i Hi. rewrite <- Nat.iter_succ_r. apply Hall. lia.
Qed.

(** The loop of [fundamental_group] that shifts the coordinates returns the
    first of [g], [g(x + y, y)], [g(x + 2y, y)], ... whose leading
    coefficient in [y] is a constant and, in the projective case, whose
    degree in [y] is the total degree. *)
Theorem shift_coordinates_first_admissible
    (fuel : nat) (projective : bool) (g g' : poly) :
  shift_coordinates poly degree_y total_degree leading_coefficient_constant shear
    fuel projective g = Ok g' <->
  exists k, (k <= fuel)%nat /\ g' = Nat.iter k shear g
    /\ needs_shift degree_y total_degree leading_coefficient_constant
         projective g' = false
    /\ forall i, (i < k)%nat ->
         needs_shift degree_y total_degree leading_coefficient_constant
           projective (Nat.iter i shear g) = true.
Proof.
  split.
  - apply shift_coordinates_sound.
  - intros [k [Hk [-> [C Hall]]]]. apply shift_coordinates_complete; assumption.
Qed.

(** The letters of the relator of sheet [k] of a segment from the vertex
    [i] to the vertex [j] are generators of the free group on [d * n]
    letters. *)
Lemma relator_in_range (d n i j k : nat) (b : list Z) :
  (i < n)%nat -> (j < n)%nat -> (k < d)%nat ->
  (forall a, In a (braid_action d [Z.of_nat k + 1]%Z (braid_inverse b)) ->
             a <> 0%Z /\ (Z.abs a <= Z.of_nat d)%Z) ->
  tietze_word (d * n) (relator braid_action d i j b k).
Proof.
  intros Hi Hj Hk Hact. unfold relator, tietze_word.
  apply Forall_app. split.
  - apply Forall_map, Forall_forall. intros a Ha.
    destruct (Hact a Ha) as [N B]. unfold sign.
    destruct (Z.sgn_spec a) as [[P ->]|[[P _]|[P ->]]]; [|congruence|]; nia.
  - constructor; [|constructor]. nia.
Qed.

Lemma relators_of_segments (d : nat) (verts : list complex)
    (braidscomputed : list (complex * complex * list Z)) (new : list (list (list Z)))
    (r : list Z) :
  mapM (fun sb => segment_relators braid_action d verts (fst sb) (snd sb))
       braidscomputed = Ok new ->
  In r (concat new) ->
  exists sb i j k, In sb braidscomputed /\ (i < length verts)%nat
    /\ (j < length verts)%nat /\ (k < d)%nat
    /\ r = relator braid_action d i j (snd sb) k.
Proof.
  intros Hnew Hr. apply in_concat in Hr. destruct Hr as [rs [Hrs Hr]].
  apply mapM_Ok in Hnew.
  destruct (Forall2_In_r Hnew Hrs) as [sb [Hsb Hrel]].
  unfold segment_relators in Hrel. inv_bind Hrel. inv_bind Hrel. inv_ok.
  apply in_map_iff in Hr. destruct Hr as [k [<- Hk]]. apply in_seq in Hk.
  exists sb, v, v0, k. split; [exact Hsb|].
  split; [eapply position_bound; exact E|].
  split; [eapply position_bound; exact E0|]. split; [lia | reflexivity].
Qed.

Lemma braids_of_segments (fuel : nat) (g : poly) (segs : list (complex * complex))
    (braidscomputed : list (complex * complex * list Z))
    (sb : complex * complex * list Z) :
  mapM (fun seg => b <- the_segment_braid fuel g (fst seg) (snd seg) ;; Ok (seg, b))
       segs = Ok braidscomputed ->
  In sb braidscomputed ->
  In (fst sb) segs
  /\ the_segment_braid fuel g (fst (fst sb)) (snd (fst sb)) = Ok (snd sb).
Proof.
  intros Hb Hsb. apply mapM_Ok in Hb.
  destruct (Forall2_In_r Hb Hsb) as [seg [Hseg Hrel]].
  inv_bind Hrel. inv_ok. cbn [fst snd]. split; [exact Hseg | exact E].
Qed.

(** Every relator of the unsimplified presentation is a word in its
    generators, as long as the action of the computed braids on the [d]
    generators of a fibre gives words in these generators. *)
Theorem fundamental_group_relators_in_range
    (fuel : nat) (f : poly) (projective : bool) (g : poly)
    (segs : list (complex * complex)) (G : presentation) :
  the_shift fuel projective (radical f) = Ok g ->
  segments Voronoi (discrim g) = Ok segs ->
  the_group fuel f false projective = Ok G ->
  (projective = true -> ngens G <> 0%nat) ->
  (forall seg b k a, In seg segs ->
     the_segment_braid fuel g (fst seg) (snd seg) = Ok b ->
     (k < degree_y g)%nat ->
     In a (braid_action (degree_y g) [Z.of_nat k + 1]%Z (braid_inverse b)) ->
     a <> 0%Z /\ (Z.abs a <= Z.of_nat (degree_y g))%Z) ->
  Forall (tietze_word (ngens G)) (relators G).
Proof.
  intros Hg Hsegs H Hproj Hact. unfold fundamental_group in H.
  rewrite Hg in H. cbn [bind] in H. rewrite Hsegs in H. cbn [bind] in H.
  inv_bind H. inv_bind H. inv_ok. rename v into braidscomputed, v0 into new.
  cbn [ngens relators] in *.
  set (d := degree_y g) in *.
  set (verts := dedup (flat_map (fun s : complex * complex => [fst s; snd s]) segs)) in *.
  apply Forall_app. split.
  - destruct projective; [|constructor].
    constructor; [|constructor].
    specialize (Hproj eq_refl).
    unfold tietze_word. apply Forall_map, Forall_forall. intros i Hi.
    apply in_seq in Hi. split; [lia|].
    assert (length verts <> 0%nat) by (intros X; rewrite X in Hproj; lia).
    nia.
  - apply Forall_forall. intros r Hr.
    destruct (relators_of_segments d verts braidscomputed new r E0 Hr)
      as [sb [i [j [k [Hsb [Hi [Hj [Hk ->]]]]]]]].
    destruct (braids_of_segments fuel g segs braidscomputed sb E Hsb) as [Hseg Hbr].
    apply relator_in_range; try assumption.
    intros a Ha. exact (Hact (fst sb) (snd sb) k a Hseg Hbr Hk Ha).
Qed.


End PresentationFacts.

Lemma fundamental_group_relators_in_range_witness :
  Forall (tietze_word (ngens line_presentation)) (relators line_presentation).
Proof.
  apply (fundamental_group_relators_in_range unit (fun f => f) (fun _ => 2%nat)
           (fun _ => 2%nat) (fun _ _ => true) (fun f => f) (fun _ => [Cx 0 0])
           line_roots sample_Voronoi line_coefficients line_contpath
           line_contpath_mp artin_action (fun G => G)
           1 tt false tt square_network line_presentation).
  - reflexivity.
  - vm_compute. reflexivity.
  - vm_compute. reflexivity.
  - discriminate.
  - intros seg b k a Hseg Hb Hk Ha.
    destruct Hseg as [<-|[<-|[<-|[<-|[]]]]];
      vm_compute in Hb; injection Hb as <-;
      (destruct k as [|[|k]]; [| |lia]);
      vm_compute in Ha;
      repeat (destruct Ha as [<-|Ha]; [split; [discriminate | simpl; lia]|]);
      destruct Ha.
Defined.


(** ** Families that are not in the shape of the data model *)

(** [braid_from_piecewise] reads the second sample of every strand before
    anything else: the empty family makes [min] fail with [ValueError], and
    a family with a strand of fewer than two samples makes the read fail
    with [IndexError]. *)
Theorem braid_from_piecewise_short_input (L : list strand) :
  L = [] \/ (exists s, In s L /\ (length s < 2)%nat) ->
  braid_from_piecewise L
  = Raise (match L with [] => ValueError | _ :: _ => IndexError end).
Proof.
  intros [->|[s [Hs Hlen]]]; [reflexivity|].
  destruct L as [|s0 L0]; [destruct Hs|].
  set (L := s0 :: L0) in *.
  unfold braid_from_piecewise, braid_word, merge.
  rewrite (mapM_raise (fun Lk : list (Qc * complex) => s <- index Lk 1 ;; Ok (fst s))
             IndexError L).
  - reflexivity.
  - intros x _. unfold index. destruct (nth_error x 1); [left; eexists|right];
      reflexivity.
  - exists s. split; [exact Hs|].
    destruct s as [|a [|b r]]; [reflexivity | reflexivity | simpl in Hlen; lia].
Qed.

Lemma braid_from_piecewise_short_input_witness :
  braid_from_piecewise [ [(0, Cx 0 0); (1, Cx 0 0)]; [(1, Cx 1 0)] ]
  = Raise IndexError.
Proof.
  apply (braid_from_piecewise_short_input
           [ [(0, Cx 0 0); (1, Cx 0 0)]; [(1, Cx 1 0)] ]).
  right. exists [(1, Cx 1 0)]. split; [right; left; reflexivity | simpl; lia].
Defined.

(** ** PathNetworkBuilder: the auxiliary points *)

Lemma Qcabs_bounds (x : Qc) : 0 <= Qcabs x /\ x <= Qcabs x /\ - x <= Qcabs x.
Proof.
  unfold Qcabs. destruct (Qcltb x 0) eqn:E.
  - apply Qcltb_lt in E. repeat split; qc2q; lra.
  - apply Qcltb_ge in E. repeat split; qc2q; lra.
Qed.

(** The four auxiliary points that [segments] adds to the branch points
    are four different points, at distance at least 1 from the origin, and
    none of them is a branch point. *)
Theorem segments_auxiliary_points_are_new (points : list complex) (a : Qc) :
  added_points (map pt_of points) = Ok a ->
  1 <= a
  /\ NoDup (skipn (length points) (configuration (map pt_of points) a))
  /\ forall p, In p points ->
       ~ In (pt_of p) (skipn (length points) (configuration (map pt_of points) a)).
Proof.
  intros Ha. destruct (added_points_spec points a Ha) as [m [[Hmax Hin] ->]].
  assert (Hm : 0 <= m).
  { destruct Hin as [p [_ [-> | ->]]]; apply Qcabs_bounds. }
  assert (E3 : Q2Qc 3 = 1 + 1 + 1) by (apply Qc_is_canon; reflexivity).
  rewrite E3. clear E3.
  set (a := (1 + 1 + 1) * m + 1).
  assert (A1 : 1 <= a) by (unfold a; clear - Hm; qc2q; lra).
  assert (Hsk : skipn (length points) (configuration (map pt_of points) a)
                = [(a, 0); (- a, 0); (0, a); (0, - a)]).
  { unfold configuration. rewrite skipn_app, length_map, Nat.sub_diag.
    rewrite skipn_all2 by (rewrite length_map; lia). reflexivity. }
  rewrite Hsk. split; [exact A1|]. split.
  - assert (N0 : a <> 0) by (clear - A1; intros X; rewrite X in A1; qc2q; lra).
    assert (N1 : a <> - a) by (clear - A1; intros X; qc2q; lra).
    assert (N2 : - a <> 0) by (clear - A1; intros X; qc2q; lra).
    repeat (apply NoDup_cons;
            [simpl; intros C;
             repeat (destruct C as [C|C];
                     [pose proof (f_equal fst C) as C1;
                      pose proof (f_equal snd C) as C2;
                      cbn [fst snd] in C1, C2; congruence|]);
             destruct C|]).
    apply NoDup_nil.
  - intros p Hp C. destruct (Hmax p Hp) as [Hr Hi].
    destruct (Qcabs_bounds (real p)) as [_ [R1 R2]].
    destruct (Qcabs_bounds (imag p)) as [_ [I1 I2]].
    unfold pt_of in C. simpl in C.
    destruct C as [C|[C|[C|[C|[]]]]];
      pose proof (f_equal fst C) as C1; pose proof (f_equal snd C) as C2;
      cbn [fst snd] in C1, C2; unfold a in *;
      clear - C1 C2 Hr Hi R1 R2 I1 I2 Hm; qc2q; lra.
Qed.

Lemma segments_auxiliary_points_are_new_witness :
  1 <= qc 7 1
  /\ NoDup (skipn 2 (configuration (map pt_of [cx 1 1 (-2) 1; cx 0 1 1 2]) (qc 7 1)))
  /\ forall p, In p [cx 1 1 (-2) 1; cx 0 1 1 2] ->
       ~ In (pt_of p)
            (skipn 2 (configuration (map pt_of [cx 1 1 (-2) 1; cx 0 1 1 2]) (qc 7 1))).
Proof.
  apply (segments_auxiliary_points_are_new [cx 1 1 (-2) 1; cx 0 1 1 2] (qc 7 1)).
  vm_compute. reflexivity.
Defined.

(** ** Empty fibres and curves without branch points *)

Section DegenerateCurves.

Context (poly : Type)
  (radical : poly -> poly)
  (degree_y total_degree : poly -> nat)
  (leading_coefficient_constant : poly -> nat -> bool)
  (shear : poly -> poly)
  (discrim : poly -> list complex)
  (roots : poly -> complex -> list complex)
  (Voronoi : list pt -> result voronoi)
  (interval_coefficients : poly -> complex -> complex -> nat -> nat * list Qc)
  (contpath : nat -> list Qc -> Qc -> Qc -> result (list (Qc * Qc * Qc)))
  (contpath_mp : nat -> list Qc -> Qc -> Qc -> nat -> result (list (Qc * Qc * Qc)))
  (braid_action : nat -> list Z -> list Z -> list Z)
  (simplified_presentation : presentation -> presentation).

(** When the fibre at [x0] has no root there is no strand to follow, and
    [braid_in_segment] raises the [ValueError] of [braid_from_piecewise] on
    the empty family. *)
Theorem braid_in_segment_empty_fibre (fuel : nat) (f : poly) (x0 x1 : complex) :
  roots f x0 = [] ->
  braid_in_segment poly roots interval_coefficients contpath contpath_mp
    fuel f x0 x1 = Raise ValueError.
Proof. intros H. unfold braid_in_segment. rewrite H. reflexivity. Qed.

(** For a curve whose discriminant has no root, [fundamental_group] raises
    the [ValueError] of [segments] on the empty list, whatever the options:
    no presentation is returned. *)
Theorem fundamental_group_no_branch_points
    (fuel : nat) (f : poly) (simplified projective : bool) (g : poly) :
  shift_coordinates poly degree_y total_degree leading_coefficient_constant shear
    fuel projective (radical f) = Ok g ->
  discrim g = [] ->
  fundamental_group poly radical degree_y total_degree
    leading_coefficient_constant shear discrim roots Voronoi
    interval_coefficients contpath contpath_mp braid_action
    simplified_presentation fuel f simplified projective = Raise ValueError.
Proof.
  intros Hg Hd. unfold fundamental_group. rewrite Hg. cbn [bind].
  rewrite Hd. reflexivity.
Qed.

End DegenerateCurves.

Lemma braid_in_segment_empty_fibre_witness :
  braid_in_segment unit (fun _ _ => []) line_coefficients line_contpath
    line_contpath_mp 1 tt (Cx 0 0) (Cx 1 0) = Raise ValueError.
Proof.
  apply (braid_in_segment_empty_fibre unit (fun _ _ => []) line_coefficients
           line_contpath line_contpath_mp 1 tt (Cx 0 0) (Cx 1 0)).
  reflexivity.
Defined.

Lemma fundamental_group_no_branch_points_witness :
  fundamental_group unit (fun f => f) (fun _ => 1%nat) (fun _ => 1%nat)
    (fun _ _ => true) (fun f => f) (fun _ => []) line_roots sample_Voronoi
    line_coefficients line_contpath line_contpath_mp artin_action (fun G => G)
    0 tt true false = Raise ValueError.
Proof.
  apply (fundamental_group_no_branch_points unit (fun f => f) (fun _ => 1%nat)
           (fun _ => 1%nat) (fun _ _ => true) (fun f => f) (fun _ => [])
           line_roots sample_Voronoi line_coefficients line_contpath
           line_contpath_mp artin_action (fun G => G) 0 tt true false tt).
  - reflexivity.
  - reflexivity.
Defined.

(** ** Strands that stop before the time 1 *)

Lemma advance_runs (s : strand) (idx : nat) (i : Qc) :
  increasing_strand s -> cursor s idx i ->
  advance i s idx = Ok (appended_point i s idx, step_index i s idx).
Proof.
  intros [W1 W2] [H1 [H2 [H3 H4]]].
  unfold appended_point, advance, step_index.
  rewrite (index_nth s idx (0, Cx 0 0)) by exact H2. cbn [bind].
  fold (time_at s idx).
  destruct (Qcltb i (time_at s idx)) eqn:E; [|reflexivity].
  rewrite (index_nth s (idx - 1) (0, Cx 0 0)) by lia. cbn [bind].
  rewrite cdiv_Ok; [reflexivity|].
  fold (time_at s idx) (time_at s (idx - 1)).
  pose proof (W2 (idx - 1)%nat idx ltac:(lia) H2) as L.
  intros X. qc2q. lra.
Qed.

Lemma for_body_runs (i : Qc) (g : strand -> list pt) (h : strand -> nat) :
  forall L0, (forall s, In s L0 -> increasing_strand s /\ cursor s (h s) i) ->
  for_body i L0 (map g L0) (map h L0)
  = Ok (map (fun s => g s ++ [appended_point i s (h s)]) L0,
        map (fun s => step_index i s (h s)) L0).
Proof.
  induction L0 as [|s r IH]; intros H; [reflexivity|].
  cbn [for_body map].
  destruct (H s (or_introl eq_refl)) as [Hs Hc].
  rewrite (advance_runs s (h s) i Hs Hc). cbn [bind].
  rewrite IH by (intros s' Hs'; apply H; right; exact Hs').
  reflexivity.
Qed.

Lemma times_at_raise (h : strand -> nat) :
  forall L0, (exists s, In s L0 /\ (length s <= h s)%nat) ->
  times_at L0 (map h L0) = Raise IndexError.
Proof.
  induction L0 as [|s r IH]; intros [s0 [Hin Hlen]]; [destruct Hin|].
  cbn [times_at map].
  destruct (le_lt_dec (length s) (h s)) as [Hbad|Hgood].
  - unfold index. rewrite (proj2 (nth_error_None s (h s)) Hbad). reflexivity.
  - rewrite (index_nth s (h s) (0, Cx 0 0)) by exact Hgood. cbn [bind].
    rewrite IH; [reflexivity|].
    destruct Hin as [->|Hin]; [lia|]. exists s0. auto.
Qed.

Lemma list_sum_lt {A : Type} (f f' : A -> nat) (l : list A) :
  (forall x, In x l -> (f' x <= f x)%nat) ->
  (exists x, In x l /\ (f' x < f x)%nat) ->
  (list_sum (map f' l) < list_sum (map f l))%nat.
Proof.
  assert (Hle : forall l0 : list A, (forall x, In x l0 -> (f' x <= f x)%nat) ->
                  (list_sum (map f' l0) <= list_sum (map f l0))%nat).
  { induction l0 as [|a r IH]; intros H; simpl; [lia|].
    specialize (IH (fun x Hx => H x (or_intror Hx))).
    specialize (H a (or_introl eq_refl)). lia. }
  induction l as [|a r IH]; intros H [x [Hx Hlt]]; [destruct Hx|].
  simpl. pose proof (H a (or_introl eq_refl)) as Ha.
  destruct Hx as [->|Hx].
  - specialize (Hle r (fun y Hy => H y (or_intror Hy))). lia.
  - assert (IH' : (list_sum (map f' r) < list_sum (map f r))%nat).
    { apply IH; [intros y Hy; apply H; right; exact Hy | exists x; auto]. }
    lia.
Qed.

Lemma merge_fuel_sum (L : list strand) :
  merge_fuel L = list_sum (map (@length sample) L).
Proof.
  unfold merge_fuel. induction L as [|s r IH]; [reflexivity|].
  cbn [concat map list_sum]. rewrite length_app, IH. reflexivity.
Qed.

Section StopsEarly.

Variable L : list strand.

Hypothesis L_increasing : forall s, In s L -> increasing_strand s.

Hypothesis L_stops : exists s, In s L /\ stops_early s.

Lemma early_time (i : Qc) (h : strand -> nat) :
  (forall s, In s L -> cursor s (h s) i) -> i < 1.
Proof.
  intros Hc. destruct L_stops as [s [Hs He]].
  destruct (Hc s Hs) as [H1 [H2 [_ H4]]].
  destruct (L_increasing s Hs) as [_ W2].
  eapply Qcle_lt_trans; [exact H4|]. unfold stops_early in He.
  destruct (Nat.eq_dec (h s) (length s - 1)) as [->|N]; [exact He|].
  eapply Qclt_trans; [|exact He]. apply W2; lia.
Qed.

(** With a strand that stops early the loop cannot reach the time 1: some
    index runs past the end of its strand. *)
Lemma merge_loop_stops (fuel : nat) :
  forall (i : Qc) (g : strand -> list pt) (h : strand -> nat),
  (forall s, In s L -> cursor s (h s) i) ->
  (exists s, In s L /\ time_at s (h s) = i) ->
  (list_sum (map (fun s => length s - h s) L) < fuel)%nat ->
  merge_loop fuel L i (map g L) (map h L) = Raise IndexError.
Proof.
  induction fuel as [|fuel IH]; intros i g h Hc Hmin Hfuel; [lia|].
  pose proof (early_time i h Hc) as Hi.
  cbn [merge_loop]. rewrite (proj2 (Qcltb_lt i 1) Hi).
  rewrite (for_body_runs i g h L) by (intros s Hs; auto).
  cbn [bind].
  set (h' := fun s => step_index i s (h s)).
  assert (Hstep : forall s, In s L ->
            (h s <= h' s)%nat /\ (1 <= h' s)%nat /\ (h' s <= length s)%nat
            /\ (forall q, (1 <= q)%nat -> (q < h' s)%nat -> time_at s q <= i)
            /\ ((h' s < length s)%nat -> i < time_at s (h' s))).
  { intros s Hs. destruct (Hc s Hs) as [H1 [H2 [H3 H4]]].
    destruct (L_increasing s Hs) as [_ W2].
    unfold h', step_index. destruct (Qcltb i (time_at s (h s))) eqn:E.
    - apply Qcltb_lt in E. repeat split; try lia; auto.
      intros q Hq1 Hq2. apply Qclt_le_weak. apply H3; assumption.
    - apply Qcltb_ge in E.
      assert (Ei : time_at s (h s) = i) by (apply Qcle_antisym; assumption).
      repeat split; try lia.
      + intros q Hq1 Hq2. destruct (Nat.eq_dec q (h s)) as [->|N].
        * rewrite Ei. apply Qcle_refl.
        * apply Qclt_le_weak. apply H3; lia.
      + intros Hlt. rewrite <- Ei. apply W2; lia. }
  destruct (Exists_dec (fun s => (length s <= h' s)%nat) L) as [Hbad|Hgood].
  { intros s. apply le_dec. }
  - apply Exists_exists in Hbad.
    rewrite (times_at_raise h' L Hbad). reflexivity.
  - assert (Hlt : forall s, In s L -> (h' s < length s)%nat).
    { intros s Hs. destruct (le_lt_dec (length s) (h' s)) as [X|X]; [|exact X].
      exfalso. apply Hgood. apply Exists_exists. exists s. auto. }
    rewrite times_at_correct by exact Hlt. cbn [bind].
    destruct (min_list_nonempty (map (fun s => time_at s (h' s)) L)) as [i' Hi'].
    { destruct L_stops as [s [Hs _]]. destruct L; [destruct Hs | discriminate]. }
    rewrite Hi'. cbn [bind].
    apply min_list_spec in Hi'. destruct Hi' as [Hin Hle].
    apply in_map_iff in Hin. destruct Hin as [s1 [E1 Hs1]].
    assert (Hii : i < i').
    { rewrite <- E1. apply (Hstep s1 Hs1). apply Hlt. exact Hs1. }
    apply IH.
    + intros s Hs. destruct (Hstep s Hs) as [X0 [X1 [X2 [X3 X4]]]].
      split; [exact X1|]. split; [apply Hlt; exact Hs|]. split.
      * intros q Hq1 Hq2. eapply Qcle_lt_trans; [apply X3; assumption | exact Hii].
      * apply Hle. apply in_map_iff. exists s. auto.
    + exists s1. auto.
    + assert (D : (list_sum (map (fun s => length s - h' s) L)
                   < list_sum (map (fun s => length s - h s) L))%nat).
      { apply list_sum_lt.
        - intros s Hs. destruct (Hstep s Hs) as [X0 _]. lia.
        - destruct Hmin as [s0 [Hs0 E0]]. exists s0. split; [exact Hs0|].
          destruct (Hc s0 Hs0) as [_ [H2 _]].
          assert (h' s0 = S (h s0)).
          { unfold h', step_index. rewrite E0.
            rewrite (proj2 (Qcltb_ge i i) (Qcle_refl i)). reflexivity. }
          lia. }
      lia.
Qed.

Lemma merge_stops : merge L = Raise IndexError.
Proof.
  assert (Hne : L <> []).
  { destruct L_stops as [s [Hs _]]. intros E. rewrite E in Hs. destruct Hs. }
  unfold merge.
  rewrite (mapM_map _ (fun s => time_at s 1)).
  2:{ apply Forall_forall. intros s Hs. destruct (L_increasing s Hs) as [W _].
      cbv beta. rewrite (@index_nth (Qc * complex) s 1 (0, Cx 0 0)) by exact W.
      reflexivity. }
  cbn [bind].
  destruct (min_list_nonempty (map (fun s => time_at s 1) L)) as [i0 Hmin].
  { destruct L; [congruence | discriminate]. }
  rewrite Hmin. cbn [bind].
  apply min_list_spec in Hmin. destruct Hmin as [Hin Hle].
  rewrite (mapM_map _ (fun s => [first_point s])).
  2:{ apply Forall_forall. intros s Hs. destruct (L_increasing s Hs) as [W _].
      cbv beta. rewrite (@index_nth (Qc * complex) s 0 (0, Cx 0 0))
        by (apply Nat.lt_le_trans with (2 := W); repeat constructor).
      cbn [bind].
      unfold first_point. destruct s; [simpl in W; lia | reflexivity]. }
  cbn [bind].
  rewrite (merge_loop_stops (merge_fuel L) i0 (fun s => [first_point s])
             (fun _ => 1%nat)).
  - reflexivity.
  - intros s Hs. destruct (L_increasing s Hs) as [W _].
    split; [lia|]. split; [lia|]. split; [intros q Hq1 Hq2; lia|].
    apply Hle. apply in_map_iff. exists s. auto.
  - apply in_map_iff in Hin. destruct Hin as [s [E Hs]]. exists s. auto.
  - rewrite merge_fuel_sum. apply list_sum_lt.
    + intros s _. lia.
    + destruct L_stops as [s [Hs _]]. exists s. split; [exact Hs|].
      destruct (L_increasing s Hs) as [W _]. lia.
Qed.

End StopsEarly.

(** A strand whose samples stop before the time 1 makes
    [braid_from_piecewise] fail: the loop that merges the strands runs past
    the last sample of a strand and raises [IndexError]; it neither loops
    for ever nor returns a braid. *)
Theorem braid_from_piecewise_strand_stops_early (L : list strand) :
  (forall s, In s L -> increasing_strand s) ->
  (exists s, In s L /\ stops_early s) ->
  braid_from_piecewise L = Raise IndexError.
Proof.
  intros Hinc Hstop. unfold braid_from_piecewise, braid_word.
  rewrite (merge_stops L Hinc Hstop). reflexivity.
Qed.

Lemma braid_from_piecewise_strand_stops_early_witness :
  braid_from_piecewise short_lived_strands = Raise IndexError.
Proof.
  apply (braid_from_piecewise_strand_stops_early short_lived_strands).
  - intros s [<-|[<-|[]]]; (split; [simpl; lia|]);
      intros p q Hpq Hq; simpl in Hq;
      assert (p = 0%nat) by lia; assert (q = 1%nat) by lia; subst;
      vm_compute; reflexivity.
  - exists [ (0, Cx 1 0); (qc 1 2, Cx 1 1) ].
    split; [right; left; reflexivity | vm_compute; reflexivity].
Defined.

(** ** PathNetworkBuilder: the segments join vertices of the diagram *)

Lemma index_py_In {A : Type} (xs : list A) (z : Z) (x : A) :
  index_py xs z = Ok x -> In x xs.
Proof.
  unfold index_py. intros H.
  destruct (z <? 0)%Z; [destruct (- z <=? Z.of_nat (length xs))%Z; [|discriminate]|];
    apply index_Ok in H; eapply nth_error_In; exact H.
Qed.

(** When [segments] returns, it returns one segment for every ridge of the
    diagram without a vertex at infinity, and both ends of every segment
    are vertices of the diagram. *)
Theorem segments_join_vertices (Voronoi : list pt -> result voronoi)
    (points : list complex) (segs : list (complex * complex)) :
  segments Voronoi points = Ok segs ->
  exists a V,
    added_points (map pt_of points) = Ok a
    /\ Voronoi (configuration (map pt_of points) a) = Ok V
    /\ length segs = length (filter bounded (ridge_vertices V))
    /\ forall seg, In seg segs ->
         In (pt_of (fst seg)) (vertices V) /\ In (pt_of (snd seg)) (vertices V).
Proof.
  rewrite segments_unfold. intros H. inv_bind H. inv_bind H.
  rename v into a, v0 into V. exists a, V.
  split; [exact E|]. split; [exact E0|].
  unfold bounded_edges in H. split.
  - eapply mapM_length. exact H.
  - intros seg Hseg. apply mapM_Ok in H.
    destruct (Forall2_In_r H Hseg) as [rv [_ Hrv]].
    unfold ridge_endpoints in Hrv.
    inv_bind Hrv. inv_bind Hrv. inv_bind Hrv. inv_bind Hrv. inv_ok.
    apply index_py_In in E2, E4. destruct v0, v2. cbn [fst snd pt_of real imag].
    auto.
Qed.

Lemma segments_join_vertices_witness :
  exists a V,
    added_points (map pt_of [Cx 0 0]) = Ok a
    /\ sample_Voronoi (configuration (map pt_of [Cx 0 0]) a) = Ok V
    /\ length square_network = length (filter bounded (ridge_vertices V))
    /\ forall seg, In seg square_network ->
         In (pt_of (fst seg)) (vertices V) /\ In (pt_of (snd seg)) (vertices V).
Proof.
  apply (segments_join_vertices sample_Voronoi [Cx 0 0] square_network).
  vm_compute. reflexivity.
Defined.

(** ** The permutation of the braid word of a slice *)

Lemma pos_nth (P : perm) (x dflt : nat) :
  (x < length P)%nat -> pos P x = nth x P dflt.
Proof.
  intros Hx. unfold pos, papply. replace (x + 1 - 1)%nat with x by lia.
  apply nth_indep. exact Hx.
Qed.

Lemma word_perm_app (w1 w2 : list Z) (P : perm) :
  word_perm (w1 ++ w2) P = word_perm w2 (word_perm w1 P).
Proof. unfold word_perm. apply fold_left_app. Qed.

(** Exchanging two strands at adjacent positions is the action of the
    letter of the lower position. *)
Lemma transpose_letter (d : nat) (P : perm) (k j : nat) (g : Z) :
  is_perm d P -> (k < d)%nat -> (j < d)%nat ->
  pos P j = S (pos P k) -> Z.abs_nat g = pos P k ->
  pmul (transposition d (k + 1) (j + 1)) P = letter_perm g P.
Proof.
  intros HP Hk Hj Hadj Hg.
  pose proof (is_perm_length d P HP) as HL.
  apply (nth_ext _ _ 0%nat 0%nat).
  - unfold pmul, transposition, letter_perm. rewrite !length_map, length_seq. lia.
  - intros n Hn.
    assert (Hnd : (n < d)%nat).
    { unfold pmul, transposition in Hn. rewrite !length_map, length_seq in Hn.
      exact Hn. }
    rewrite <- (pos_nth _ n 0%nat) by exact Hn.
    rewrite (pos_pmul_transposition d P k j n Hnd).
    unfold letter_perm. rewrite (nth_map_lt _ _ _ 0%nat) by lia.
    rewrite <- (pos_nth P n 0%nat) by lia.
    rewrite Hg, <- Hadj.
    unfold swap.
    destruct (Nat.eqb_spec n k) as [->|Nk].
    + rewrite Nat.eqb_refl. reflexivity.
    + destruct (Nat.eqb_spec n j) as [->|Nj].
      * rewrite Nat.eqb_refl.
        destruct (Nat.eqb_spec (pos P j) (pos P k)) as [E|_]; [lia | reflexivity].
      * destruct (Nat.eqb_spec (pos P n) (pos P k)) as [E|_].
        { apply (pos_inj d) in E; auto. contradiction. }
        destruct (Nat.eqb_spec (pos P n) (pos P j)) as [E|_].
        { apply (pos_inj d) in E; auto. contradiction. }
        reflexivity.
Qed.

Section SlicePermutation.

Variable M : list (pt * pt).

Hypothesis M_sorted : StronglySorted le M.

Variable cruces : list crossing.

Hypothesis Hcruces : find_cruces (map fst M) (map snd M) = Ok cruces.

(** While a group of crossings of the same time is resolved, the
    accumulated permutation is the permutation of the letters emitted. *)
Lemma greedy_replay (P : perm) (G : list crossing) (w : list Z) (P' : perm) :
  greedy (length M) P G w P' ->
  forall (tau : Qc) (done : list crossing),
  NoDup G -> state_ok M cruces tau P done -> pending_ok cruces tau done G ->
  Forall (fun g => g <> 0%Z) w ->
  P' = word_perm w P
  /\ exists done', state_ok M cruces tau P' done'
                   /\ forall c, In c done' <-> In c G \/ In c done.
Proof.
  induction 1 as [P|P pending c rest w P' HP Hmin Hgr IH];
    intros tau done ND ST HG Hnz.
  - split; [reflexivity|]. exists done. split; [exact ST | intros c; simpl; tauto].
  - destruct (pending_step cruces tau done pending rest c HG ND HP)
      as [HG' [ND' Hc]].
    assert (Hminp : forall c', In c' pending ->
              (pdiff P (c_k c) (c_j c) <= pdiff P (c_k c') (c_j c'))%Z).
    { intros c' Hc'. specialize (Hmin c' Hc'). unfold distance in Hmin.
      pose proof (pending_pos M cruces Hcruces tau P done pending c ST HG Hc) as X.
      pose proof (pending_pos M cruces Hcruces tau P done pending c' ST HG Hc') as X'.
      rewrite !pdiff_pos in *. lia. }
    pose proof (minimal_is_adjacent M M_sorted cruces Hcruces tau P done pending c
                  ST HG Hc Hminp) as Hadj.
    pose proof (step_ok M cruces Hcruces tau P done pending c ST HG Hc Hadj) as ST'.
    destruct HG as [HGin HGc]. destruct (HGin c Hc) as [Hin _].
    destruct (cruces_facts M cruces Hcruces c Hin) as [Hkj [Hj [_ [_ [_ Hs]]]]].
    assert (Hk : (c_k c < length M)%nat) by lia.
    pose proof (pos_range _ P (c_k c) (ok_perm _ _ _ _ _ ST) Hk) as Rk.
    apply Forall_cons_iff in Hnz. destruct Hnz as [Hg Hnz].
    assert (Eg : Z.abs_nat (signed_generator P c) = pos P (c_k c)).
    { unfold signed_generator in *. fold (pos P (c_k c)) (pos P (c_j c)) in *.
      rewrite Hadj in *.
      replace (Nat.min (pos P (c_k c)) (S (pos P (c_k c)))) with (pos P (c_k c))
        in * by lia.
      pose proof (cmp_range (im_at (map fst M) (map snd M) (c_k c) (c_t c))
                            (im_at (map fst M) (map snd M) (c_j c) (c_t c))) as R.
      rewrite Hs in *.
      destruct (Z.eq_dec (cmp (im_at (map fst M) (map snd M) (c_k c) (c_t c))
                              (im_at (map fst M) (map snd M) (c_j c) (c_t c))) 0)
        as [E0|N0]; [rewrite E0 in Hg; simpl in Hg; congruence|].
      nia. }
    assert (Et : transpose (length M) P c = letter_perm (signed_generator P c) P).
    { unfold transpose.
      apply (transpose_letter (length M) P (c_k c) (c_j c)); auto.
      apply ST. }
    destruct (IH tau (c :: done) ND' ST' HG' Hnz) as [EP [done' [ST'' Hdone']]].
    split.
    + rewrite EP, Et. reflexivity.
    + exists done'. split; [exact ST''|].
      intros x. rewrite Hdone'. split.
      * intros [I|[<-|I]]; [left|left; exact Hc|right; exact I].
        apply (Permutation_in _ (Permutation_sym HP)). right. exact I.
      * intros [I|I]; [|right; right; exact I].
        apply (Permutation_in _ HP) in I.
        destruct I as [<-|I]; [right; left; reflexivity | left; exact I].
Qed.

(** The same for all the crossings of the slice, group after group. *)
Lemma process_replay (P : perm) (remaining : list crossing) (w : list Z) :
  process (length M) P remaining w ->
  forall done : list crossing,
  NoDup remaining -> outer_ok M cruces P done remaining ->
  Forall (fun g => g <> 0%Z) w ->
  exists done', outer_ok M cruces (word_perm w P) done' [].
Proof.
  induction 1 as [P|P rem t G later w1 P' w2 Hne HPerm HGt Hlater Hgr Hpr IH];
    intros done ND HO Hnz.
  - exists done. exact HO.
  - destruct HO as [HP [Hd [Hall [Hrem [Hlt Hinv]]]]].
    assert (HGsub : forall c, In c G -> In c rem).
    { intros c Hc. apply (Permutation_in _ (Permutation_sym HPerm)).
      apply in_or_app. left. exact Hc. }
    assert (HLsub : forall c, In c later -> In c rem).
    { intros c Hc. apply (Permutation_in _ (Permutation_sym HPerm)).
      apply in_or_app. right. exact Hc. }
    assert (Hsplit : forall c, In c rem -> In c G \/ In c later).
    { intros c Hc. apply (Permutation_in _ HPerm) in Hc.
      apply in_app_or in Hc. exact Hc. }
    assert (NDsplit : NoDup (G ++ later)) by (apply (Permutation_NoDup HPerm ND)).
    assert (NDG : NoDup G) by (apply (NoDup_app_remove_r _ _ NDsplit)).
    assert (NDL : NoDup later) by (apply (NoDup_app_remove_l _ _ NDsplit)).
    destruct G as [|c0 G0] eqn:EG; [congruence|]. rewrite <- EG in *.
    assert (Hc0 : In c0 G) by (rewrite EG; left; reflexivity).
    assert (ST : state_ok M cruces t P done).
    { split; [exact HP | | | exact Hinv].
      - intros c Hc. split; [apply Hd; exact Hc|].
        apply Qclt_le_weak. rewrite <- (HGt c0 Hc0).
        apply (Hlt c c0 Hc). apply HGsub. exact Hc0.
      - intros c Hc N. destruct (Hall c Hc) as [I|I]; [contradiction|].
        destruct (Hsplit c I) as [I'|I'].
        + rewrite (HGt c I'). apply Qcle_refl.
        + apply Qclt_le_weak. apply Hlater. exact I'. }
    assert (PO : pending_ok cruces t done G).
    { split.
      - intros c Hc. destruct (Hrem c (HGsub c Hc)) as [H1 H2].
        split; [exact H1|]. split; [apply HGt; exact Hc | exact H2].
      - intros c Hc Ht N. destruct (Hall c Hc) as [I|I]; [contradiction|].
        destruct (Hsplit c I) as [I'|I']; [exact I'|].
        apply Hlater in I'. rewrite Ht in I'. exfalso.
        exact (Qclt_not_eq _ _ I' eq_refl). }
    apply Forall_app in Hnz. destruct Hnz as [Hnz1 Hnz2].
    destruct (greedy_replay P G w1 P' Hgr t done NDG ST PO Hnz1)
      as [EP [done1 [ST1 Hdone1]]].
    assert (HO' : outer_ok M cruces P' done1 later).
    { split; [apply ST1|]. split; [|split; [|split; [|split]]].
      - intros c Hc. apply Hdone1 in Hc. destruct Hc as [Hc|Hc]; [|auto].
        apply Hrem, HGsub, Hc.
      - intros c Hc. destruct (Hall c Hc) as [I|I].
        + left. apply Hdone1. right. exact I.
        + destruct (Hsplit c I) as [I'|I']; [|auto].
          left. apply Hdone1. left. exact I'.
      - intros c Hc. split; [apply Hrem, HLsub, Hc|].
        intros I. apply Hdone1 in I. destruct I as [I|I].
        + pose proof (Hlater c Hc) as L. rewrite (HGt c I) in L.
          exact (Qclt_not_eq _ _ L eq_refl).
        + destruct (Hrem c (HLsub c Hc)) as [_ N]. contradiction.
      - intros c c' Hc Hc'. apply Hdone1 in Hc. destruct Hc as [Hc|Hc].
        + rewrite (HGt c Hc). apply Hlater. exact Hc'.
        + eapply Qclt_trans; [|apply Hlater; exact Hc'].
          rewrite <- (HGt c0 Hc0). apply (Hlt c c0 Hc). apply HGsub. exact Hc0.
      - apply ST1. }
    destruct (IH done1 NDL HO' Hnz2) as [done' HO''].
    exists done'. rewrite word_perm_app, <- EP. exact HO''.
Qed.

(** After the slice, the strands stand in the order of their end points. *)
Lemma slice_perm_spec (w : list Z) :
  process (length M) (perm_id (length M)) (sort cruces) w ->
  Forall (fun g => g <> 0%Z) w ->
  is_perm (length M) (word_perm w (perm_id (length M)))
  /\ forall k j, (k < j)%nat -> (j < length M)%nat ->
       ((pos (word_perm w (perm_id (length M))) j
         < pos (word_perm w (perm_id (length M))) k)%nat
        <-> pt_ltb (point_at (map snd M) j) (point_at (map snd M) k) = true).
Proof.
  intros Hpr Hnz.
  assert (HO : outer_ok M cruces (perm_id (length M)) [] (sort cruces)).
  { split; [apply perm_id_is_perm|]. split; [intros c []|].
    split; [intros c I; right;
            apply (Permutation_in _ (Permutation_sym (sort_perm cruces))); exact I|].
    split; [intros c I; split;
            [apply (Permutation_in _ (sort_perm cruces)); exact I | intros []]|].
    split; [intros c c' []|].
    intros k j Hkj Hj. rewrite !pos_perm_id by lia.
    split; [lia | intros [c [[] _]]]. }
  destruct (process_replay _ _ _ Hpr []
              (Permutation_NoDup (Permutation_sym (sort_perm cruces))
                 (find_cruces_NoDup _ _ _ Hcruces)) HO Hnz)
    as [done' [HP [Hd [Hall [_ [_ Hinv]]]]]].
  split; [exact HP|].
  intros k j Hkj Hj. rewrite (Hinv k j Hkj Hj). split.
  - intros [c [Hc [<- <-]]]. apply (cruces_facts M cruces Hcruces c (Hd c Hc)).
  - intros Hlt. destruct (cruces_complete M cruces Hcruces k j Hkj Hj Hlt)
      as [c [Hc E]].
    exists c. split; [|exact E]. destruct (Hall c Hc) as [I|[]]. exact I.
Qed.

End SlicePermutation.

(** ** The permutation of the braid follows the strands *)

Lemma filter_length_perm {A : Type} (f : A -> bool) (l l' : list A) :
  Permutation l l' -> length (filter f l) = length (filter f l').
Proof.
  induction 1 as [|a l l' _ IH|a b l|l l' l'' _ IH1 _ IH2]; simpl.
  - reflexivity.
  - destruct (f a); simpl; lia.
  - destruct (f a), (f b); reflexivity.
  - lia.
Qed.

Lemma filter_length_map {A B : Type} (f : B -> bool) (g : A -> B) (l : list A) :
  length (filter f (map g l)) = length (filter (fun x => f (g x)) l).
Proof.
  induction l as [|a r IH]; simpl; [reflexivity|].
  destruct (f (g a)); simpl; lia.
Qed.

Lemma filter_length_all {A : Type} (f : A -> bool) (l : list A) :
  (forall a, In a l -> f a = true) -> length (filter f l) = length l.
Proof.
  induction l as [|a r IH]; intros H; simpl; [reflexivity|].
  rewrite (H a (or_introl eq_refl)). simpl. rewrite IH; [reflexivity|].
  intros b Hb. apply H. right. exact Hb.
Qed.

Lemma filter_length_none {A : Type} (f : A -> bool) (l : list A) :
  (forall a, In a l -> f a = false) -> length (filter f l) = 0%nat.
Proof.
  induction l as [|a r IH]; intros H; simpl; [reflexivity|].
  rewrite (H a (or_introl eq_refl)). apply IH.
  intros b Hb. apply H. right. exact Hb.
Qed.

Lemma filter_lt_seq (v d : nat) :
  length (filter (fun u => (u <? v)%nat) (seq 1 d)) = Nat.min (v - 1) d.
Proof.
  induction d as [|d IH]; [simpl; lia|].
  rewrite seq_S, filter_app, length_app, IH. simpl.
  destruct (Nat.ltb_spec (S d) v); simpl; lia.
Qed.

Lemma perm_list (d : nat) (P : perm) :
  is_perm d P -> map (pos P) (seq 0 d) = P.
Proof.
  intros HP. pose proof (is_perm_length d P HP) as HL.
  apply (nth_ext _ _ 0%nat 0%nat).
  - rewrite length_map, length_seq. lia.
  - intros n Hn. rewrite length_map, length_seq in Hn.
    rewrite (nth_map_lt _ _ _ 0%nat) by (rewrite length_seq; exact Hn).
    rewrite seq_nth by exact Hn. apply pos_nth. lia.
Qed.

(** A permutation of [1..d] puts [v - 1] strands below the position [v]. *)
Lemma perm_count (d : nat) (P : perm) (v : nat) :
  is_perm d P ->
  length (filter (fun j => (pos P j <? v)%nat) (seq 0 d)) = Nat.min (v - 1) d.
Proof.
  intros HP.
  rewrite <- (filter_length_map (fun u => (u <? v)%nat) (pos P)).
  rewrite (perm_list d P HP).
  rewrite (filter_length_perm _ _ _ HP). apply filter_lt_seq.
Qed.

Lemma list_points (l : list pt) :
  l = map (point_at l) (seq 0 (length l)).
Proof.
  apply (nth_ext _ _ (0, 0) (0, 0)).
  - rewrite length_map, length_seq. reflexivity.
  - intros n Hn.
    rewrite (nth_map_lt _ _ _ 0%nat) by (rewrite length_seq; exact Hn).
    rewrite seq_nth by exact Hn. reflexivity.
Qed.

(** A permutation that orders the strands as their points are ordered
    gives every strand the place of its point. *)
Lemma perm_rank (d : nat) (P : perm) (l : list pt) :
  is_perm d P -> length l = d -> NoDup l ->
  (forall k j, (k < j)%nat -> (j < d)%nat ->
     ((pos P j < pos P k)%nat <-> pt_ltb (point_at l j) (point_at l k) = true)) ->
  forall k, (k < d)%nat -> pos P k = S (rank l k).
Proof.
  intros HP HL ND Hord k Hk.
  pose proof (pos_range d P k HP Hk) as Rk.
  assert (E : rank l k = length (filter (fun j => (pos P j <? pos P k)%nat) (seq 0 d))).
  { unfold rank.
    transitivity (length (filter (fun q => pt_ltb q (point_at l k))
                            (map (point_at l) (seq 0 (length l)))));
      [f_equal; f_equal; apply list_points|].
    rewrite filter_length_map, HL. f_equal.
    apply filter_ext_in. intros j Hj. apply in_seq in Hj.
    assert (Hjd : (j < d)%nat) by lia.
    destruct (Nat.lt_trichotomy j k) as [L|[->|L]].
    - pose proof (Hord j k L Hk) as I.
      assert (Np : pos P j <> pos P k).
      { intros X. apply (pos_inj d) in X; auto. lia. }
      assert (Nl : point_at l j <> point_at l k).
      { intros X. unfold point_at in X.
        rewrite NoDup_nth in ND. apply ND in X; lia. }
      destruct (pt_ltb (point_at l k) (point_at l j)) eqn:B.
      + assert (X : (pos P k < pos P j)%nat) by (apply I; reflexivity).
        unfold pt_ltb. rewrite (ltb_asym _ _ B).
        symmetry. apply Nat.ltb_ge. lia.
      + assert (X : ~ (pos P k < pos P j)%nat).
        { intros Y. apply I in Y. congruence. }
        destruct (pt_ltb (point_at l j) (point_at l k)) eqn:B'.
        * symmetry. apply Nat.ltb_lt. lia.
        * exfalso. apply Nl. apply ltb_total; assumption.
    - unfold pt_ltb. rewrite ltb_irrefl. symmetry. apply Nat.ltb_irrefl.
    - pose proof (Hord k j L Hjd) as I.
      destruct (pt_ltb (point_at l j) (point_at l k)) eqn:B.
      + symmetry. apply Nat.ltb_lt. apply I. reflexivity.
      + symmetry. apply Nat.ltb_ge.
        destruct (Nat.lt_ge_cases (pos P j) (pos P k)) as [Y|Y]; [|exact Y].
        apply I in Y. congruence. }
  rewrite E, (perm_count d P (pos P k) HP). lia.
Qed.

(** In a column in increasing order every point has the rank of its place. *)
Lemma filter_length_lt_all {A : Type} (f : A -> bool) (l : list A) :
  (exists a, In a l /\ f a = false) -> (length (filter f l) < length l)%nat.
Proof.
  induction l as [|a r IH]; intros [b [Hb Hf]]; [destruct Hb|].
  simpl. pose proof (filter_length_le f r) as Hle.
  destruct Hb as [->|Hb].
  - rewrite Hf. lia.
  - specialize (IH (ex_intro _ b (conj Hb Hf))). destruct (f a); simpl; lia.
Qed.

Lemma strict_rank (l : list pt) :
  (forall k j, (k < j)%nat -> (j < length l)%nat ->
     pt_ltb (point_at l k) (point_at l j) = true) ->
  forall p, (p < length l)%nat -> rank l p = p.
Proof.
  intros Hs p Hp. unfold rank.
  destruct (nth_split l (0, 0) Hp) as [la [lb [El Ela]]].
  assert (Hlen : length l = (p + S (length lb))%nat).
  { rewrite El at 1. rewrite length_app. simpl. lia. }
  assert (Hy : point_at l p = nth p l (0, 0)) by reflexivity.
  assert (Hla : forall m, (m < p)%nat -> nth m l (0, 0) = nth m la (0, 0)).
  { intros m Hm. rewrite El at 1. apply app_nth1. lia. }
  assert (Hlb : forall m, nth (p + S m) l (0, 0) = nth m lb (0, 0)).
  { intros m. rewrite El at 1. rewrite app_nth2 by lia.
    replace (p + S m - length la)%nat with (S m) by lia. reflexivity. }
  revert El Hy. generalize (nth p l (0, 0)). intros y El Hy.
  rewrite Hy.
  transitivity (length (filter (fun q => pt_ltb q y) (la ++ y :: lb)));
    [f_equal; f_equal; exact El|].
  rewrite filter_app, length_app. cbn [filter].
  unfold pt_ltb at 2. rewrite ltb_irrefl.
  rewrite filter_length_all, filter_length_none; [lia| |].
  - intros b Hb. apply (In_nth _ _ (0, 0)) in Hb. destruct Hb as [m [Hm Eb]].
    rewrite <- Eb, <- Hlb, <- Hy. apply ltb_asym.
    apply Hs; [lia | rewrite Hlen; unfold pt in *; lia].
  - intros a Ha. apply (In_nth _ _ (0, 0)) in Ha. destruct Ha as [m [Hm Ea]].
    assert (Hmp : (m < p)%nat) by (unfold pt in *; lia).
    rewrite <- Ea, <- Hla, <- Hy by exact Hmp. apply Hs; [exact Hmp | exact Hp].
Qed.

Lemma rank_perm (l l' : list pt) (x x' : nat) :
  Permutation l l' -> point_at l x = point_at l' x' -> rank l x = rank l' x'.
Proof.
  intros HP E. unfold rank. rewrite E. apply filter_length_perm. exact HP.
Qed.

Lemma map_fst_combine {A B : Type} (l1 : list A) (l2 : list B) :
  length l1 = length l2 -> map fst (combine l1 l2) = l1.
Proof.
  revert l2. induction l1 as [|a r IH]; intros [|b r2] H; simpl in *;
    try reflexivity; try discriminate.
  rewrite IH by lia. reflexivity.
Qed.

Lemma map_snd_combine {A B : Type} (l1 : list A) (l2 : list B) :
  length l1 = length l2 -> map snd (combine l1 l2) = l2.
Proof.
  revert l2. induction l1 as [|a r IH]; intros [|b r2] H; simpl in *;
    try reflexivity; try discriminate.
  rewrite IH by lia. reflexivity.
Qed.

Lemma pos_word_perm (w : list Z) :
  forall (P : perm) (p : nat), (p < length P)%nat ->
  pos (word_perm w P) p = word_apply w (pos P p).
Proof.
  induction w as [|g w IH]; intros P p Hp; [reflexivity|].
  cbn [word_perm word_apply fold_left].
  change (pos (word_perm w (letter_perm g P)) p
          = word_apply w (swap (Z.abs_nat g) (S (Z.abs_nat g)) (pos P p))).
  rewrite IH by (unfold letter_perm; rewrite length_map; exact Hp).
  f_equal. unfold letter_perm.
  rewrite (pos_nth _ p 0%nat) by (rewrite length_map; exact Hp).
  rewrite (nth_map_lt _ _ _ 0%nat) by exact Hp.
  rewrite <- (pos_nth P p 0%nat) by exact Hp. reflexivity.
Qed.

Lemma word_apply_app (w1 w2 : list Z) (v : nat) :
  word_apply (w1 ++ w2) v = word_apply w2 (word_apply w1 v).
Proof. unfold word_apply. apply fold_left_app. Qed.

(** The letters of a slice take the place of every strand at the start of
    the slice to its place at the end. *)
Lemma slice_follows_strands (d : nat) (l1 l2 : list pt) (cruces : list crossing)
    (w : list Z) (x : nat) :
  length l1 = d -> length l2 = d -> NoDup l1 -> NoDup l2 ->
  slice_cruces l1 l2 = Ok cruces ->
  process d (perm_id d) cruces w ->
  Forall (fun g => g <> 0%Z) w ->
  (x < d)%nat ->
  word_apply w (S (rank l1 x)) = S (rank l2 x).
Proof.
  intros H1 H2 N1 N2 Hc Hpr Hnz Hx.
  set (M := sorted_pairs l1 l2).
  assert (HM : length M = d).
  { unfold M. rewrite sorted_pairs_length by congruence. exact H1. }
  assert (PM : Permutation M (combine l1 l2)) by apply sort_perm.
  assert (P1 : Permutation (map fst M) l1).
  { rewrite <- (map_fst_combine l1 l2) by congruence.
    apply Permutation_map. exact PM. }
  assert (P2 : Permutation (map snd M) l2).
  { rewrite <- (map_snd_combine l1 l2) by congruence.
    apply Permutation_map. exact PM. }
  assert (Hin : In (point_at l1 x, point_at l2 x) M).
  { apply (Permutation_in _ (Permutation_sym PM)).
    unfold point_at. rewrite <- combine_nth by congruence.
    apply nth_In. rewrite length_combine. lia. }
  apply (In_nth _ _ ((0, 0), (0, 0))) in Hin. destruct Hin as [p [Hp Ep]].
  assert (F1 : point_at (map fst M) p = point_at l1 x).
  { unfold point_at at 1.
    rewrite (nth_map_lt fst M p ((0, 0), (0, 0)) (0, 0)) by exact Hp.
    exact (f_equal fst Ep). }
  assert (F2 : point_at (map snd M) p = point_at l2 x).
  { unfold point_at at 1.
    rewrite (nth_map_lt snd M p ((0, 0), (0, 0)) (0, 0)) by exact Hp.
    exact (f_equal snd Ep). }
  assert (ND1 : NoDup (map fst M))
    by (apply (Permutation_NoDup (Permutation_sym P1) N1)).
  assert (ND2 : NoDup (map snd M))
    by (apply (Permutation_NoDup (Permutation_sym P2) N2)).
  assert (R1 : rank l1 x = p).
  { rewrite <- (rank_perm _ _ p x P1 F1). apply strict_rank.
    - intros k j Hkj Hj. rewrite length_map in Hj.
      pose proof (StronglySorted_nth _ _ ((0, 0), (0, 0))
                    (sort_sorted (combine l1 l2)) k j Hkj Hj) as Hle.
      apply pair_le_fst in Hle. fold M in Hle.
      assert (Ek : point_at (map fst M) k = fst (nth k M ((0, 0), (0, 0)))).
      { unfold point_at. apply nth_map_lt. fold M in Hj. lia. }
      assert (Ej : point_at (map fst M) j = fst (nth j M ((0, 0), (0, 0)))).
      { unfold point_at. apply nth_map_lt. fold M in Hj. exact Hj. }
      rewrite Ek, Ej.
      destruct (pt_ltb (fst (nth k M ((0, 0), (0, 0))))
                       (fst (nth j M ((0, 0), (0, 0))))) eqn:B; [reflexivity|].
      exfalso. pose proof (ltb_total _ _ B Hle) as X.
      rewrite <- Ek, <- Ej in X. unfold point_at in X.
      rewrite NoDup_nth in ND1. apply ND1 in X; rewrite ?length_map; lia.
    - rewrite length_map. exact Hp. }
  assert (Hcr : find_cruces (map fst M) (map snd M) = Ok cruces) by exact Hc.
  assert (Hpr' : process (length M) (perm_id (length M)) (sort cruces) w).
  { rewrite HM. apply (process_perm d _ cruces); [|exact Hpr].
    apply Permutation_sym, sort_perm. }
  destruct (slice_perm_spec M (sort_sorted _) cruces Hcr w Hpr' Hnz) as [HP Hord].
  rewrite HM in HP, Hord.
  assert (Hpd : (p < d)%nat) by (rewrite <- HM; exact Hp).
  pose proof (perm_rank d _ (map snd M) HP ltac:(rewrite length_map; exact HM)
                ND2 Hord p Hpd) as Epos.
  rewrite pos_word_perm in Epos by (unfold perm_id; rewrite length_seq; exact Hpd).
  rewrite pos_perm_id in Epos by exact Hpd.
  rewrite R1, Epos. f_equal. apply (rank_perm _ _ p x P2 F2).
Qed.

Lemma slices_follow_strands (d : nat) (tp : list (list pt)) (x : nat) :
  length tp = d -> distinct_columns tp -> (x < d)%nat ->
  forall (m a : nat) (ws : list (list Z)) (first last : list pt),
  Forall2 (slice_processed d tp) (seq a m) ws ->
  Forall (fun g => g <> 0%Z) (concat ws) ->
  column tp a = Ok first -> column tp (a + m) = Ok last ->
  word_apply (concat ws) (S (rank first x)) = S (rank last x).
Proof.
  intros Hd Hdist Hx. induction m as [|m IH]; intros a ws first last HF Hnz Ha Hb.
  - destruct ws as [|wi ws']; [|inversion HF].
    rewrite Nat.add_0_r in Hb.
    assert (E : first = last) by congruence. rewrite E. reflexivity.
  - cbn [seq] in HF. destruct ws as [|wi ws']; [inversion HF|].
    apply Forall2_cons_iff in HF. destruct HF as [Hi HF'].
    cbn [concat] in *. apply Forall_app in Hnz. destruct Hnz as [Hnz1 Hnz2].
    destruct Hi as [l1 [l2 [cruces [C1 [C2 [Hc [Hpr _]]]]]]].
    assert (l1 = first) by congruence. subst l1.
    assert (L1 : length first = d).
    { unfold column in C1. apply mapM_length in C1. congruence. }
    assert (L2 : length l2 = d).
    { unfold column in C2. apply mapM_length in C2. congruence. }
    rewrite word_apply_app.
    rewrite (slice_follows_strands d first l2 cruces wi x L1 L2
               (Hdist _ _ C1) (Hdist _ _ C2) Hc Hpr Hnz1 Hx).
    apply (IH (S a) ws' l2 last HF' Hnz2).
    + rewrite <- C2. f_equal. lia.
    + rewrite <- Hb. f_equal. lia.
Qed.

(** The permutation of the braid is the permutation of the strands: when
    the strands are at different points at every common time, the braid
    word takes the place that a strand has among the starting points to the
    place that it has among the end points. *)
Theorem braid_permutation_follows_strands
    (L : list strand) (w : list Z) (tp : list (list pt)) (first last : list pt)
    (x : nat) :
  braid_from_piecewise L = Ok w ->
  merge L = Ok tp -> distinct_columns tp ->
  column tp 0 = Ok first -> column tp (length (hd [] tp) - 1) = Ok last ->
  (x < length L)%nat ->
  pos (word_perm w (perm_id (length L))) (rank first x) = S (rank last x).
Proof.
  intros Hb Hm Hdist Hf Hl Hx.
  unfold braid_from_piecewise in Hb. inv_bind Hb. rename v into w0.
  unfold BraidGroup in Hb.
  destruct (forallb (valid_generator (length L)) w0) eqn:Hv; [|discriminate].
  inv_ok.
  assert (Hnz : Forall (fun g => g <> 0%Z) w).
  { apply Forall_forall. intros g Hg. rewrite forallb_forall in Hv.
    specialize (Hv g Hg). unfold valid_generator in Hv.
    apply andb_prop in Hv. destruct Hv as [Hv _].
    intros ->. discriminate Hv. }
  destruct (braid_word_spec L w E) as [tp' [n [ws [Hm' [Hlen [Hrect [-> HF]]]]]]].
  assert (tp' = tp) by congruence. subst tp'.
  assert (Hlast : (length (hd [] tp) - 1)%nat = S n).
  { destruct tp as [|r tp']; [simpl in Hlen; lia|]. cbn [hd].
    apply Forall_inv in Hrect. rewrite Hrect. lia. }
  rewrite Hlast in Hl.
  assert (Hr : (rank first x < length L)%nat).
  { unfold rank.
    assert (Lf : length first = length L).
    { unfold column in Hf. apply mapM_length in Hf. congruence. }
    rewrite <- Lf.
    assert (In (point_at first x) first) by (apply nth_In; lia).
    assert (X : (length (filter (fun q => pt_ltb q (point_at first x)) first)
                 < length first)%nat).
    { apply filter_length_lt_all. exists (point_at first x).
      split; [assumption|]. unfold pt_ltb. apply ltb_irrefl. }
    exact X. }
  rewrite pos_word_perm by (unfold perm_id; rewrite length_seq; exact Hr).
  rewrite pos_perm_id by exact Hr.
  apply (slices_follow_strands (length L) tp x Hlen Hdist Hx (S n) 0%nat ws
           first last HF Hnz Hf Hl).
Qed.

Lemma distinct_points (l : list pt) : dedup l = l -> NoDup l.
Proof. intros E. rewrite <- E. apply dedup_NoDup. Qed.

Lemma braid_permutation_follows_strands_witness :
  pos (word_perm [1; 2]%Z (perm_id (length docstring_paths)))
      (rank (map (fun r => point_at r 0) docstring_table) 1)
  = S (rank (map (fun r => point_at r 4) docstring_table) 1).
Proof.
  apply (braid_permutation_follows_strands docstring_paths [1; 2]%Z
           docstring_table _ _ 1).
  - vm_compute. reflexivity.
  - vm_compute. reflexivity.
  - intros i l Hl.
    destruct i as [|[|[|[|[|[|i]]]]]]; vm_compute in Hl; try discriminate Hl;
      injection Hl as <-; apply distinct_points; vm_compute; reflexivity.
  - vm_compute. reflexivity.
  - vm_compute. reflexivity.
  - simpl. lia.
Defined.
